(** * direwolf-display: retention store, broadcast hub and stream session

    A shallow embedding of [app/models.py], [app/config.py],
    [app/storage.py], [app/main.py], [app/ingest.py], [app/stations.py],
    [app/status.py] and [app/stream.py], and of parts of the tools, followed
    by the properties of the retention store, of the broadcast hub, of the
    start of a stream session and of the tools.

    Conventions of the embedding.
    - A point in time is an integer number of microseconds since the Unix
      epoch ([Z]); a [timedelta] is an integer number of microseconds.
    - The store is embedded twice.  [Models] and [Storage] compute with these
      instants without bound: they are the code as long as every datetime it
      builds lies within Python's range, the years 1 to 9999.  [Ranged]
      embeds the same functions with that range: [fromtimestamp],
      [astimezone], [timedelta], [datetime.now] and the subtraction raise as
      Python does, and what the store holds when they do is kept.  The two
      agree on every run whose datetimes stay within the range
      ([ranged_apply_insert], [ranged_run_inserts]); the statements about what
      returns, and about what holds after every insert, are made on
      [Ranged].
    - [datetime.now(timezone.utc)] reads a wall clock.  The clock is an
      explicit piece of state: an oracle [wall] giving the value of the n-th
      reading, and the number of readings made so far.
    - Python exceptions are values of [exn]; a computation returns an
      [outcome] together with the state it leaves behind, so that mutations
      made before a [raise] stay visible.
    - The [asyncio.Lock]s serialise the bodies they guard, and no guarded
      body contains an [await]: a lock is free whenever a coroutine runs, and
      a method body is one atomic state transformer here. *)

From Stdlib Require Import ZArith Lia List Ascii.
From stdpp Require Import base option list strings gmap sorting.

Local Open Scope Z_scope.

(** ** Exceptions, outcomes and the state-and-exception monad *)

Inductive exn : Type :=
| IndexError        (* deque.popleft() on an empty deque *)
| QueueFull         (* asyncio.Queue.put_nowait on a full queue *)
| QueueEmpty        (* asyncio.Queue.get_nowait on an empty queue *)
| ValidationError   (* pydantic field constraint violated *)
| ValueError        (* datetime.fromtimestamp: year out of range *)
| OverflowError     (* datetime or timedelta arithmetic out of range *)
| OSError.          (* datetime.fromtimestamp: gmtime cannot convert *)

#[global] Instance exn_eq_dec : EqDecision exn.
Proof. solve_decision. Defined.

Inductive outcome (A : Type) : Type :=
| Returned (a : A)
| Raised (e : exn).
Arguments Returned {A} a.
Arguments Raised {A} e.

(** [M S A]: a computation over a mutable state [S] that returns an [A] or
    raises; the final state is kept in both cases. *)
Definition M (S A : Type) : Type := S -> outcome A * S.

Definition ret {S A} (a : A) : M S A := fun s => (Returned a, s).

Definition raise {S A} (e : exn) : M S A := fun s => (Raised e, s).

Definition bind {S A B} (c : M S A) (k : A -> M S B) : M S B :=
  fun s =>
    match c s with
    | (Returned a, s') => k a s'
    | (Raised e, s') => (Raised e, s')
    end.

Definition gets {S A} (f : S -> A) : M S A := fun s => (Returned (f s), s).

Definition modify {S} (f : S -> S) : M S unit := fun s => (Returned tt, f s).

(** [try: c except e: handler]: only exception [e] is caught. *)
Definition try_except {S A} (c : M S A) (e : exn) (handler : M S A) : M S A :=
  fun s =>
    match c s with
    | (Returned a, s') => (Returned a, s')
    | (Raised e', s') => if decide (e' = e) then handler s' else (Raised e', s')
    end.

Declare Scope monad_scope.
Delimit Scope monad_scope with monad.
Notation "x <- c ;; k" := (bind c (fun x => k))
  (at level 100, c at next level, right associativity) : monad_scope.
Notation "c ;;; k" := (bind c (fun _ => k))
  (at level 100, right associativity) : monad_scope.

(** ** The wall clock *)

Record clock : Type := Clock {
  wall : nat -> Z;   (* value of the n-th reading, in microseconds *)
  reads : nat        (* readings made so far *)
}.

(** A computation that may read the clock and cannot raise. *)
Definition Timed (A : Type) : Type := clock -> A * clock.

(** [datetime.now(timezone.utc)] *)
Definition datetime_now : Timed Z :=
  fun c => (wall c (reads c), {| wall := wall c; reads := S (reads c) |}).


(** ** app/models.py *)

Module Models.

(** A [datetime] as it arrives in a request: the wall fields as
    microseconds, and the UTC offset of its [tzinfo] when it has one. *)
Record datetime : Type := Datetime {
  fields_us : Z;
  tzinfo : option Z
}.

(** [_ensure_utc]: a naive value is taken to be UTC already, an aware one is
    converted.  The result is the UTC instant. *)
Definition _ensure_utc (value : datetime) : Z :=
  match tzinfo value with
  | None => fields_us value
  | Some utcoffset => fields_us value - utcoffset
  end.

(** [datetime.fromtimestamp(unix_time, tz=timezone.utc)] *)
Definition fromtimestamp (unix_time : Z) : Z := unix_time * 1000000.

Inductive message_type_t : Type := MtPacket | MtStatus | MtTelemetry.

(** [PacketEvent].  The optional scalar fields that no store operation reads
    ([dti], [name], [symbol], ..., [raw_row]) are gathered in [aux]. *)
Record PacketEvent : Type := {
  message_type : message_type_t;
  timestamp : option datetime;
  unix_time : option Z;
  channel : option Z;
  source_callsign : option string;
  destination_callsign : option string;
  path : option (list string);
  comment : option string;
  aux : list (string * string)
}.

Record RssiSample : Type := {
  rssi_timestamp : option datetime;
  dbm : Z;                      (* thousandths of a dBm *)
  frequency_mhz : Z;            (* kHz *)
  integration_ms : option Z;
  metadata : list (string * string)
}.

(** Objects with an [effective_datetime] property. *)
Class Timestamped (T : Type) : Type := {
  (** the timestamp the object carries, if any *)
  stored_datetime : T -> option Z;
  effective_datetime : T -> Timed Z
}.

Definition packet_stored_datetime (self : PacketEvent) : option Z :=
  match timestamp self with
  | Some ts => Some (_ensure_utc ts)
  | None =>
      match unix_time self with
      | Some u => Some (fromtimestamp u)
      | None => None
      end
  end.

(** [PacketEvent.effective_datetime] *)
Definition packet_effective_datetime (self : PacketEvent) : Timed Z :=
  fun c =>
    match timestamp self with
    | Some ts => (_ensure_utc ts, c)
    | None =>
        match unix_time self with
        | Some u => (fromtimestamp u, c)
        | None => datetime_now c
        end
    end.

Definition rssi_stored_datetime (self : RssiSample) : option Z :=
  match rssi_timestamp self with
  | Some ts => Some (_ensure_utc ts)
  | None => None
  end.

(** [RssiSample.effective_datetime] *)
Definition rssi_effective_datetime (self : RssiSample) : Timed Z :=
  fun c =>
    match rssi_timestamp self with
    | Some ts => (_ensure_utc ts, c)
    | None => datetime_now c
    end.

#[global] Instance packet_timestamped : Timestamped PacketEvent :=
  {| stored_datetime := packet_stored_datetime;
     effective_datetime := packet_effective_datetime |}.

#[global] Instance rssi_timestamped : Timestamped RssiSample :=
  {| stored_datetime := rssi_stored_datetime;
     effective_datetime := rssi_effective_datetime |}.

Inductive event_type_t : Type := EtPacket | EtRssi | EtHeartbeat.

(** The payload of a message: [model_dump(mode="json")] of an event, or the
    timestamp of a heartbeat. *)
Inductive payload_t : Type :=
| PacketPayload (p : PacketEvent)
| RssiPayload (s : RssiSample)
| HeartbeatPayload (ts : Z).

Record StreamMessage : Type := {
  event_type : event_type_t;
  payload : option payload_t
}.

End Models.
Import Models.

(** ** app/config.py *)

Module Config.

Record AppSettings : Type := {
  history_retention_seconds : Z;
  max_history_items : Z;
  sse_heartbeat_interval : Z;   (* milliseconds *)
  stats_include_history : bool
}.

(** Values read from the environment; an absent one takes the default. *)
Record environment : Type := {
  env_history_retention_seconds : option Z;
  env_max_history_items : option Z;
  env_sse_heartbeat_interval : option Z;
  env_stats_include_history : option bool
}.

(** [AppSettings()]: defaults, then the constraints [ge=60], [ge=1] and
    [gt=0] of the three numeric fields. *)
Definition new_AppSettings (env : environment) : outcome AppSettings :=
  let retention := default (60 * 60) (env_history_retention_seconds env) in
  let items := default 10000 (env_max_history_items env) in
  let heartbeat := default 15000 (env_sse_heartbeat_interval env) in
  let history := default true (env_stats_include_history env) in
  if negb (60 <=? retention) then Raised ValidationError
  else if negb (1 <=? items) then Raised ValidationError
  else if negb (0 <? heartbeat) then Raised ValidationError
  else Returned {| history_retention_seconds := retention;
                   max_history_items := items;
                   sse_heartbeat_interval := heartbeat;
                   stats_include_history := history |}.

(** [get_settings], under [lru_cache(maxsize=1)]: the state is the cache.  The
    first call that returns stores its result, and every later call answers
    with it without reading the environment; a call that raises stores
    nothing. *)
Definition get_settings (env : environment) : M (option AppSettings) AppSettings :=
  fun cache =>
    match cache with
    | Some cached => (Returned cached, cache)
    | None =>
        match new_AppSettings env with
        | Returned settings => (Returned settings, Some settings)
        | Raised e => (Raised e, None)
        end
    end.

End Config.

(** ** Python containers used by the store *)

(** A [dict] with string keys: insertion-ordered, one entry per key. *)
Definition dict (V : Type) : Type := list (string * V).

Fixpoint dict_get {V} (k : string) (d : dict V) : option V :=
  match d with
  | [] => None
  | (k', v) :: rest => if String.eqb k k' then Some v else dict_get k rest
  end.

(** [d[k] = v]: an existing key keeps its position, a new key goes last. *)
Fixpoint dict_setitem {V} (k : string) (v : V) (d : dict V) : dict V :=
  match d with
  | [] => [(k, v)]
  | (k', v') :: rest =>
      if String.eqb k k' then (k, v) :: rest else (k', v') :: dict_setitem k v rest
  end.

(** [d.pop(k, None)] *)
Fixpoint dict_pop {V} (k : string) (d : dict V) : dict V :=
  match d with
  | [] => []
  | (k', v') :: rest =>
      if String.eqb k k' then rest else (k', v') :: dict_pop k rest
  end.

Definition dict_keys {V} (d : dict V) : list string := fst <$> d.

(** ** app/storage.py *)

Module Storage.

(** *** asyncio.Queue *)

Record Queue : Type := {
  maxsize : Z;
  _queue : list StreamMessage          (* oldest first *)
}.

Definition new_Queue (maxsize : Z) : Queue :=
  {| maxsize := maxsize; _queue := [] |}.

Definition qsize (q : Queue) : Z := Z.of_nat (length (_queue q)).

(** [Queue.full()]: a queue with [maxsize <= 0] is never full. *)
Definition full (q : Queue) : bool :=
  if maxsize q <=? 0 then false else maxsize q <=? qsize q.

Definition empty (q : Queue) : bool :=
  match _queue q with [] => true | _ => false end.

Definition put_nowait (item : StreamMessage) : M Queue unit :=
  fun q =>
    if full q then (Raised QueueFull, q)
    else (Returned tt, {| maxsize := maxsize q; _queue := _queue q ++ [item] |}).

Definition get_nowait : M Queue StreamMessage :=
  fun q =>
    match _queue q with
    | [] => (Raised QueueEmpty, q)
    | item :: rest => (Returned item, {| maxsize := maxsize q; _queue := rest |})
    end.

(** *** BroadcastHub *)

(** The set of listener queues.  A queue object is identified by the handle
    it was allocated under; handles are never reused. *)
Record BroadcastHub : Type := {
  _listeners : gmap nat Queue;
  next_handle : nat
}.

Definition new_BroadcastHub : BroadcastHub :=
  {| _listeners := ∅; next_handle := 0 |}.

Definition subscribe : M BroadcastHub nat :=
  fun self =>
    let queue := next_handle self in
    (Returned queue,
     {| _listeners := <[queue := new_Queue 512]> (_listeners self);
        next_handle := S queue |}).

Definition unsubscribe (queue : nat) : M BroadcastHub unit :=
  fun self =>
    (Returned tt,
     {| _listeners := delete queue (_listeners self);
        next_handle := next_handle self |}).

(** Run a queue method on the queue object behind a handle. *)
Definition on_queue {A} (queue : nat) (c : M Queue A) (absent : A) : M BroadcastHub A :=
  fun self =>
    match _listeners self !! queue with
    | None => (Returned absent, self)
    | Some q =>
        let '(r, q') := c q in
        (r, {| _listeners := <[queue := q']> (_listeners self);
               next_handle := next_handle self |})
    end.

(** The body of the [for queue in listeners] loop of [publish]. *)
Definition publish_one (message : StreamMessage) : M Queue unit :=
  try_except (put_nowait message) QueueFull
    ((* Drop the oldest item to make room, then enqueue the latest. *)
     try_except (_ <- get_nowait ;; ret tt) QueueEmpty (ret tt) ;;;
     try_except (put_nowait message) QueueFull
       ((* Listener is completely overwhelmed; skip this message. *)
        ret tt))%monad.

Fixpoint for_each_queue (listeners : list nat) (body : M Queue unit)
  : M BroadcastHub unit :=
  match listeners with
  | [] => ret tt
  | queue :: rest =>
      (on_queue queue body tt ;;; for_each_queue rest body)%monad
  end.

Definition publish (message : StreamMessage) : M BroadcastHub unit :=
  fun self =>
    let listeners := elements (dom (_listeners self)) in
    for_each_queue listeners (publish_one message) self.

(** *** InMemoryStore *)

Record InMemoryStore : Type := {
  _packets : list PacketEvent;                  (* deque, oldest first *)
  _rssi : list RssiSample;                      (* deque, oldest first *)
  _last_seen_by_station : dict PacketEvent;
  _retention : Z;                               (* timedelta, microseconds *)
  _max_items : Z
}.

(** [timedelta(seconds=n)] *)
Definition timedelta_seconds (n : Z) : Z := n * 1000000.

(** What the methods of the store act on: the store object and the clock. *)
Record World : Type := {
  self : InMemoryStore;
  clk : clock
}.

Definition timed {A} (c : Timed A) : M World A :=
  fun w =>
    let '(a, k) := c (clk w) in
    (Returned a, {| self := self w; clk := k |}).

(** A reference to one of the two deques of the store, as [_trim] receives
    it in its [collection] argument. *)
Record deque_ref (T : Type) : Type := {
  deref : InMemoryStore -> list T;
  assign : list T -> InMemoryStore -> InMemoryStore
}.
Arguments deref {T} _ _.
Arguments assign {T} _ _ _.

Definition packets_ref : deque_ref PacketEvent :=
  {| deref := _packets;
     assign := fun l s =>
       {| _packets := l; _rssi := _rssi s;
          _last_seen_by_station := _last_seen_by_station s;
          _retention := _retention s; _max_items := _max_items s |} |}.

Definition rssi_ref : deque_ref RssiSample :=
  {| deref := _rssi;
     assign := fun l s =>
       {| _packets := _packets s; _rssi := l;
          _last_seen_by_station := _last_seen_by_station s;
          _retention := _retention s; _max_items := _max_items s |} |}.

Definition set_last_seen (d : dict PacketEvent) (s : InMemoryStore) : InMemoryStore :=
  {| _packets := _packets s; _rssi := _rssi s;
     _last_seen_by_station := d;
     _retention := _retention s; _max_items := _max_items s |}.

(** [_now] *)
Definition _now : Timed Z := datetime_now.

(** [_is_stale]: the property is evaluated at the moment of the test. *)
Definition _is_stale {T} `{Timestamped T} (item : T) (cutoff : Z) : Timed bool :=
  fun c =>
    let '(ts, c') := effective_datetime item c in
    (ts <? cutoff, c').

(** [while collection and self._is_stale(collection[0], cutoff):
       collection.popleft()] *)
Fixpoint drop_stale {T} `{Timestamped T} (cutoff : Z) (collection : list T)
  : Timed (list T) :=
  fun c =>
    match collection with
    | [] => ([], c)
    | item :: rest =>
        let '(stale, c') := _is_stale item cutoff c in
        if stale then drop_stale cutoff rest c' else (item :: rest, c')
    end.

(** [while len(collection) > self._max_items: collection.popleft()];
    [popleft] raises [IndexError] on an empty deque. *)
Fixpoint drop_excess {T} (max_items : Z) (collection : list T) : outcome unit * list T :=
  if max_items <? Z.of_nat (length collection) then
    match collection with
    | [] => (Raised IndexError, [])
    | _ :: rest => drop_excess max_items rest
    end
  else (Returned tt, collection).

Definition age_pass {T} `{Timestamped T} (collection : deque_ref T) (cutoff : Z)
  : M World unit :=
  fun w =>
    let '(kept, k) := drop_stale cutoff (deref collection (self w)) (clk w) in
    (Returned tt, {| self := assign collection kept (self w); clk := k |}).

Definition capacity_pass {T} (collection : deque_ref T) : M World unit :=
  fun w =>
    let '(r, kept) := drop_excess (_max_items (self w)) (deref collection (self w)) in
    (r, {| self := assign collection kept (self w); clk := clk w |}).

(** The list comprehension of [_prune_last_seen]. *)
Fixpoint stale_callsigns (cutoff : Z) (items : list (string * PacketEvent))
  : Timed (list string) :=
  fun c =>
    match items with
    | [] => ([], c)
    | (callsign, packet) :: rest =>
        let '(ts, c1) := effective_datetime packet c in
        let '(more, c2) := stale_callsigns cutoff rest c1 in
        (if ts <? cutoff then callsign :: more else more, c2)
    end.

Definition pop_all (callsigns : list string) (d : dict PacketEvent) : dict PacketEvent :=
  fold_left (fun d callsign => dict_pop callsign d) callsigns d.

Definition _prune_last_seen (cutoff : Z) : M World unit :=
  fun w =>
    let '(stale, k) := stale_callsigns cutoff (_last_seen_by_station (self w)) (clk w) in
    (Returned tt,
     {| self := set_last_seen (pop_all stale (_last_seen_by_station (self w))) (self w);
        clk := k |}).

Definition _trim {T} `{Timestamped T} (collection : deque_ref T) (prune_last_seen : bool)
  : M World unit :=
  (now <- timed _now ;;
   retention <- gets (fun w => _retention (self w)) ;;
   let cutoff := now - retention in
   age_pass collection cutoff ;;;
   capacity_pass collection ;;;
   if prune_last_seen then _prune_last_seen cutoff else ret tt)%monad.

(** Truth value of an optional string: [None] and the empty string are
    false. *)
Definition truthy (s : option string) : option string :=
  match s with
  | Some EmptyString => None
  | other => other
  end.

Definition add_packet (packet : PacketEvent) : M World unit :=
  (modify (fun w =>
     {| self := assign packets_ref (_packets (self w) ++ [packet]) (self w);
        clk := clk w |}) ;;;
   match truthy (source_callsign packet) with
   | Some callsign =>
       modify (fun w =>
         {| self := set_last_seen
                      (dict_setitem callsign packet (_last_seen_by_station (self w)))
                      (self w);
            clk := clk w |})
   | None => ret tt
   end ;;;
   _trim packets_ref true)%monad.

Definition add_rssi (sample : RssiSample) : M World unit :=
  (modify (fun w =>
     {| self := assign rssi_ref (_rssi (self w) ++ [sample]) (self w);
        clk := clk w |}) ;;;
   _trim rssi_ref false)%monad.

Definition get_recent_packets : M World (list PacketEvent) :=
  gets (fun w => _packets (self w)).

Definition get_recent_rssi : M World (list RssiSample) :=
  gets (fun w => _rssi (self w)).

Definition get_last_seen : M World (dict PacketEvent) :=
  gets (fun w => _last_seen_by_station (self w)).

(** [list.sort(key=...)] on entries, the key being the first component:
    ascending and stable. *)
Fixpoint insert_by_key {A} (x : Z * A) (l : list (Z * A)) : list (Z * A) :=
  match l with
  | [] => [x]
  | y :: rest =>
      if fst y <? fst x then y :: insert_by_key x rest else x :: y :: rest
  end.

Definition sort_by_key {A} (l : list (Z * A)) : list (Z * A) :=
  foldr insert_by_key [] l.

(** The two [for] loops of [snapshot_stream_events]: one entry per item, the
    key being the effective datetime at the moment the entry is built. *)
Fixpoint make_entries {T} `{Timestamped T} (wrap : T -> StreamMessage) (items : list T)
  : Timed (list (Z * StreamMessage)) :=
  fun c =>
    match items with
    | [] => ([], c)
    | item :: rest =>
        let '(ts, c1) := effective_datetime item c in
        let '(more, c2) := make_entries wrap rest c1 in
        ((ts, wrap item) :: more, c2)
    end.

Definition packet_message (packet : PacketEvent) : StreamMessage :=
  {| event_type := EtPacket; payload := Some (PacketPayload packet) |}.

Definition rssi_message (sample : RssiSample) : StreamMessage :=
  {| event_type := EtRssi; payload := Some (RssiPayload sample) |}.

Definition snapshot_entries : M World (list (Z * StreamMessage)) :=
  (packets <- gets (fun w => _packets (self w)) ;;
   from_packets <- timed (make_entries packet_message packets) ;;
   samples <- gets (fun w => _rssi (self w)) ;;
   from_rssi <- timed (make_entries rssi_message samples) ;;
   ret (from_packets ++ from_rssi))%monad.

Definition snapshot_stream_events : M World (list StreamMessage) :=
  (entries <- snapshot_entries ;;
   ret (map snd (sort_by_key entries)))%monad.

Record Stats : Type := {
  packets_count : nat;
  rssi_samples : nat;
  stations_tracked : nat
}.

Definition stats : M World Stats :=
  gets (fun w =>
    {| packets_count := length (_packets (self w));
       rssi_samples := length (_rssi (self w));
       stations_tracked := length (_last_seen_by_station (self w)) |}).

(** The dict comprehension of [recent_stations]. *)
Fixpoint stations_since (since : Z) (items : list (string * PacketEvent))
  : Timed (dict PacketEvent) :=
  fun c =>
    match items with
    | [] => ([], c)
    | (callsign, packet) :: rest =>
        let '(ts, c1) := effective_datetime packet c in
        let '(more, c2) := stations_since since rest c1 in
        (if since <=? ts then (callsign, packet) :: more else more, c2)
    end.

Definition recent_stations (since : Z) : M World (dict PacketEvent) :=
  (items <- gets (fun w => _last_seen_by_station (self w)) ;;
   timed (stations_since since items))%monad.

End Storage.
Import Storage.

(** ** app/main.py, app/ingest.py *)

Module Main.

(** [app.state]: the settings, the store (with the clock its methods read)
    and the hub. *)
Record App : Type := {
  settings : Config.AppSettings;
  world : World;
  broadcast : BroadcastHub
}.

Definition in_store {A} (c : M World A) : M App A :=
  fun app =>
    let '(r, w) := c (world app) in
    (r, {| settings := settings app; world := w; broadcast := broadcast app |}).

Definition in_hub {A} (c : M BroadcastHub A) : M App A :=
  fun app =>
    let '(r, h) := c (broadcast app) in
    (r, {| settings := settings app; world := world app; broadcast := h |}).

(** [ingest_packets]: store, then publish, for each packet; the number of
    accepted packets is returned. *)
Fixpoint ingest_packets_from (accepted : nat) (packets : list PacketEvent) : M App nat :=
  match packets with
  | [] => ret accepted
  | packet :: rest =>
      (in_store (add_packet packet) ;;;
       in_hub (publish (packet_message packet)) ;;;
       ingest_packets_from (S accepted) rest)%monad
  end.

Definition ingest_packets (packets : list PacketEvent) : M App nat :=
  ingest_packets_from 0 packets.

Fixpoint ingest_rssi_from (accepted : nat) (samples : list RssiSample) : M App nat :=
  match samples with
  | [] => ret accepted
  | sample :: rest =>
      (in_store (add_rssi sample) ;;;
       in_hub (publish (rssi_message sample)) ;;;
       ingest_rssi_from (S accepted) rest)%monad
  end.

Definition ingest_rssi (samples : list RssiSample) : M App nat :=
  ingest_rssi_from 0 samples.

End Main.
Import Main.

(** ** app/stream.py *)

Module Stream.

(** A request handled by another coroutine. *)
Inductive request : Type :=
| PostPackets (packets : list PacketEvent)
| PostRssi (samples : list RssiSample).

Definition handle (r : request) : M App nat :=
  match r with
  | PostPackets packets => ingest_packets packets
  | PostRssi samples => ingest_rssi samples
  end.

(** Requests served while the session is suspended: their effects on the
    application state stay, their responses go to their own callers. *)
Definition interleave (others : list request) (app : App) : App :=
  fold_left (fun app r => snd (handle r app)) others app.

(** What the generator has to send once started: the replay, and the
    messages pending in the session's queue. *)
Definition pending (queue : nat) (app : App) : list StreamMessage :=
  match _listeners (broadcast app) !! queue with
  | Some q => _queue q
  | None => []
  end.

End Stream.
Import Stream.

(** ** Vocabulary of the statements *)

(** The values that successive evaluations of [effective_datetime] return on
    the items of a list, oldest first, starting from a clock state. *)
Fixpoint observe_all {T} `{Timestamped T} (items : list T) : Timed (list Z) :=
  fun c =>
    match items with
    | [] => ([], c)
    | item :: rest =>
        let '(ts, c1) := effective_datetime item c in
        let '(more, c2) := observe_all rest c1 in
        (ts :: more, c2)
    end.

(** Number of leading values below the cutoff. *)
Fixpoint stale_prefix (cutoff : Z) (observed : list Z) : nat :=
  match observed with
  | [] => O
  | ts :: rest => if ts <? cutoff then S (stale_prefix cutoff rest) else O
  end.

(** Number of items above the capacity. *)
Definition excess (max_items : Z) (size : nat) : nat :=
  Z.to_nat (Z.of_nat size - max_items).

(** The clock after [n] more readings. *)
Definition advance (n : nat) (c : clock) : clock :=
  {| wall := wall c; reads := (reads c + n)%nat |}.

(** An insert into one of the two histories. *)
Inductive insert_op : Type :=
| InsertPacket (packet : PacketEvent)
| InsertRssi (sample : RssiSample).

Definition apply_insert (op : insert_op) : M World unit :=
  match op with
  | InsertPacket packet => add_packet packet
  | InsertRssi sample => add_rssi sample
  end.

(** The state after a sequence of inserts, whatever each of them returned. *)
Definition run_inserts (ops : list insert_op) (w : World) : World :=
  fold_left (fun w op => snd (apply_insert op w)) ops w.

Definition packets_of (ops : list insert_op) : list PacketEvent :=
  omap (fun op => match op with InsertPacket p => Some p | _ => None end) ops.

Definition samples_of (ops : list insert_op) : list RssiSample :=
  omap (fun op => match op with InsertRssi s => Some s | _ => None end) ops.

(** Every item carries a timestamp, and the timestamps never decrease along
    the list. *)
Definition in_timestamp_order {T} `{Timestamped T} (items : list T) : Prop :=
  exists stamps : list Z,
    map stored_datetime items = map Some stamps /\ Sorted Z.le stamps.

(** The last packet of a list that carries a given source identifier. *)
Definition latest_from (callsign : string) (packets : list PacketEvent)
  : option PacketEvent :=
  last (filter (fun p => source_callsign p = Some callsign) packets).

(** A store as [__init__] leaves it, with a clock. *)
Definition fresh_world (retention_seconds max_items : Z) (c : clock) : World :=
  {| self := {| _packets := []; _rssi := []; _last_seen_by_station := [];
                _retention := timedelta_seconds retention_seconds;
                _max_items := max_items |};
     clk := c |}.

(** ** Laws of the interfaces *)

(** An object with a stored timestamp answers with it and leaves the clock
    alone; one without reads the clock. *)
Class Lawful (T : Type) `{Timestamped T} : Prop :=
  effective_datetime_spec :
    forall (x : T) (c : clock),
      effective_datetime x c =
      match stored_datetime x with
      | Some ts => (ts, c)
      | None => datetime_now c
      end.

(** A deque reference reads back what was assigned and touches nothing else
    in the store. *)
Class RefOk {T : Type} (r : deque_ref T) : Prop := {
  deref_assign : forall l s, deref r (assign r l s) = l;
  assign_assign : forall l l' s, assign r l (assign r l' s) = assign r l s;
  assign_deref : forall s, assign r (deref r s) s = s;
  deref_set_last_seen : forall d s, deref r (set_last_seen d s) = deref r s;
  assign_last_seen : forall l s,
    _last_seen_by_station (assign r l s) = _last_seen_by_station s;
  assign_retention : forall l s, _retention (assign r l s) = _retention s;
  assign_max_items : forall l s, _max_items (assign r l s) = _max_items s
}.

(** [c'] is a later state of the clock [c]. *)
Definition later (c c' : clock) : Prop :=
  wall c' = wall c /\ (reads c <= reads c')%nat.

(** The cutoff [_trim] computes from a world: the next clock reading minus
    the retention. *)
Definition cutoff_of (w : World) : Z :=
  wall (clk w) (reads (clk w)) - _retention (self w).

(** The history after the age pass of a [_trim] started in [w]. *)
Definition aged_of {T} `{Timestamped T} (collection : deque_ref T) (w : World) : list T :=
  fst (drop_stale (cutoff_of w) (deref collection (self w)) (advance 1 (clk w))).

(** The clock after the age pass. *)
Definition aged_clock {T} `{Timestamped T} (collection : deque_ref T) (w : World) : clock :=
  snd (drop_stale (cutoff_of w) (deref collection (self w)) (advance 1 (clk w))).

(** ** Fixtures, after tests/test_storage.py *)

(** A clock that starts at [start] and advances by one microsecond at each
    reading. *)
Definition ticking (start : Z) : clock :=
  {| wall := fun n => Z.of_nat n + start; reads := 0 |}.

(** [PacketEvent(source_callsign=callsign, timestamp=ts)], [ts] in UTC. *)
Definition packet_at (callsign : string) (ts : Z) : PacketEvent :=
  {| message_type := MtPacket;
     timestamp := Some {| fields_us := ts; tzinfo := Some 0 |};
     unix_time := None; channel := None;
     source_callsign := Some callsign; destination_callsign := None;
     path := None; comment := None; aux := [] |}.

(** [PacketEvent(source_callsign=callsign)]: no timestamp, no epoch. *)
Definition bare_packet (callsign : string) : PacketEvent :=
  {| message_type := MtPacket;
     timestamp := None; unix_time := None; channel := None;
     source_callsign := Some callsign; destination_callsign := None;
     path := None; comment := None; aux := [] |}.

(** [RssiSample(dbm=-50.0, frequency_mhz=144.39, timestamp=ts)] *)
Definition sample_at (ts : Z) : RssiSample :=
  {| rssi_timestamp := Some {| fields_us := ts; tzinfo := Some 0 |};
     dbm := -50000; frequency_mhz := 144390;
     integration_ms := None; metadata := [] |}.

Definition seconds (n : Z) : Z := n * 1000000.

(** The index after the assignment [self._last_seen_by_station[callsign] =
    packet], made only for a non-empty source callsign. *)
Definition indexed (packet : PacketEvent) (d : dict PacketEvent) : dict PacketEvent :=
  match truthy (source_callsign packet) with
  | Some callsign => dict_setitem callsign packet d
  | None => d
  end.

(** The world between the first two statements of [add_packet] and the call
    of [_trim]. *)
Definition appended_packet (packet : PacketEvent) (w : World) : World :=
  {| self := {| _packets := _packets (self w) ++ [packet];
                _rssi := _rssi (self w);
                _last_seen_by_station := indexed packet (_last_seen_by_station (self w));
                _retention := _retention (self w);
                _max_items := _max_items (self w) |};
     clk := clk w |}.

Definition appended_sample (sample : RssiSample) (w : World) : World :=
  {| self := {| _packets := _packets (self w);
                _rssi := _rssi (self w) ++ [sample];
                _last_seen_by_station := _last_seen_by_station (self w);
                _retention := _retention (self w);
                _max_items := _max_items (self w) |};
     clk := clk w |}.

(** The entries of a dict that are observed at or above the cutoff. *)
Fixpoint keep_fresh (cutoff : Z) (items : dict PacketEvent) (observed : list Z)
  : dict PacketEvent :=
  match items, observed with
  | entry :: rest, ts :: more =>
      if ts <? cutoff then keep_fresh cutoff rest more
      else entry :: keep_fresh cutoff rest more
  | _, _ => []
  end.

(** The size of the history an insert appends to. *)
Definition affected_size (op : insert_op) (w : World) : nat :=
  match op with
  | InsertPacket _ => length (_packets (self w))
  | InsertRssi _ => length (_rssi (self w))
  end.

(** The effective datetimes of the history an insert appends to, as observed
    in a world. *)
Definition affected_observed (op : insert_op) (w : World) : list Z :=
  match op with
  | InsertPacket _ => fst (observe_all (_packets (self w)) (clk w))
  | InsertRssi _ => fst (observe_all (_rssi (self w)) (clk w))
  end.

(** The events inserted into the history of [op] arrive in timestamp
    order. *)
Definition arrive_in_order (op : insert_op) (ops : list insert_op) : Prop :=
  match op with
  | InsertPacket _ => in_timestamp_order (packets_of ops)
  | InsertRssi _ => in_timestamp_order (samples_of ops)
  end.

(** The queue [publish] leaves behind for one listener. *)
Definition delivered (message : StreamMessage) (q : Queue) : Queue :=
  snd (publish_one message q).

(** A queue without its oldest pending message. *)
Definition without_oldest (q : Queue) : Queue :=
  {| maxsize := maxsize q; _queue := tail (_queue q) |}.

(** A queue with one more pending message, at the newest end. *)
Definition with_newest (message : StreamMessage) (q : Queue) : Queue :=
  {| maxsize := maxsize q; _queue := _queue q ++ [message] |}.

(** No setting is overridden by the environment. *)
Definition default_environment : Config.environment :=
  {| Config.env_history_retention_seconds := None;
     Config.env_max_history_items := None;
     Config.env_sse_heartbeat_interval := None;
     Config.env_stats_include_history := None |}.

(** The application with another state of the store. *)
Definition with_world (w : World) (app : App) : App :=
  {| settings := settings app; world := w; broadcast := broadcast app |}.

(** The application [create_app] builds from the default settings. *)
Definition default_app (c : clock) : App :=
  {| settings := {| Config.history_retention_seconds := 3600;
                    Config.max_history_items := 10000;
                    Config.sse_heartbeat_interval := 15000;
                    Config.stats_include_history := true |};
     world := fresh_world 3600 10000 c;
     broadcast := new_BroadcastHub |}.

(** What coroutines do to the hub: sessions subscribe, take a pending
    message from their queue and unsubscribe; the ingestion publishes. *)
Inductive hub_op : Type :=
| HubSubscribe
| HubUnsubscribe (queue : nat)
| HubPublish (message : StreamMessage)
| HubGet (queue : nat).

Definition apply_hub_op (op : hub_op) (hub : BroadcastHub) : BroadcastHub :=
  match op with
  | HubSubscribe => snd (subscribe hub)
  | HubUnsubscribe queue => snd (unsubscribe queue hub)
  | HubPublish message => snd (publish message hub)
  | HubGet queue => snd (on_queue queue (_ <- get_nowait ;; ret tt)%monad tt hub)
  end.

Definition run_hub (ops : list hub_op) (hub : BroadcastHub) : BroadcastHub :=
  fold_left (fun hub op => apply_hub_op op hub) ops hub.

(** Every listener queue has the capacity [subscribe] gave it and holds no
    more than that. *)
Definition within_bound (hub : BroadcastHub) : Prop :=
  forall h q, _listeners hub !! h = Some q -> maxsize q = 512 /\ qsize q <= 512.

(** A clock that starts at 1000 s and advances by 100 s at each reading. *)
Definition jumping : clock :=
  {| wall := fun n => Z.of_nat n * seconds 100 + seconds 1000; reads := 0 |}.

(** ** app/stations.py, app/status.py *)

Module Stations.

(** [list_recent_stations]: the cutoff is taken from the clock, the stations
    seen since are asked of the store, and their packets are returned.  The
    bounds of [within_seconds] (60 to 86400) are checked by the framework
    before the handler runs. *)
Definition list_recent_stations (within_seconds : Z) : M World (list PacketEvent) :=
  (now <- timed datetime_now ;;
   let cutoff := now - timedelta_seconds within_seconds in
   stations <- recent_stations cutoff ;;
   ret (map snd stations))%monad.

End Stations.
Import Stations.

Module Status.

Record StatsResponse : Type := {
  packets : nat;
  rssi_samples : nat;
  stations_tracked : nat;
  retention_seconds : Z;
  max_history_items : Z
}.

(** The [/stats] handler. *)
Definition stats : M App StatsResponse :=
  (counts <- in_store Storage.stats ;;
   settings <- gets settings ;;
   ret {| packets := Storage.packets_count counts;
          rssi_samples := Storage.rssi_samples counts;
          stations_tracked := Storage.stations_tracked counts;
          retention_seconds := Config.history_retention_seconds settings;
          max_history_items := Config.max_history_items settings |})%monad.

End Status.

(** ** Further vocabulary *)

(** The queue after a series of deliveries, oldest first. *)
Definition deliver_all (messages : list StreamMessage) (q : Queue) : Queue :=
  fold_left (fun q message => delivered message q) messages q.

(** The newest [n] elements of a list. *)
Definition newest {A} (n : nat) (l : list A) : list A :=
  drop (length l - n) l.

(** Every handle in use was allocated before [next_handle]. *)
Definition handles_allocated (hub : BroadcastHub) : Prop :=
  forall h, is_Some (_listeners hub !! h) -> (h < next_handle hub)%nat.

(** ** The generator of app/stream.py *)

Module Session.

(** [try: c finally: f]: [f] runs whether [c] returns or raises; an exception
    of [c] is raised again after it, unless [f] raises itself. *)
Definition try_finally {S A} (c : M S A) (f : M S unit) : M S A :=
  fun s =>
    match c s with
    | (Returned a, s') =>
        match f s' with
        | (Returned _, s'') => (Returned a, s'')
        | (Raised e, s'') => (Raised e, s'')
        end
    | (Raised e, s') =>
        match f s' with
        | (Returned _, s'') => (Raised e, s'')
        | (Raised e', s'') => (Raised e', s'')
        end
    end.

(** One turn of the [while True] loop, as its environment decides it: the
    client is found disconnected, or it is not and [others] are the requests
    served while [queue.get()] is awaited. *)
Inductive turn : Type :=
| Disconnected
| Waits (others : list request).

(** What [asyncio.wait_for(queue.get(), timeout)] gives once the wait is
    over: the oldest pending message, or nothing when the timeout fires on an
    empty queue. *)
Definition take_message (queue : nat) : M BroadcastHub (option StreamMessage) :=
  on_queue queue
    (try_except (message <- get_nowait ;; ret (Some message)) QueueEmpty (ret None))%monad
    None.

Definition heartbeat (now : Z) : StreamMessage :=
  {| event_type := EtHeartbeat; payload := Some (HeartbeatPayload now) |}.

(** The [while True] loop; the messages are those the generator yields, before
    [_format_message] turns each into text.  The loop ends when the client is
    found disconnected, or when the consumer closes the generator (the turns
    are over). *)
Fixpoint live (queue : nat) (turns : list turn) : M App (list StreamMessage) :=
  match turns with
  | [] => ret []
  | Disconnected :: _ => ret []
  | Waits others :: rest =>
      (modify (interleave others) ;;;
       got <- in_hub (take_message queue) ;;
       match got with
       | Some message =>
           more <- live queue rest ;;
           ret (message :: more)
       | None =>
           now <- in_store (timed datetime_now) ;;
           more <- live queue rest ;;
           ret (heartbeat now :: more)
       end)%monad
  end.

(** [event_publisher]: the replay, then the loop, and the unsubscription in
    the [finally] clause.  [consumed] is the number of messages the consumer
    takes before it lets the loop decide; a consumer that takes fewer than
    the replay has closes the generator there. *)
Definition event_publisher (initial_messages : list StreamMessage) (queue : nat)
    (consumed : nat) (turns : list turn) : M App (list StreamMessage) :=
  try_finally
    (if (consumed <? length initial_messages)%nat
     then ret (take consumed initial_messages)
     else (later_messages <- live queue turns ;;
           ret (initial_messages ++ later_messages))%monad)
    (in_hub (unsubscribe queue)).

End Session.
Import Session.

(** The inserts a request makes, in order. *)
Definition inserts_of (r : request) : list insert_op :=
  match r with
  | PostPackets packets => map InsertPacket packets
  | PostRssi samples => map InsertRssi samples
  end.

(** The next [k] readings of a clock. *)
Fixpoint readings (c : clock) (k : nat) : list Z :=
  match k with
  | O => []
  | S k' => wall c (reads c) :: readings (advance 1 c) k'
  end.

(** ** tools/aprs_passcode.py *)

Module Passcode.

(** A Python [str] of ASCII characters, as the list of its characters.  On
    characters outside ASCII the string methods below are not those of
    Python; the statements are about ASCII strings. *)
Definition pystr : Type := list Ascii.ascii.

Definition ord (ch : Ascii.ascii) : Z := Z.of_N (Ascii.N_of_ascii ch).

Definition is_ascii (s : pystr) : Prop := Forall (fun ch => ord ch < 128) s.

(** [str.isspace] on one ASCII character: tab to carriage return, the four
    separators 28 to 31, and the space. *)
Definition isspace (ch : Ascii.ascii) : bool :=
  let n := ord ch in
  ((9 <=? n) && (n <=? 13)) || ((28 <=? n) && (n <=? 31)) || (n =? 32).

Fixpoint lstrip (s : pystr) : pystr :=
  match s with
  | ch :: rest => if isspace ch then lstrip rest else s
  | [] => []
  end.

Fixpoint rstrip (s : pystr) : pystr :=
  match s with
  | [] => []
  | ch :: rest =>
      match rstrip rest with
      | [] => if isspace ch then [] else [ch]
      | kept => ch :: kept
      end
  end.

(** [str.strip()] *)
Definition strip (s : pystr) : pystr := rstrip (lstrip s).

Definition upper_char (ch : Ascii.ascii) : Ascii.ascii :=
  let n := ord ch in
  if (97 <=? n) && (n <=? 122) then Ascii.ascii_of_N (Z.to_N (n - 32)) else ch.

(** [str.upper()] *)
Definition upper (s : pystr) : pystr := map upper_char s.

(** [s.split("-", 1)[0]]: what comes before the first hyphen. *)
Fixpoint before_hyphen (s : pystr) : pystr :=
  match s with
  | [] => []
  | ch :: rest => if ord ch =? 45 then [] else ch :: before_hyphen rest
  end.

(** The character class [[A-Z0-9]]. *)
Definition is_upper_alnum (ch : Ascii.ascii) : bool :=
  let n := ord ch in
  ((65 <=? n) && (n <=? 90)) || ((48 <=? n) && (n <=? 57)).

(** The longest prefix of characters of the class, and what follows it. *)
Fixpoint span_alnum (s : pystr) : pystr * pystr :=
  match s with
  | ch :: rest =>
      if is_upper_alnum ch
      then let '(run, after) := span_alnum rest in (ch :: run, after)
      else ([], s)
  | [] => ([], [])
  end.

(** Where [$] matches: at the end, or before a final newline. *)
Definition at_dollar (s : pystr) : bool :=
  match s with
  | [] => true
  | [ch] => ord ch =? 10
  | _ => false
  end.

(** [CALLSIGN_PATTERN.match], for the pattern
    [^[A-Z0-9]{1,6}(?:-[0-9A-Z]{1,2})?$].  A run of the class is followed by
    a character outside it or by the end, so only the longest run can be
    followed by the hyphen or by [$]. *)
Definition callsign_pattern_match (s : pystr) : bool :=
  let '(run, after) := span_alnum s in
  ((1 <=? length run) && (length run <=? 6))%nat &&
  (at_dollar after ||
   match after with
   | ch :: ssid =>
       (ord ch =? 45) &&
       (let '(run2, after2) := span_alnum ssid in
        ((1 <=? length run2) && (length run2 <=? 2))%nat && at_dollar after2)
   | [] => false
   end).

(** The two [ValueError]s of [validate_callsign]. *)
Inductive value_error : Type :=
| CallsignEmpty
| CallsignInvalid (callsign : pystr).

Inductive result (A : Type) : Type :=
| Ok (a : A)
| ValueError (e : value_error).
Arguments Ok {A} a.
Arguments ValueError {A} e.

Definition normalize_callsign (callsign : pystr) : pystr :=
  let normalized := upper (strip callsign) in
  before_hyphen normalized.

Definition validate_callsign (callsign : pystr) : result pystr :=
  let normalized := upper (strip callsign) in
  match normalized with
  | [] => ValueError CallsignEmpty
  | _ =>
      if negb (callsign_pattern_match normalized)
      then ValueError (CallsignInvalid callsign)
      else Ok normalized
  end.

(** The loop [for i in range(0, len(base), 2)]: two characters a turn, the
    first into the high byte, the second, when there is one, into the low
    byte. *)
Fixpoint mix (code : Z) (base : pystr) : Z :=
  match base with
  | [] => code
  | [hi] => Z.lxor code (Z.shiftl (ord hi) 8)
  | hi :: lo :: rest =>
      mix (Z.lxor (Z.lxor code (Z.shiftl (ord hi) 8)) (ord lo)) rest
  end.

Definition generate_passcode (callsign : pystr) : result Z :=
  match validate_callsign callsign with
  | ValueError e => ValueError e
  | Ok _ =>
      let base := normalize_callsign callsign in
      Ok (Z.land (mix 0x73E2 base) 0x7FFF)
  end.

End Passcode.

(** A string that does not start, or does not end, with a blank. *)
Definition starts_clean (s : Passcode.pystr) : Prop :=
  match s with
  | [] => True
  | ch :: _ => Passcode.isspace ch = false
  end.

Definition ends_clean (s : Passcode.pystr) : Prop :=
  match last s with
  | None => True
  | Some ch => Passcode.isspace ch = false
  end.

Definition all_upper_alnum (s : Passcode.pystr) : Prop :=
  Forall (fun ch => Passcode.is_upper_alnum ch = true) s.

(** ** tools/replay_fixture.py: posting in batches *)

Module Replay.

Inductive replay_error : Type :=
| RangeStepZero        (* ValueError: range() arg 3 must not be zero *)
| HTTPStatusError.     (* response.raise_for_status() *)

(** The elements of [range(start, stop, step)] for a positive [step]; the
    fuel bounds their number. *)
Fixpoint range_up (fuel : nat) (start stop step : Z) : list Z :=
  match fuel with
  | O => []
  | S fuel' =>
      if start <? stop then start :: range_up fuel' (start + step) stop step else []
  end.

(** [range(0, len(events), batch_size)]: an error for a step of zero, nothing
    for a negative step (0 is not above the length), the multiples of the
    step below the length otherwise. *)
Definition batch_starts (size : nat) (batch_size : Z) : replay_error + list Z :=
  if batch_size =? 0 then inl RangeStepZero
  else if batch_size <? 0 then inr []
  else inr (range_up size 0 (Z.of_nat size) batch_size).

(** [events[start : start + batch_size]] for a start that is not negative and
    a positive batch size. *)
Definition slice {A} (events : list A) (start batch_size : Z) : list A :=
  take (Z.to_nat batch_size) (drop (Z.to_nat start) events).

(** The loop of [post_events]: each chunk is posted, [sent] is what has been
    posted so far, and a refused post ends the loop with the error of
    [raise_for_status].  [post k chunk] tells whether the server accepts
    [chunk] as the request number [k]. *)
Fixpoint post_chunks {A} (post : nat -> list A -> bool) (events : list A)
    (batch_size : Z) (starts : list Z) (sent : list (list A))
  : (replay_error + unit) * list (list A) :=
  match starts with
  | [] => (inr tt, sent)
  | start :: rest =>
      let chunk := slice events start batch_size in
      let sent' := sent ++ [chunk] in
      if post (length sent) chunk
      then post_chunks post events batch_size rest sent'
      else (inl HTTPStatusError, sent')
  end.

Definition post_events {A} (post : nat -> list A -> bool) (events : list A)
    (batch_size : Z) : (replay_error + unit) * list (list A) :=
  match batch_starts (length events) batch_size with
  | inl e => (inl e, [])
  | inr starts => post_chunks post events batch_size starts []
  end.

(** [post_rssi]: as [post_events], after the early return on no samples. *)
Definition post_rssi {A} (post : nat -> list A -> bool) (samples : list A)
    (batch_size : Z) : (replay_error + unit) * list (list A) :=
  match samples with
  | [] => (inr tt, [])
  | _ => post_events post samples batch_size
  end.

End Replay.

(** ** tools/rtl_power_monitor.py: forwarding samples in batches *)

Module Monitor.
Section Main.
Context {A : Type}.

(** [post_samples k batch] tells whether the request number [k] succeeds;
    when it does not, [post_samples] raises an exception that [main] logs. *)
Variable post_samples : nat -> list A -> bool.
Variable batch_size : Z.

(** The list [batch] of [main] and the requests made so far, each with its
    outcome. *)
Record posting : Type := Posting {
  batch : list A;
  requests : list (list A * bool)
}.

(** [try: post_samples(client, post_url, batch) except Exception: ...] *)
Definition try_post (st : posting) : posting :=
  {| batch := batch st;
     requests := requests st
                   ++ [(batch st, post_samples (length (requests st)) (batch st))] |}.

(** [batch.clear()] *)
Definition clear (st : posting) : posting :=
  {| batch := []; requests := requests st |}.

(** The body of [for sample in samples], with a client and a post URL:
    append, and post and clear once the batch has [max(1, batch_size)]
    samples. *)
Definition forward (st : posting) (sample : A) : posting :=
  let st := {| batch := batch st ++ [sample]; requests := requests st |} in
  if Z.max 1 batch_size <=? Z.of_nat (length (batch st))
  then clear (try_post st)
  else st.

(** One pass of the [while] loop: the samples parsed from one run of
    [rtl_power] are forwarded in order. *)
Definition measurement (st : posting) (samples : list A) : posting :=
  fold_left forward samples st.

(** [main] with a post URL and a [--count]: [runs] holds the samples parsed
    from each of the [count] runs of [rtl_power]; after the loop the
    shutdown flush posts what is left in the batch.  The exit code is 0. *)
Definition main (runs : list (list A)) : Z * posting :=
  let st := fold_left measurement runs {| batch := []; requests := [] |} in
  (0, match batch st with [] => st | _ :: _ => try_post st end).

(** The size at which a batch is posted. *)
Definition full_batch : nat := Z.to_nat (Z.max 1 batch_size).

(** What the loop of [main] keeps true: the samples seen so far are the
    requests made, in order, followed by the batch; the batch is not full,
    every request is; each request carries its own outcome. *)
Definition forwarding_invariant (seen : list A) (st : posting) : Prop :=
  concat (fst <$> requests st) ++ batch st = seen /\
  (length (batch st) < full_batch)%nat /\
  Forall (fun r => length (fst r) = full_batch) (requests st) /\
  (forall i r, requests st !! i = Some r -> snd r = post_samples i (fst r)).

End Main.
End Monitor.

(** ** tools/direwolf_csv_tail.py: the audio level of a log row *)

Module CsvTail.
Import Passcode.

(** The class [\d] on an ASCII character. *)
Definition is_digit (ch : Ascii.ascii) : bool := (48 <=? ord ch) && (ord ch <=? 57).

(** [\d*], greedy: the longest run of digits, and what follows it. *)
Fixpoint span_digits (s : pystr) : pystr * pystr :=
  match s with
  | ch :: rest =>
      if is_digit ch
      then let '(run, after) := span_digits rest in (ch :: run, after)
      else ([], s)
  | [] => ([], [])
  end.

(** [-?\d+]: the text of the group and what follows it.  Whatever follows
    the group in [LEVEL_RE] is no digit, so only the longest run of digits
    can match; and without the hyphen the digits cannot start at it. *)
Definition match_number (s : pystr) : option (pystr * pystr) :=
  let '(sign, digits) :=
    match s with
    | ch :: rest => if Ascii.eqb ch "-"%char then ([ch], rest) else ([], s)
    | [] => ([], s)
    end in
  match span_digits digits with
  | ([], _) => None
  | (run, after) => Some (sign ++ run, after)
  end.

(** [\s*$]: blanks up to the end.  [$] also matches before a final newline,
    which is a blank itself. *)
Definition match_end (s : pystr) : bool :=
  match lstrip s with
  | [] => true
  | _ :: _ => false
  end.

(** [\((?P<mark>-?\d+)\s*/\s*(?P<space>-?\d+)\)]: the two groups and what
    follows the closing parenthesis. *)
Definition match_mark_space (s : pystr) : option (pystr * pystr * pystr) :=
  match s with
  | ch :: s1 =>
      if Ascii.eqb ch "("%char then
        match match_number s1 with
        | Some (mark, s2) =>
            match lstrip s2 with
            | ch2 :: s3 =>
                if Ascii.eqb ch2 "/"%char then
                  match match_number (lstrip s3) with
                  | Some (space, s4) =>
                      match s4 with
                      | ch4 :: after =>
                          if Ascii.eqb ch4 ")"%char then Some (mark, space, after) else None
                      | [] => None
                      end
                  | None => None
                  end
                else None
            | [] => None
            end
        | None => None
        end
      else None
  | [] => None
  end.

(** The groups of a match of [LEVEL_RE]. *)
Record level_match : Type := LevelMatch {
  rms_group : pystr;
  mark_group : option pystr;
  space_group : option pystr
}.

(** [LEVEL_RE.match], for the pattern
    [^\s*(?P<rms>-?\d+)(?:\((?P<mark>-?\d+)\s*/\s*(?P<space>-?\d+)\))?\s*$]:
    the optional part is tried first, and left out when the match cannot be
    completed with it. *)
Definition LEVEL_RE_match (level : pystr) : option level_match :=
  match match_number (lstrip level) with
  | None => None
  | Some (rms, after) =>
      let without :=
        if match_end after
        then Some {| rms_group := rms; mark_group := None; space_group := None |}
        else None in
      match match_mark_space after with
      | Some (mark, space, after') =>
          if match_end after'
          then Some {| rms_group := rms; mark_group := Some mark; space_group := Some space |}
          else without
      | None => without
      end
  end.

(** The default of [sys.int_max_str_digits]: [int] raises [ValueError] on a
    decimal text of more digits. *)
Definition int_max_str_digits : nat := 4300.

Definition digit_value (ch : Ascii.ascii) : Z := ord ch - 48.

Definition int_of_digits (digits : pystr) : Z :=
  fold_left (fun acc ch => 10 * acc + digit_value ch) digits 0.

(** [int(text)] on a text that [-?\d+] has matched; [None] is the
    [ValueError]. *)
Definition int (text : pystr) : option Z :=
  let '(negative, digits) :=
    match text with
    | ch :: rest => if Ascii.eqb ch "-"%char then (true, rest) else (false, text)
    | [] => (false, text)
    end in
  if (int_max_str_digits <? length digits)%nat then None
  else Some (if negative then - int_of_digits digits else int_of_digits digits).

(** A value of the result: the integer, or the text when [int] raised. *)
Inductive level_value : Type :=
| IntValue (z : Z)
| StrValue (text : pystr).

(** [try: result[key] = int(text) except ValueError: result[key] = text] *)
Definition int_or_text (text : pystr) : level_value :=
  match int text with
  | Some z => IntValue z
  | None => StrValue text
  end.

(** The dictionary that [parse_audio_level] returns: the key [raw], and the
    keys [rms], [mark] and [space] when they are set. *)
Record audio_level : Type := AudioLevel {
  raw : pystr;
  rms : option level_value;
  mark : option level_value;
  space : option level_value
}.

Definition parse_audio_level (level : option pystr) : option audio_level :=
  match level with
  | None => None
  | Some [] => None
  | Some level =>
      match LEVEL_RE_match level with
      | None => Some {| raw := strip level; rms := None; mark := None; space := None |}
      | Some m =>
          Some {| raw := strip level;
                  rms := Some (int_or_text (rms_group m));
                  mark := int_or_text <$> mark_group m;
                  space := int_or_text <$> space_group m |}
      end
  end.

End CsvTail.

(** A string of blanks. *)
Definition blank (s : Passcode.pystr) : Prop :=
  Forall (fun ch => Passcode.isspace ch = true) s.

(** A text of the form [-?\d+]. *)
Definition numeral (text : Passcode.pystr) : Prop :=
  exists sign digits,
    text = sign ++ digits /\ (sign = [] \/ sign = ["-"%char]) /\
    digits <> [] /\ Forall (fun ch => CsvTail.is_digit ch = true) digits.

(** A text, written as a string. *)
Definition text_of (s : string) : Passcode.pystr := String.list_ascii_of_string s.

(** No digit at the head: where a greedy run of digits stops. *)
Definition stops_digits (s : Passcode.pystr) : Prop :=
  match s with
  | [] => True
  | ch :: _ => CsvTail.is_digit ch = false
  end.

(** The integer that a text of the form [-?\d+] denotes. *)
Definition numeral_value (text : Passcode.pystr) : Z :=
  match text with
  | ch :: digits =>
      if Ascii.eqb ch "-"%char then - CsvTail.int_of_digits digits
      else CsvTail.int_of_digits text
  | [] => 0
  end.

(** The text that Direwolf logs as the level of a packet: [rms(mark/space)],
    or [rms] alone, blanks allowed around it and around the slash.
    [level_shape level core r ms]: [level] is [core] between blanks, and
    [core] is made of the numeral [r] and, when [ms] is set, of its two
    numerals. *)
Inductive level_shape : Passcode.pystr -> Passcode.pystr -> Passcode.pystr ->
    option (Passcode.pystr * Passcode.pystr) -> Prop :=
| shape_rms w0 r w3 :
    blank w0 -> numeral r -> blank w3 ->
    level_shape (w0 ++ r ++ w3) r r None
| shape_rms_mark_space w0 r m w1 w2 s w3 :
    blank w0 -> numeral r -> numeral m -> blank w1 -> blank w2 -> numeral s -> blank w3 ->
    level_shape
      (w0 ++ (r ++ "("%char :: m ++ w1 ++ "/"%char :: w2 ++ s ++ [")"%char]) ++ w3)
      (r ++ "("%char :: m ++ w1 ++ "/"%char :: w2 ++ s ++ [")"%char])
      r (Some (m, s)).

(** * The same code within Python's datetime range

    A [datetime] lies between [datetime.min] and [datetime.max]; the
    operations that would leave this range raise.  [Models] and [Storage]
    above compute with instants without bound; the module [Ranged] embeds the
    same functions with the range, and keeps what the store holds when one of
    them raises. *)

Module Ranged.

(** [datetime.min] and [datetime.max], read as UTC, in microseconds since the
    epoch: 0001-01-01T00:00:00 and 9999-12-31T23:59:59.999999. *)
Definition datetime_min : Z := -62135596800000000.
Definition datetime_max : Z := 253402300799999999.

Definition in_range (us : Z) : bool := (datetime_min <=? us) && (us <=? datetime_max).

(** What [datetime.fromtimestamp(seconds, tz)] raises on seconds outside the
    range, with a 64-bit [time_t] and the C library of Linux: [ValueError]
    while [gmtime] still gives a year, [OSError] when [gmtime] fails,
    [OverflowError] when the seconds do not fit a [time_t]. *)
Definition range_error (seconds : Z) : exn :=
  if (-67768040609740800 <=? seconds) && (seconds <=? 67768036191676799) then ValueError
  else if (- 2 ^ 63 <=? seconds) && (seconds <? 2 ^ 63) then OSError
  else OverflowError.

(** [datetime.fromtimestamp(unix_time, tz=timezone.utc)] *)
Definition fromtimestamp (unix_time : Z) : outcome Z :=
  let us := unix_time * 1000000 in
  if in_range us then Returned us else Raised (range_error unix_time).

(** [datetime.now(timezone.utc)]: the reading of the wall clock, converted
    as [fromtimestamp] converts it. *)
Definition datetime_now : M clock Z :=
  fun c =>
    let us := wall c (reads c) in
    (if in_range us then Returned us else Raised (range_error (us / 1000000)),
     {| wall := wall c; reads := S (reads c) |}).

(** [_ensure_utc]: [replace] on a naive value keeps its fields, which are
    those of a [datetime] and so within the range; [astimezone] on an aware
    value subtracts its offset and raises [OverflowError] when the result is
    outside the range. *)
Definition _ensure_utc (value : datetime) : outcome Z :=
  match tzinfo value with
  | None => Returned (fields_us value)
  | Some utcoffset =>
      let utc := fields_us value - utcoffset in
      if in_range utc then Returned utc else Raised OverflowError
  end.

(** [value - delta] for a [datetime] and a [timedelta]. *)
Definition datetime_sub (value delta : Z) : outcome Z :=
  if in_range (value - delta) then Returned (value - delta) else Raised OverflowError.

(** [timedelta(seconds=n)]: the days of the normalised value must not exceed
    999999999 in magnitude. *)
Definition timedelta_seconds (n : Z) : outcome Z :=
  let days := n / 86400 in
  if (-999999999 <=? days) && (days <=? 999999999) then Returned (n * 1000000)
  else Raised OverflowError.

(** An outcome already computed, as a computation. *)
Definition lift {S A} (r : outcome A) : M S A := fun s => (r, s).

(** Objects with an [effective_datetime] property. *)
Class Dated (T : Type) : Type := {
  (** the timestamp the object carries, if any, converted to UTC *)
  stored_datetime : T -> option (outcome Z);
  effective_datetime : T -> M clock Z
}.

Definition packet_stored_datetime (self : PacketEvent) : option (outcome Z) :=
  match timestamp self with
  | Some ts => Some (_ensure_utc ts)
  | None =>
      match unix_time self with
      | Some u => Some (fromtimestamp u)
      | None => None
      end
  end.

(** [PacketEvent.effective_datetime] *)
Definition packet_effective_datetime (self : PacketEvent) : M clock Z :=
  match timestamp self with
  | Some ts => lift (_ensure_utc ts)
  | None =>
      match unix_time self with
      | Some u => lift (fromtimestamp u)
      | None => datetime_now
      end
  end.

Definition rssi_stored_datetime (self : RssiSample) : option (outcome Z) :=
  match rssi_timestamp self with
  | Some ts => Some (_ensure_utc ts)
  | None => None
  end.

(** [RssiSample.effective_datetime] *)
Definition rssi_effective_datetime (self : RssiSample) : M clock Z :=
  match rssi_timestamp self with
  | Some ts => lift (_ensure_utc ts)
  | None => datetime_now
  end.

#[global] Instance packet_dated : Dated PacketEvent :=
  {| stored_datetime := packet_stored_datetime;
     effective_datetime := packet_effective_datetime |}.

#[global] Instance rssi_dated : Dated RssiSample :=
  {| stored_datetime := rssi_stored_datetime;
     effective_datetime := rssi_effective_datetime |}.

(** *** InMemoryStore *)

(** [InMemoryStore.__init__]: no argument is checked; [timedelta] raises on a
    retention it cannot hold. *)
Definition new_InMemoryStore (retention_seconds max_items : Z) : outcome InMemoryStore :=
  match timedelta_seconds retention_seconds with
  | Raised e => Raised e
  | Returned retention =>
      Returned {| _packets := [];
                  _rssi := [];
                  _last_seen_by_station := [];
                  _retention := retention;
                  _max_items := max_items |}
  end.

(** A computation on the clock, run on the clock of the world. *)
Definition in_clock {A} (c : M clock A) : M World A :=
  fun w =>
    let '(r, k) := c (clk w) in
    (r, {| self := self w; clk := k |}).

(** [_now] *)
Definition _now : M clock Z := datetime_now.

(** [_is_stale] *)
Definition _is_stale {T} `{Dated T} (item : T) (cutoff : Z) : M clock bool :=
  (ts <- effective_datetime item ;; ret (ts <? cutoff))%monad.

(** [while collection and self._is_stale(collection[0], cutoff):
       collection.popleft()]; when the test raises, the items popped so far
    are gone and the item tested is still at the head. *)
Fixpoint drop_stale {T} `{Dated T} (cutoff : Z) (collection : list T) (c : clock)
  : outcome unit * (list T * clock) :=
  match collection with
  | [] => (Returned tt, ([], c))
  | item :: rest =>
      match _is_stale item cutoff c with
      | (Returned true, c') => drop_stale cutoff rest c'
      | (Returned false, c') => (Returned tt, (item :: rest, c'))
      | (Raised e, c') => (Raised e, (item :: rest, c'))
      end
  end.

Definition age_pass {T} `{Dated T} (collection : deque_ref T) (cutoff : Z)
  : M World unit :=
  fun w =>
    let '(r, (kept, k)) := drop_stale cutoff (deref collection (self w)) (clk w) in
    (r, {| self := assign collection kept (self w); clk := k |}).

(** The list comprehension of [_prune_last_seen]. *)
Fixpoint stale_callsigns (cutoff : Z) (items : list (string * PacketEvent))
  : M clock (list string) :=
  match items with
  | [] => ret []
  | (callsign, packet) :: rest =>
      (ts <- effective_datetime packet ;;
       more <- stale_callsigns cutoff rest ;;
       ret (if ts <? cutoff then callsign :: more else more))%monad
  end.

(** [_prune_last_seen]: nothing is popped when the comprehension raises. *)
Definition _prune_last_seen (cutoff : Z) : M World unit :=
  (items <- gets (fun w => _last_seen_by_station (self w)) ;;
   stale <- in_clock (stale_callsigns cutoff items) ;;
   modify (fun w =>
     {| self := set_last_seen (pop_all stale (_last_seen_by_station (self w))) (self w);
        clk := clk w |}))%monad.

(** [_trim]; the capacity loop reads no datetime and is the one of
    [Storage]. *)
Definition _trim {T} `{Dated T} (collection : deque_ref T) (prune_last_seen : bool)
  : M World unit :=
  (now <- in_clock _now ;;
   retention <- gets (fun w => _retention (self w)) ;;
   cutoff <- lift (datetime_sub now retention) ;;
   age_pass collection cutoff ;;;
   capacity_pass collection ;;;
   if prune_last_seen then _prune_last_seen cutoff else ret tt)%monad.

Definition add_packet (packet : PacketEvent) : M World unit :=
  (modify (fun w =>
     {| self := assign packets_ref (_packets (self w) ++ [packet]) (self w);
        clk := clk w |}) ;;;
   match truthy (source_callsign packet) with
   | Some callsign =>
       modify (fun w =>
         {| self := set_last_seen
                      (dict_setitem callsign packet (_last_seen_by_station (self w)))
                      (self w);
            clk := clk w |})
   | None => ret tt
   end ;;;
   _trim packets_ref true)%monad.

Definition add_rssi (sample : RssiSample) : M World unit :=
  (modify (fun w =>
     {| self := assign rssi_ref (_rssi (self w) ++ [sample]) (self w);
        clk := clk w |}) ;;;
   _trim rssi_ref false)%monad.

(** The two [for] loops of [snapshot_stream_events]. *)
Fixpoint make_entries {T} `{Dated T} (wrap : T -> StreamMessage) (items : list T)
  : M clock (list (Z * StreamMessage)) :=
  match items with
  | [] => ret []
  | item :: rest =>
      (ts <- effective_datetime item ;;
       more <- make_entries wrap rest ;;
       ret ((ts, wrap item) :: more))%monad
  end.

Definition snapshot_entries : M World (list (Z * StreamMessage)) :=
  (packets <- gets (fun w => _packets (self w)) ;;
   from_packets <- in_clock (make_entries packet_message packets) ;;
   samples <- gets (fun w => _rssi (self w)) ;;
   from_rssi <- in_clock (make_entries rssi_message samples) ;;
   ret (from_packets ++ from_rssi))%monad.

Definition snapshot_stream_events : M World (list StreamMessage) :=
  (entries <- snapshot_entries ;;
   ret (map snd (sort_by_key entries)))%monad.

(** The dict comprehension of [recent_stations]. *)
Fixpoint stations_since (since : Z) (items : list (string * PacketEvent))
  : M clock (dict PacketEvent) :=
  match items with
  | [] => ret []
  | (callsign, packet) :: rest =>
      (ts <- effective_datetime packet ;;
       more <- stations_since since rest ;;
       ret (if since <=? ts then (callsign, packet) :: more else more))%monad
  end.

Definition recent_stations (since : Z) : M World (dict PacketEvent) :=
  (items <- gets (fun w => _last_seen_by_station (self w)) ;;
   in_clock (stations_since since items))%monad.

(** *** app/main.py, app/ingest.py, app/stations.py, app/stream.py *)

(** [create_app]: the settings come from [get_settings], validated when they
    were built, before the store is constructed. *)
Definition create_app (env : Config.environment) (c : clock)
  : M (option Config.AppSettings) App :=
  (settings <- Config.get_settings env ;;
   store <- lift (new_InMemoryStore (Config.history_retention_seconds settings)
                                    (Config.max_history_items settings)) ;;
   ret {| settings := settings;
          world := {| self := store; clk := c |};
          broadcast := new_BroadcastHub |})%monad.

Fixpoint ingest_packets_from (accepted : nat) (packets : list PacketEvent) : M App nat :=
  match packets with
  | [] => ret accepted
  | packet :: rest =>
      (in_store (add_packet packet) ;;;
       in_hub (publish (packet_message packet)) ;;;
       ingest_packets_from (S accepted) rest)%monad
  end.

Definition ingest_packets (packets : list PacketEvent) : M App nat :=
  ingest_packets_from 0 packets.

Fixpoint ingest_rssi_from (accepted : nat) (samples : list RssiSample) : M App nat :=
  match samples with
  | [] => ret accepted
  | sample :: rest =>
      (in_store (add_rssi sample) ;;;
       in_hub (publish (rssi_message sample)) ;;;
       ingest_rssi_from (S accepted) rest)%monad
  end.

Definition ingest_rssi (samples : list RssiSample) : M App nat :=
  ingest_rssi_from 0 samples.

Definition handle (r : request) : M App nat :=
  match r with
  | PostPackets packets => ingest_packets packets
  | PostRssi samples => ingest_rssi samples
  end.

(** Requests served one after the other: their effects on the application
    state stay, their responses go to their own callers. *)
Definition serve (requests : list request) (app : App) : App :=
  fold_left (fun app r => snd (handle r app)) requests app.

(** [list_recent_stations]; the bounds of [within_seconds] (60 to 86400) are
    checked by the framework before the handler runs. *)
Definition list_recent_stations (within_seconds : Z) : M World (list PacketEvent) :=
  (now <- in_clock datetime_now ;;
   delta <- lift (timedelta_seconds within_seconds) ;;
   cutoff <- lift (datetime_sub now delta) ;;
   stations <- recent_stations cutoff ;;
   ret (map snd stations))%monad.

(** The start of [stream_updates], up to the creation of the generator: the
    snapshot is awaited first, the subscription second.  Neither [await]
    suspends the coroutine: the locks are free whenever a coroutine runs,
    since no critical section of the store or of the hub contains an
    [await].  No other request is served between the two steps. *)
Definition stream_updates_start : M App (list StreamMessage * nat) :=
  (initial_messages <- in_store snapshot_stream_events ;;
   queue <- in_hub subscribe ;;
   ret (initial_messages, queue))%monad.

(** *** Vocabulary *)

Definition apply_insert (op : insert_op) : M World unit :=
  match op with
  | InsertPacket packet => add_packet packet
  | InsertRssi sample => add_rssi sample
  end.

(** The state after a sequence of inserts, whatever each of them returned or
    raised. *)
Definition run_inserts (ops : list insert_op) (w : World) : World :=
  fold_left (fun w op => snd (apply_insert op w)) ops w.

(** The stored timestamp of the object, if it has one, converts to UTC. *)
Definition representable {T} `{Dated T} (x : T) : Prop :=
  match stored_datetime x with
  | Some (Raised _) => False
  | _ => True
  end.

Definition representable_op (op : insert_op) : Prop :=
  match op with
  | InsertPacket packet => representable packet
  | InsertRssi sample => representable sample
  end.

Definition representable_request (r : request) : Prop :=
  match r with
  | PostPackets packets => Forall representable packets
  | PostRssi samples => Forall representable samples
  end.

(** The object carries a timestamp, and every evaluation of its effective
    datetime returns it, a value not below the cutoff. *)
Definition stamped_from {T} `{Dated T} (cutoff : Z) (x : T) : Prop :=
  exists ts,
    stored_datetime x = Some (Returned ts) /\
    (forall c, effective_datetime x c = (Returned ts, c)) /\
    cutoff <= ts.

(** Every item carries a timestamp that converts to UTC, and these timestamps
    never decrease along the list. *)
Definition in_timestamp_order {T} `{Dated T} (items : list T) : Prop :=
  exists stamps : list Z,
    map stored_datetime items = map (fun ts => Some (Returned ts)) stamps /\
    Sorted Z.le stamps.

Definition arrive_in_order (op : insert_op) (ops : list insert_op) : Prop :=
  match op with
  | InsertPacket _ => in_timestamp_order (packets_of ops)
  | InsertRssi _ => in_timestamp_order (samples_of ops)
  end.

(** The history an insert appends to. *)
Definition affected_fresh (cutoff : Z) (op : insert_op) (w : World) : Prop :=
  match op with
  | InsertPacket _ => Forall (stamped_from cutoff) (_packets (self w))
  | InsertRssi _ => Forall (stamped_from cutoff) (_rssi (self w))
  end.

(** Every reading of the clock is a datetime, and so is every cutoff computed
    from a reading with the retention. *)
Definition clock_within_range (c : clock) (retention : Z) : Prop :=
  forall n, in_range (wall c n) = true /\ in_range (wall c n - retention) = true.

(** Every datetime that the operations of the store evaluate in this world
    is within the range: the readings of the clock, the cutoffs, and the
    timestamps of the events the store holds. *)
Record within_range (w : World) : Prop := {
  clock_ok : clock_within_range (clk w) (_retention (self w));
  packets_ok : Forall representable (_packets (self w));
  rssi_ok : Forall representable (_rssi (self w));
  index_ok : Forall representable (map snd (_last_seen_by_station (self w)))
}.

End Ranged.

(** A clock that starts at [start], advances by one microsecond at each of
    its first million readings and stands still afterwards. *)
Definition settling (start : Z) : clock :=
  {| wall := fun n => Z.min (Z.of_nat n) 1000000 + start; reads := 0 |}.


(** [PacketEvent(source_callsign=callsign, unix_time=u)] *)
Definition packet_epoch (callsign : string) (u : Z) : PacketEvent :=
  {| message_type := MtPacket;
     timestamp := None; unix_time := Some u; channel := None;
     source_callsign := Some callsign; destination_callsign := None;
     path := None; comment := None; aux := [] |}.

(** The first second of the year 10000. *)
Definition year_10000 : Z := 253402300800.

(** A computation that cannot raise, as one that can. *)
Definition returned {A S} (p : A * S) : outcome A * S := (Returned (fst p), snd p).

(** Every reading of the clock is a datetime. *)
Definition readings_in_range (c : clock) : Prop :=
  forall n, Ranged.in_range (wall c n) = true.

(** How the two embeddings of an [effective_datetime] property relate: with
    the range, a stored timestamp is answered as converted, without reading
    the clock, and the clock is read when there is none; a timestamp that
    converts is the one of the embedding without range. *)
Class Conforms (T : Type) `{Timestamped T} `{Ranged.Dated T} : Prop := {
  ranged_effective_datetime_spec :
    forall (x : T) (c : clock),
      Ranged.effective_datetime x c =
      match Ranged.stored_datetime x with
      | Some r => (r, c)
      | None => Ranged.datetime_now c
      end;
  ranged_stored_returned :
    forall (x : T) (ts : Z),
      Ranged.stored_datetime x = Some (Returned ts) -> stored_datetime x = Some ts;
  ranged_stored_none :
    forall x : T, Ranged.stored_datetime x = None -> stored_datetime x = None
}.

(** The values that successive evaluations of [effective_datetime] return on
    the items of a list, as long as none raises. *)
Fixpoint ranged_observe_all {T} `{Ranged.Dated T} (items : list T) : M clock (list Z) :=
  match items with
  | [] => ret []
  | item :: rest =>
      (ts <- Ranged.effective_datetime item ;;
       more <- ranged_observe_all rest ;;
       ret (ts :: more))%monad
  end.

(** The cache of [get_settings] holds nothing, or settings that
    [AppSettings()] has returned. *)
Definition filled_by_get_settings (cache : option Config.AppSettings) : Prop :=
  match cache with
  | None => True
  | Some settings => exists env, Config.new_AppSettings env = Returned settings
  end.

(** ** Basic facts *)

#[global] Instance packet_lawful : Lawful PacketEvent.
Proof.
  intros x c. cbn. unfold packet_effective_datetime, packet_stored_datetime.
  destruct (timestamp x); [reflexivity|]. destruct (unix_time x); reflexivity.
Qed.

#[global] Instance rssi_lawful : Lawful RssiSample.
Proof.
  intros x c. cbn. unfold rssi_effective_datetime, rssi_stored_datetime.
  destruct (rssi_timestamp x); reflexivity.
Qed.

#[global] Instance packets_ref_ok : RefOk packets_ref.
Proof. split; intros; try reflexivity. destruct s; reflexivity. Qed.

#[global] Instance rssi_ref_ok : RefOk rssi_ref.
Proof. split; intros; try reflexivity. destruct s; reflexivity. Qed.

Lemma stale_prefix_le cutoff observed :
  (stale_prefix cutoff observed <= length observed)%nat.
Proof.
  induction observed as [|ts rest IH]; simpl; [lia|].
  destruct (ts <? cutoff); simpl; lia.
Qed.

Lemma stale_prefix_below cutoff observed i ts :
  (i < stale_prefix cutoff observed)%nat -> observed !! i = Some ts -> ts < cutoff.
Proof.
  revert i. induction observed as [|z rest IH]; intros i Hi Hl; simpl in *; [lia|].
  destruct (z <? cutoff) eqn:E; [|lia].
  destruct i as [|i]; simpl in Hl.
  - inversion Hl; subst. now apply Z.ltb_lt.
  - apply (IH i); [lia|assumption].
Qed.


Section Loops.
Context {T : Type} `{Lawful T}.

Lemma observe_all_length (items : list T) c :
  length (fst (observe_all items c)) = length items.
Proof.
  revert c. induction items as [|x rest IH]; intros c; simpl; [reflexivity|].
  destruct (effective_datetime x c) as [ts c1].
  specialize (IH c1). destruct (observe_all rest c1) as [more c2].
  simpl in *. now rewrite IH.
Qed.

(** The age loop removes exactly the leading items observed below the
    cutoff. *)
Lemma drop_stale_drop cutoff (items : list T) c :
  fst (drop_stale cutoff items c) =
  drop (stale_prefix cutoff (fst (observe_all items c))) items.
Proof.
  revert c. induction items as [|x rest IH]; intros c; simpl; [reflexivity|].
  unfold _is_stale. destruct (effective_datetime x c) as [ts c1].
  specialize (IH c1). destruct (observe_all rest c1) as [more c2]. simpl in *.
  destruct (ts <? cutoff); simpl; [exact IH|reflexivity].
Qed.

Lemma later_refl c : later c c.
Proof. split; [reflexivity|lia]. Qed.

Lemma later_trans c1 c2 c3 : later c1 c2 -> later c2 c3 -> later c1 c3.
Proof. intros [W1 R1] [W2 R2]. split; [congruence|lia]. Qed.

Lemma later_now c : later c (snd (datetime_now c)).
Proof. split; simpl; [reflexivity|lia]. Qed.

Lemma effective_datetime_later (x : T) c : later c (snd (effective_datetime x c)).
Proof.
  rewrite effective_datetime_spec. destruct (stored_datetime x); simpl.
  - apply later_refl.
  - apply later_now.
Qed.

Lemma effective_datetime_stored (x : T) ts c :
  stored_datetime x = Some ts -> effective_datetime x c = (ts, c).
Proof. intros E. now rewrite effective_datetime_spec, E. Qed.

Lemma effective_datetime_unstored (x : T) c :
  stored_datetime x = None ->
  effective_datetime x c = (wall c (reads c), advance 1 c).
Proof.
  intros E. rewrite effective_datetime_spec, E. unfold datetime_now, advance.
  do 2 f_equal. lia.
Qed.

Lemma drop_stale_later cutoff (items : list T) c :
  later c (snd (drop_stale cutoff items c)).
Proof.
  revert c. induction items as [|x rest IH]; intros c; simpl; [apply later_refl|].
  unfold _is_stale. pose proof (effective_datetime_later x c) as Hx.
  destruct (effective_datetime x c) as [ts c1]. simpl in Hx.
  destruct (ts <? cutoff); simpl; [|assumption].
  eapply later_trans; [exact Hx|apply IH].
Qed.

Lemma observe_all_later (items : list T) c : later c (snd (observe_all items c)).
Proof.
  revert c. induction items as [|x rest IH]; intros c; simpl; [apply later_refl|].
  pose proof (effective_datetime_later x c) as Hx.
  destruct (effective_datetime x c) as [ts c1]. simpl in Hx.
  specialize (IH c1). destruct (observe_all rest c1) as [more c2]. simpl in *.
  eapply later_trans; eassumption.
Qed.


(** Items with stored timestamps are observed at those timestamps. *)
Lemma observe_all_stored (items : list T) stamps c :
  map stored_datetime items = map Some stamps ->
  observe_all items c = (stamps, c).
Proof.
  revert stamps c. induction items as [|x rest IH]; intros [|z zs] c E;
    simpl in *; try discriminate; [reflexivity|].
  inversion E as [[Ex Er]]. rewrite (effective_datetime_stored _ _ _ Ex).
  now rewrite (IH _ _ Er).
Qed.

End Loops.

Lemma drop_excess_ok {T} max_items (items : list T) :
  0 <= max_items ->
  drop_excess max_items items =
  (Returned tt, drop (excess max_items (length items)) items).
Proof.
  intros Hm. unfold excess. induction items as [|x rest IH].
  - cbn [drop_excess length]. change (Z.of_nat 0) with 0.
    destruct (Z.ltb_spec max_items 0); [lia|]. now rewrite drop_nil.
  - cbn [drop_excess]. destruct (max_items <? Z.of_nat (length (x :: rest))) eqn:E.
    + rewrite IH. apply Z.ltb_lt in E. f_equal.
      replace (Z.to_nat (Z.of_nat (length (x :: rest)) - max_items))
        with (S (Z.to_nat (Z.of_nat (length rest) - max_items)))
        by (simpl length in *; lia).
      reflexivity.
    + apply Z.ltb_ge in E.
      replace (Z.to_nat (Z.of_nat (length (x :: rest)) - max_items)) with O by lia.
      reflexivity.
Qed.

Lemma drop_excess_negative {T} max_items (items : list T) :
  max_items < 0 -> drop_excess max_items items = (Raised IndexError, []).
Proof.
  intros Hm. induction items as [|x rest IH]; cbn [drop_excess].
  - destruct (max_items <? Z.of_nat (length (@nil T))) eqn:E; [reflexivity|].
    apply Z.ltb_ge in E. simpl in E. lia.
  - destruct (max_items <? Z.of_nat (length (x :: rest))) eqn:E; [exact IH|].
    apply Z.ltb_ge in E. lia.
Qed.

Lemma drop_excess_suffix {T} max_items (items : list T) :
  snd (drop_excess max_items items) `suffix_of` items.
Proof.
  induction items as [|x rest IH]; cbn [drop_excess].
  - destruct (max_items <? _); simpl; reflexivity.
  - destruct (max_items <? Z.of_nat (length (x :: rest))); simpl; [|reflexivity].
    now apply suffix_cons_r.
Qed.

Lemma excess_bound max_items size :
  0 <= max_items -> Z.of_nat (size - excess max_items size) <= max_items.
Proof. unfold excess. lia. Qed.

(** ** The eviction routine, unfolded *)

Lemma now_advance c : snd (datetime_now c) = advance 1 c.
Proof. unfold datetime_now, advance. simpl. f_equal. lia. Qed.

Lemma _trim_eq {T} `{Timestamped T} (collection : deque_ref T) `{!RefOk collection}
    (prune_last_seen : bool) (w : World) :
  _trim collection prune_last_seen w =
  let aged := aged_of collection w in
  let '(r, kept) := drop_excess (_max_items (self w)) aged in
  let w2 := {| self := assign collection kept (self w);
               clk := aged_clock collection w |} in
  match r with
  | Raised e => (Raised e, w2)
  | Returned _ =>
      if prune_last_seen then _prune_last_seen (cutoff_of w) w2 else (Returned tt, w2)
  end.
Proof.
  unfold _trim, bind, timed, gets, _now, age_pass, capacity_pass, aged_of,
    aged_clock, cutoff_of.
  cbn [self clk]. rewrite <- now_advance. cbn [datetime_now fst snd self clk].
  destruct (drop_stale _ _ _) as [aged c2]. cbn [self clk fst snd].
  rewrite deref_assign, assign_max_items.
  destruct (drop_excess _ aged) as [r kept]. rewrite assign_assign.
  destruct r; [|reflexivity]. destruct prune_last_seen; reflexivity.
Qed.

(** ** The eviction routine (C2) *)

Lemma _prune_last_seen_returns cutoff w :
  exists d c,
    _prune_last_seen cutoff w =
    (Returned tt, {| self := set_last_seen d (self w); clk := c |}).
Proof.
  unfold _prune_last_seen. destruct (stale_callsigns _ _ _) as [stale k]. eauto.
Qed.

(** With a capacity that is not negative, [_trim] returns, and the history
    is what the age pass left minus the items above the capacity. *)
Lemma _trim_result {T} `{Timestamped T} (collection : deque_ref T)
    `{!RefOk collection} (prune_last_seen : bool) (w : World) :
  0 <= _max_items (self w) ->
  exists w',
    _trim collection prune_last_seen w = (Returned tt, w') /\
    deref collection (self w') =
    drop (excess (_max_items (self w)) (length (aged_of collection w)))
         (aged_of collection w).
Proof.
  intros Hmax. rewrite _trim_eq by assumption. cbv zeta.
  rewrite (drop_excess_ok _ _ Hmax).
  set (kept := drop _ (aged_of collection w)). destruct prune_last_seen.
  - destruct (_prune_last_seen_returns (cutoff_of w)
      {| self := assign collection kept (self w);
         clk := aged_clock collection w |}) as (d & c & ->).
    eexists; split; [reflexivity|]. cbn [self].
    now rewrite deref_set_last_seen, deref_assign.
  - eexists; split; [reflexivity|]. cbn [self]. now rewrite deref_assign.
Qed.


(** A store of capacity 1 and retention 60 s at time 1000 s: a packet stamped
    995 s is evicted by the insert of a packet stamped 996 s, though both are
    within the window. *)
Example capacity_evicts_fresh_item :
  let w0 := fresh_world 60 1 (ticking (seconds 1000)) in
  let w1 := snd (add_packet (packet_at "OLDER" (seconds 995)) w0) in
  let w2 := snd (add_packet (packet_at "NEWER" (seconds 996)) w1) in
  _packets (self w1) = [packet_at "OLDER" (seconds 995)] /\
  _packets (self w2) = [packet_at "NEWER" (seconds 996)] /\
  cutoff_of w1 <= seconds 995.
Proof. vm_compute. repeat split; discriminate. Qed.


(** ** Events without a timestamp (C10) *)

Lemma stale_prefix_before_fresh cutoff observed i ts :
  observed !! i = Some ts -> cutoff <= ts -> (stale_prefix cutoff observed <= i)%nat.
Proof.
  intros Hl Hts. destruct (le_lt_dec (stale_prefix cutoff observed) i) as [|Hlt];
    [assumption|].
  pose proof (stale_prefix_below _ _ _ _ Hlt Hl). lia.
Qed.

Lemma observe_all_lookup {T} `{Lawful T} (items : list T) c i x :
  items !! i = Some x ->
  exists c', later c c' /\
    fst (observe_all items c) !! i = Some (fst (effective_datetime x c')).
Proof.
  revert c i. induction items as [|y rest IH]; intros c i Hl; [discriminate|].
  simpl. pose proof (effective_datetime_later y c) as Hy.
  destruct (effective_datetime y c) as [ts c1] eqn:Ey. simpl in Hy.
  destruct i as [|i]; simpl in Hl.
  - inversion Hl; subst y. exists c. split; [apply later_refl|].
    destruct (observe_all rest c1). simpl. now rewrite Ey.
  - destruct (IH c1 i Hl) as (c' & Hc' & Hobs).
    exists c'. split; [eapply later_trans; eassumption|].
    destruct (observe_all rest c1). exact Hobs.
Qed.




(** ** The two inserts, unfolded *)

Lemma add_packet_eq packet w :
  add_packet packet w = _trim packets_ref true (appended_packet packet w).
Proof.
  unfold add_packet, appended_packet, indexed, bind, modify, ret.
  destruct (truthy (source_callsign packet)); exact eq_refl.
Qed.

Lemma add_rssi_eq sample w :
  add_rssi sample w = _trim rssi_ref false (appended_sample sample w).
Proof. reflexivity. Qed.

(** What [_prune_last_seen] leaves of the store. *)
Lemma _prune_last_seen_frame cutoff w :
  fst (_prune_last_seen cutoff w) = Returned tt /\
  _packets (self (snd (_prune_last_seen cutoff w))) = _packets (self w) /\
  _rssi (self (snd (_prune_last_seen cutoff w))) = _rssi (self w) /\
  _retention (self (snd (_prune_last_seen cutoff w))) = _retention (self w) /\
  _max_items (self (snd (_prune_last_seen cutoff w))) = _max_items (self w) /\
  later (clk w) (clk (snd (_prune_last_seen cutoff w))).
Proof.
  unfold _prune_last_seen.
  assert (Hl : forall items c, later c (snd (stale_callsigns cutoff items c))).
  { induction items as [|[k v] rest IH]; intros c; cbn [stale_callsigns];
      [apply later_refl|].
    pose proof (effective_datetime_later v c) as Hv.
    destruct (effective_datetime v c) as [ts c1]. cbn [snd] in Hv.
    specialize (IH c1). destruct (stale_callsigns cutoff rest c1) as [more c2].
    cbn [snd] in *. eapply later_trans; eassumption. }
  specialize (Hl (_last_seen_by_station (self w)) (clk w)).
  destruct (stale_callsigns _ _ _) as [stale k]. simpl in *. auto 10.
Qed.

(** The state [add_packet] leaves: the packet history is a suffix of the
    history with the packet appended, the samples and the configuration are
    untouched, the clock has only advanced. *)
Lemma add_packet_frame packet w :
  let w' := snd (add_packet packet w) in
  _packets (self w') `suffix_of` (_packets (self w) ++ [packet]) /\
  _rssi (self w') = _rssi (self w) /\
  _retention (self w') = _retention (self w) /\
  _max_items (self w') = _max_items (self w) /\
  later (clk w) (clk w').
Proof.
  cbv zeta. rewrite add_packet_eq, _trim_eq by typeclasses eauto. cbv zeta.
  pose proof (drop_excess_suffix (_max_items (self (appended_packet packet w)))
                (aged_of packets_ref (appended_packet packet w))) as Hsuf.
  assert (Haged : aged_of packets_ref (appended_packet packet w)
                  `suffix_of` (_packets (self w) ++ [packet])).
  { unfold aged_of. rewrite drop_stale_drop. apply suffix_drop. }
  assert (Hclk : later (clk w) (aged_clock packets_ref (appended_packet packet w))).
  { unfold aged_clock. eapply later_trans; [|apply drop_stale_later].
    split; simpl; [reflexivity|lia]. }
  destruct (drop_excess _ _) as [r kept]. simpl in Hsuf.
  assert (Hk : kept `suffix_of` (_packets (self w) ++ [packet]))
    by (etrans; eassumption).
  destruct r as [[]|e].
  - match goal with |- context [_prune_last_seen ?c ?w2] =>
      destruct (_prune_last_seen_frame c w2) as (_ & Hp & Hr & Ht & Hm & Hc) end.
    rewrite Hp, Hr, Ht, Hm. simpl.
    split_and!; try assumption; try reflexivity.
    eapply later_trans; [exact Hclk|exact Hc].
  - simpl. split_and!; try assumption; reflexivity.
Qed.

Lemma add_rssi_frame sample w :
  let w' := snd (add_rssi sample w) in
  _rssi (self w') `suffix_of` (_rssi (self w) ++ [sample]) /\
  _packets (self w') = _packets (self w) /\
  _last_seen_by_station (self w') = _last_seen_by_station (self w) /\
  _retention (self w') = _retention (self w) /\
  _max_items (self w') = _max_items (self w) /\
  later (clk w) (clk w').
Proof.
  cbv zeta. rewrite add_rssi_eq, _trim_eq by typeclasses eauto. cbv zeta.
  pose proof (drop_excess_suffix (_max_items (self (appended_sample sample w)))
                (aged_of rssi_ref (appended_sample sample w))) as Hsuf.
  assert (Haged : aged_of rssi_ref (appended_sample sample w)
                  `suffix_of` (_rssi (self w) ++ [sample])).
  { unfold aged_of. rewrite drop_stale_drop. apply suffix_drop. }
  assert (Hclk : later (clk w) (aged_clock rssi_ref (appended_sample sample w))).
  { unfold aged_clock. eapply later_trans; [|apply drop_stale_later].
    split; simpl; [reflexivity|lia]. }
  destruct (drop_excess _ _) as [r kept]. simpl in Hsuf.
  assert (Hk : kept `suffix_of` (_rssi (self w) ++ [sample]))
    by (etrans; eassumption).
  destruct r as [[]|e]; simpl; split_and!; try assumption; reflexivity.
Qed.

(** ** Size and age of a history after an insert *)

Lemma stale_prefix_sorted cutoff stamps :
  Sorted Z.le stamps ->
  Forall (fun ts => cutoff <= ts) (drop (stale_prefix cutoff stamps) stamps).
Proof.
  intros Hs. apply Sorted_StronglySorted in Hs; [|intros x y z; lia].
  induction Hs as [|z rest Hrest IH Hall]; simpl; [constructor|].
  destruct (Z.ltb_spec z cutoff) as [Hlt|Hge]; simpl; [exact IH|].
  constructor; [exact Hge|].
  eapply Forall_impl; [exact Hall|]. intros y Hy. simpl in Hy. lia.
Qed.

Lemma in_timestamp_order_drop {T} `{Timestamped T} (items : list T) n :
  in_timestamp_order items -> in_timestamp_order (drop n items).
Proof.
  intros (stamps & Hmap & Hsorted). exists (drop n stamps). split.
  - now rewrite <- !skipn_map, Hmap.
  - apply Sorted_StronglySorted in Hsorted; [|intros x y z; lia].
    apply StronglySorted_Sorted.
    rewrite <- (take_drop n stamps) in Hsorted.
    now apply StronglySorted_app_1_r in Hsorted.
Qed.

Lemma in_timestamp_order_suffix {T} `{Timestamped T} (items items' : list T) :
  items' `suffix_of` items -> in_timestamp_order items -> in_timestamp_order items'.
Proof.
  intros [pre ->] Ho. apply (in_timestamp_order_drop _ (length pre)) in Ho.
  now rewrite drop_app_length in Ho.
Qed.

(** On a history in timestamp order the trim leaves no item below the
    cutoff. *)
Lemma _trim_in_order {T} `{Lawful T} (collection : deque_ref T)
    `{!RefOk collection} (prune_last_seen : bool) (w : World) :
  0 <= _max_items (self w) ->
  in_timestamp_order (deref collection (self w)) ->
  exists w',
    _trim collection prune_last_seen w = (Returned tt, w') /\
    (Z.of_nat (length (deref collection (self w'))) <= _max_items (self w)) /\
    forall c, Forall (fun ts => cutoff_of w <= ts)
                     (fst (observe_all (deref collection (self w')) c)).
Proof.
  intros Hmax (stamps & Hmap & Hsorted).
  destruct (_trim_result collection prune_last_seen w Hmax) as (w' & Hrun & Hkept).
  exists w'. split; [exact Hrun|]. split.
  { rewrite Hkept, length_drop. unfold excess. lia. }
  intros c. rewrite Hkept. unfold aged_of. rewrite drop_stale_drop.
  rewrite (observe_all_stored _ _ _ Hmap). cbn [fst]. rewrite drop_drop.
  set (k := stale_prefix (cutoff_of w) stamps). set (n := excess _ _).
  rewrite (observe_all_stored _ (drop (k + n) stamps)).
  - cbn [fst]. rewrite <- drop_drop. apply Forall_drop.
    now apply stale_prefix_sorted.
  - now rewrite <- !skipn_map, Hmap.
Qed.

Lemma run_inserts_snoc ops op w :
  run_inserts (ops ++ [op]) w = snd (apply_insert op (run_inserts ops w)).
Proof. unfold run_inserts. now rewrite fold_left_app. Qed.

Lemma packets_of_snoc ops op :
  packets_of (ops ++ [op]) =
  packets_of ops ++ match op with InsertPacket p => [p] | InsertRssi _ => [] end.
Proof. unfold packets_of. rewrite omap_app. destruct op; reflexivity. Qed.

Lemma samples_of_snoc ops op :
  samples_of (ops ++ [op]) =
  samples_of ops ++ match op with InsertRssi s => [s] | InsertPacket _ => [] end.
Proof. unfold samples_of. rewrite omap_app. destruct op; reflexivity. Qed.

(** What every sequence of inserts preserves, from a fresh store. *)
Lemma run_inserts_inv retention_seconds max_items c ops :
  let w := run_inserts ops (fresh_world retention_seconds max_items c) in
  _packets (self w) `suffix_of` packets_of ops /\
  _rssi (self w) `suffix_of` samples_of ops /\
  _retention (self w) = timedelta_seconds retention_seconds /\
  _max_items (self w) = max_items /\
  later c (clk w).
Proof.
  induction ops as [|op ops IH] using rev_ind; cbv zeta.
  - simpl. split_and!; try reflexivity. apply later_refl.
  - rewrite run_inserts_snoc, packets_of_snoc, samples_of_snoc.
    cbv zeta in IH. destruct IH as (Hp & Hr & Ht & Hm & Hc).
    set (w := run_inserts ops _) in *. destruct op as [p|s]; cbn [apply_insert].
    + destruct (add_packet_frame p w) as (Hp' & Hr' & Ht' & Hm' & Hc').
      rewrite Hr', Ht', Hm', app_nil_r. split_and!; try assumption.
      * etrans; [exact Hp'|]. now apply suffix_app.
      * eapply later_trans; eassumption.
    + destruct (add_rssi_frame s w) as (Hr' & Hp' & _ & Ht' & Hm' & Hc').
      rewrite Hp', Ht', Hm', app_nil_r. split_and!; try assumption.
      * etrans; [exact Hr'|]. now apply suffix_app.
      * eapply later_trans; eassumption.
Qed.

(** After any sequence of inserts into a fresh store whose capacity is not
    negative, a further insert returns and leaves the history it appended to
    with at most [max_items] items; and when the events inserted into that
    history all carry a timestamp and have arrived in timestamp order, no
    item of that history is observed below the cutoff of that insert. *)
Lemma storage_history_bounded_and_fresh
    (retention_seconds max_items : Z) (c : clock)
    (ops : list insert_op) (op : insert_op) :
  0 <= max_items ->
  let w := run_inserts ops (fresh_world retention_seconds max_items c) in
  exists w',
    apply_insert op w = (Returned tt, w') /\
    Z.of_nat (affected_size op w') <= max_items /\
    (arrive_in_order op (ops ++ [op]) ->
     Forall (fun ts => cutoff_of w <= ts) (affected_observed op w')).
Proof.
  intros Hmax w.
  destruct (run_inserts_inv retention_seconds max_items c ops)
    as (Hp & Hr & _ & Hm & _). fold w in Hp, Hr, Hm.
  destruct op as [p|s];
    cbn [apply_insert affected_size affected_observed arrive_in_order].
  - rewrite add_packet_eq.
    assert (Hmax' : 0 <= _max_items (self (appended_packet p w)))
      by (cbn; rewrite Hm; exact Hmax).
    destruct (_trim_result packets_ref true _ Hmax') as (w' & Hrun & Hkept).
    exists w'. split; [exact Hrun|]. split.
    { change (_packets (self w')) with (deref packets_ref (self w')).
      rewrite Hkept, length_drop. unfold excess. cbn [appended_packet self _max_items].
      rewrite Hm. lia. }
    intros Ho. rewrite packets_of_snoc in Ho.
    assert (Ho' : in_timestamp_order (deref packets_ref (self (appended_packet p w)))).
    { eapply in_timestamp_order_suffix; [|exact Ho]. cbn. now apply suffix_app. }
    destruct (_trim_in_order packets_ref true _ Hmax' Ho') as (w2 & Hrun2 & _ & Hall).
    rewrite Hrun in Hrun2. inversion Hrun2; subst w2. apply Hall.
  - rewrite add_rssi_eq.
    assert (Hmax' : 0 <= _max_items (self (appended_sample s w)))
      by (cbn; rewrite Hm; exact Hmax).
    destruct (_trim_result rssi_ref false _ Hmax') as (w' & Hrun & Hkept).
    exists w'. split; [exact Hrun|]. split.
    { change (_rssi (self w')) with (deref rssi_ref (self w')).
      rewrite Hkept, length_drop. unfold excess. cbn [appended_sample self _max_items].
      rewrite Hm. lia. }
    intros Ho. rewrite samples_of_snoc in Ho.
    assert (Ho' : in_timestamp_order (deref rssi_ref (self (appended_sample s w)))).
    { eapply in_timestamp_order_suffix; [|exact Ho]. cbn. now apply suffix_app. }
    destruct (_trim_in_order rssi_ref false _ Hmax' Ho') as (w2 & Hrun2 & _ & Hall).
    rewrite Hrun in Hrun2. inversion Hrun2; subst w2. apply Hall.
Qed.

(** An event without timestamp at the head shields what follows it from the
    age pass: with a retention of 60 s, the packet stamped 1300 s is still in
    the history after an insert made at 1600 s, while the full scan of
    [_prune_last_seen] has removed its entry from the index. *)
Example bare_head_shields_stale_item :
  let ops := [InsertPacket (bare_packet "BARE");
              InsertPacket (packet_at "A" (seconds 1300))] in
  let w := run_inserts ops (fresh_world 60 100 jumping) in
  let w' := snd (add_packet (packet_at "B" (seconds 1600)) w) in
  cutoff_of w = seconds 1540 /\
  _packets (self w') =
    [bare_packet "BARE"; packet_at "A" (seconds 1300); packet_at "B" (seconds 1600)] /\
  dict_keys (_last_seen_by_station (self w')) = ["BARE"; "B"].
Proof. cbv zeta. split_and!; vm_compute; reflexivity. Qed.

(** ** The dict operations *)

Lemma dict_get_None_keys {V} k (d : dict V) :
  dict_get k d = None <-> k ∉ dict_keys d.
Proof.
  induction d as [|[k' v] rest IH]; simpl.
  - split; [intros _; apply not_elem_of_nil|reflexivity].
  - rewrite not_elem_of_cons. destruct (String.eqb_spec k k') as [->|Hne].
    + split; [discriminate|intros [Hk _]; congruence].
    + rewrite IH. tauto.
Qed.

Lemma dict_get_elem_of {V} k v (d : dict V) :
  NoDup (dict_keys d) -> (dict_get k d = Some v <-> (k, v) ∈ d).
Proof.
  induction d as [|[k' v'] rest IH]; simpl; intros Hnd.
  - split; [discriminate|intros Hin; inversion Hin].
  - apply NoDup_cons in Hnd as [Hk' Hnd]. rewrite elem_of_cons.
    destruct (String.eqb_spec k k') as [->|Hne].
    + split; [intros [= ->]; now left|].
      intros [[= ->]|Hin]; [reflexivity|].
      exfalso. apply Hk'. apply list_elem_of_fmap. now exists (k', v).
    + rewrite (IH Hnd). split; [now right|]. intros [[= -> ->]|Hin]; [congruence|exact Hin].
Qed.

Lemma dict_setitem_keys {V} k (v : V) d :
  dict_keys (dict_setitem k v d) =
  if decide (k ∈ dict_keys d) then dict_keys d else dict_keys d ++ [k].
Proof.
  unfold dict_keys. induction d as [|[k' v'] rest IH].
  - reflexivity.
  - cbn [dict_setitem]. destruct (String.eqb_spec k k') as [->|Hne].
    + rewrite !fmap_cons. cbn [fst].
      rewrite decide_True by apply list_elem_of_here. reflexivity.
    + rewrite !fmap_cons. cbn [fst]. rewrite IH.
      destruct (decide (k ∈ fst <$> rest)) as [Hin|Hnin].
      * rewrite decide_True by now apply list_elem_of_further. reflexivity.
      * rewrite decide_False; [reflexivity|].
        rewrite elem_of_cons. intros [?|?]; congruence.
Qed.

Lemma dict_setitem_NoDup {V} k (v : V) d :
  NoDup (dict_keys d) -> NoDup (dict_keys (dict_setitem k v d)).
Proof.
  intros Hnd. rewrite dict_setitem_keys. case_decide as Hin; [exact Hnd|].
  apply NoDup_app. split_and!; [exact Hnd| |apply NoDup_singleton].
  intros x Hx Hx'. apply list_elem_of_singleton in Hx'. congruence.
Qed.

Lemma dict_get_setitem {V} k k' (v : V) d :
  dict_get k' (dict_setitem k v d) = if String.eqb k' k then Some v else dict_get k' d.
Proof.
  induction d as [|[k0 v0] rest IH]; simpl.
  - reflexivity.
  - destruct (String.eqb_spec k k0) as [->|Hne]; simpl.
    + destruct (String.eqb_spec k' k0); reflexivity.
    + rewrite IH. destruct (String.eqb_spec k' k0) as [->|Hne'];
        [|reflexivity].
      destruct (String.eqb_spec k0 k); [congruence|reflexivity].
Qed.

Lemma dict_pop_absent {V} k (d : dict V) : k ∉ dict_keys d -> dict_pop k d = d.
Proof.
  induction d as [|[k' v'] rest IH]; simpl; [reflexivity|].
  rewrite not_elem_of_cons. intros [Hne Hnin].
  destruct (String.eqb_spec k k'); [congruence|]. now rewrite IH.
Qed.

Lemma dict_pop_sublist {V} k (d : dict V) : dict_pop k d `sublist_of` d.
Proof.
  induction d as [|[k' v'] rest IH]; simpl; [reflexivity|].
  destruct (String.eqb k k'); [now apply sublist_cons|now apply sublist_skip].
Qed.

Lemma pop_all_sublist callsigns d : pop_all callsigns d `sublist_of` d.
Proof.
  unfold pop_all. revert d. induction callsigns as [|k ks IH]; intros d; simpl.
  - reflexivity.
  - etrans; [apply IH|apply dict_pop_sublist].
Qed.

Lemma sublist_keys_NoDup {V} (d d' : dict V) :
  d' `sublist_of` d -> NoDup (dict_keys d) -> NoDup (dict_keys d').
Proof.
  intros Hsub Hnd. apply (sublist_NoDup (dict_keys d') (dict_keys d)); [exact Hnd|].
  unfold dict_keys. now apply fmap_sublist.
Qed.

Lemma sublist_dict_get {V} (d d' : dict V) k v :
  d' `sublist_of` d -> NoDup (dict_keys d) ->
  dict_get k d' = Some v -> dict_get k d = Some v.
Proof.
  intros Hsub Hnd Hget. apply (dict_get_elem_of _ _ _ Hnd).
  apply (dict_get_elem_of _ _ _ (sublist_keys_NoDup _ _ Hsub Hnd)) in Hget.
  eapply elem_of_sublist; eassumption.
Qed.

Lemma pop_all_cons_absent callsigns k v d :
  k ∉ callsigns -> pop_all callsigns ((k, v) :: d) = (k, v) :: pop_all callsigns d.
Proof.
  unfold pop_all. revert d. induction callsigns as [|k' ks IH]; intros d Hk; simpl.
  - reflexivity.
  - apply not_elem_of_cons in Hk as [Hne Hk].
    destruct (String.eqb_spec k' k); [congruence|]. now apply IH.
Qed.

(** The comprehension of [_prune_last_seen] collects keys of the dict. *)
Lemma stale_callsigns_keys cutoff items c k :
  k ∈ fst (stale_callsigns cutoff items c) -> k ∈ dict_keys items.
Proof.
  revert c. induction items as [|[k' v] rest IH]; intros c; cbn [stale_callsigns].
  - intros Hin. inversion Hin.
  - destruct (effective_datetime v c) as [ts c1]. specialize (IH c1).
    destruct (stale_callsigns cutoff rest c1) as [more c2]. cbn [fst] in *.
    simpl. rewrite elem_of_cons. destruct (ts <? cutoff);
      [rewrite elem_of_cons; intros [->|Hin]|intros Hin]; auto.
Qed.

(** Pruning keeps exactly the entries observed at or above the cutoff. *)
Lemma prune_keep_fresh cutoff (d : dict PacketEvent) c :
  NoDup (dict_keys d) ->
  pop_all (fst (stale_callsigns cutoff d c)) d =
  keep_fresh cutoff d (fst (observe_all (map snd d) c)).
Proof.
  revert c. induction d as [|[k v] rest IH]; intros c Hnd; [reflexivity|].
  simpl in Hnd. apply NoDup_cons in Hnd as [Hk Hnd].
  cbn [stale_callsigns observe_all map snd].
  pose proof (stale_callsigns_keys cutoff rest (snd (effective_datetime v c))) as Hkeys.
  destruct (effective_datetime v c) as [ts c1]. cbn [snd] in Hkeys.
  specialize (IH c1 Hnd).
  destruct (stale_callsigns cutoff rest c1) as [more c2].
  destruct (observe_all (map snd rest) c1) as [obs c3]. cbn [fst] in *.
  cbn [keep_fresh]. destruct (ts <? cutoff).
  - unfold pop_all. simpl. rewrite String.eqb_refl. exact IH.
  - rewrite pop_all_cons_absent; [now rewrite IH|].
    intros Hin. apply Hk. now apply Hkeys.
Qed.

Lemma keep_fresh_elem_of cutoff (d : dict PacketEvent) observed entry :
  NoDup d -> length observed = length d ->
  (entry ∈ keep_fresh cutoff d observed <->
   exists i ts, d !! i = Some entry /\ observed !! i = Some ts /\ cutoff <= ts).
Proof.
  revert observed. induction d as [|e rest IH]; intros [|ts more] Hnd Hlen;
    simpl in Hlen; try discriminate.
  - simpl. split; [intros Hin; inversion Hin|intros (i & z & Hl & _); discriminate].
  - apply NoDup_cons in Hnd as [He Hnd]. injection Hlen as Hlen.
    specialize (IH more Hnd Hlen). cbn [keep_fresh].
    assert (Htail : (exists i z, rest !! i = Some entry /\ more !! i = Some z /\ cutoff <= z)
                    -> entry ∈ rest).
    { intros (i & z & Hl & _). eapply list_elem_of_lookup_2; eassumption. }
    destruct (Z.ltb_spec ts cutoff) as [Hlt|Hge].
    + rewrite IH. split.
      * intros (i & z & Hl & Ho & Hz). exists (S i), z. auto.
      * intros ([|i] & z & Hl & Ho & Hz); simpl in *.
        -- injection Ho as ->. lia.
        -- eauto.
    + rewrite elem_of_cons, IH. split.
      * intros [->|(i & z & Hl & Ho & Hz)].
        -- exists 0%nat, ts. auto.
        -- exists (S i), z. auto.
      * intros ([|i] & z & Hl & Ho & Hz); simpl in *.
        -- injection Hl as ->. now left.
        -- right. eauto.
Qed.

(** ** The last-seen index (C5) *)

Lemma truthy_Some s k : truthy s = Some k <-> s = Some k /\ k <> EmptyString.
Proof.
  destruct s as [[|a s']|]; simpl; split; try discriminate.
  - intros [[= <-] Hk]. congruence.
  - intros [= <-]. split; [reflexivity|discriminate].
  - intros [[= <-] _]. reflexivity.
  - intros [[=] _].
Qed.

Lemma truthy_None s : truthy s = None <-> s = None \/ s = Some EmptyString.
Proof.
  destruct s as [[|a s']|]; simpl; split; try discriminate; auto.
  - intros [[=]|[=]].
Qed.

Lemma indexed_NoDup packet d :
  NoDup (dict_keys d) -> NoDup (dict_keys (indexed packet d)).
Proof.
  unfold indexed. destruct (truthy _); [apply dict_setitem_NoDup|trivial].
Qed.

Lemma latest_from_snoc callsign packets packet :
  latest_from callsign (packets ++ [packet]) =
  if decide (source_callsign packet = Some callsign) then Some packet
  else latest_from callsign packets.
Proof.
  unfold latest_from. rewrite filter_app, filter_cons, filter_nil.
  case_decide; [apply last_snoc|now rewrite app_nil_r].
Qed.

(** The index [add_packet] leaves: the index with the packet's entry
    assigned, minus the popped callsigns. *)
Lemma add_packet_last_seen packet w :
  exists stale,
    _last_seen_by_station (self (snd (add_packet packet w))) =
    pop_all stale (indexed packet (_last_seen_by_station (self w))).
Proof.
  rewrite add_packet_eq, _trim_eq by typeclasses eauto. cbv zeta.
  destruct (drop_excess _ _) as [[[]|e] kept].
  - unfold _prune_last_seen. destruct (stale_callsigns _ _ _) as [stale k].
    exists stale. reflexivity.
  - exists []. reflexivity.
Qed.

(** With a capacity that is not negative, the entries kept are those observed
    at or above the cutoff, the observation starting when the two passes over
    the packet history are over. *)
Lemma add_packet_last_seen_ok packet w :
  0 <= _max_items (self w) ->
  NoDup (dict_keys (_last_seen_by_station (self w))) ->
  let d1 := indexed packet (_last_seen_by_station (self w)) in
  exists w',
    add_packet packet w = (Returned tt, w') /\
    _last_seen_by_station (self w') =
    keep_fresh (cutoff_of w) d1
      (fst (observe_all (map snd d1)
              (aged_clock packets_ref (appended_packet packet w)))).
Proof.
  intros Hmax Hnd d1. rewrite add_packet_eq, _trim_eq by typeclasses eauto. cbv zeta.
  rewrite drop_excess_ok by exact Hmax.
  unfold _prune_last_seen. cbn [self clk assign packets_ref _last_seen_by_station
    appended_packet]. fold d1.
  destruct (stale_callsigns _ d1 _) as [stale k] eqn:Es.
  eexists; split; [reflexivity|]. cbn [self set_last_seen _last_seen_by_station].
  change stale with (fst (stale, k)). rewrite <- Es.
  apply prune_keep_fresh. now apply indexed_NoDup.
Qed.

(** The invariant of the index along every sequence of inserts. *)
Lemma run_inserts_index retention_seconds max_items c ops :
  let w := run_inserts ops (fresh_world retention_seconds max_items c) in
  let index := _last_seen_by_station (self w) in
  NoDup (dict_keys index) /\
  dict_get EmptyString index = None /\
  forall callsign packet,
    dict_get callsign index = Some packet ->
    latest_from callsign (packets_of ops) = Some packet.
Proof.
  induction ops as [|op ops IH] using rev_ind; cbv zeta.
  - simpl. split_and!; [constructor|reflexivity|discriminate].
  - rewrite run_inserts_snoc, packets_of_snoc. cbv zeta in IH.
    destruct IH as (Hnd & Hempty & Hlatest).
    set (w := run_inserts ops _) in *. destruct op as [p|s]; cbn [apply_insert].
    + destruct (add_packet_last_seen p w) as (stale & ->).
      pose proof (indexed_NoDup p _ Hnd) as Hnd1.
      pose proof (pop_all_sublist stale (indexed p (_last_seen_by_station (self w))))
        as Hsub.
      assert (Hget : forall k v,
                 dict_get k (indexed p (_last_seen_by_station (self w))) = Some v ->
                 k <> EmptyString /\ latest_from k (packets_of ops ++ [p]) = Some v).
      { intros k v. unfold indexed. rewrite latest_from_snoc.
        destruct (truthy (source_callsign p)) as [k0|] eqn:Et.
        - apply truthy_Some in Et as [Es Hk0]. rewrite dict_get_setitem.
          destruct (String.eqb_spec k k0) as [->|Hne].
          + intros [= ->]. split; [exact Hk0|]. now rewrite decide_True.
          + intros Hg. split; [intros ->; congruence|].
            rewrite decide_False by congruence. now apply Hlatest.
        - apply truthy_None in Et. intros Hg.
          assert (Hk : k <> EmptyString) by (intros ->; congruence).
          split; [exact Hk|]. rewrite decide_False; [now apply Hlatest|].
          destruct Et as [Et|Et]; rewrite Et; congruence. }
      split_and!.
      * eapply sublist_keys_NoDup; eassumption.
      * destruct (dict_get EmptyString (pop_all stale _)) as [v|] eqn:E; [|reflexivity].
        apply (sublist_dict_get _ _ _ _ Hsub Hnd1) in E.
        apply Hget in E as [E _]. congruence.
      * intros k v Hg. apply (sublist_dict_get _ _ _ _ Hsub Hnd1) in Hg.
        now apply Hget in Hg as [_ Hg].
    + destruct (add_rssi_frame s w) as (_ & _ & -> & _). rewrite app_nil_r.
      split_and!; assumption.
Qed.



(** ** Capacity eviction and the index (C9) *)

(** A callsign collected by the comprehension of [_prune_last_seen] belongs
    to an entry observed below the cutoff. *)
Lemma stale_callsigns_observed cutoff items c k :
  k ∈ fst (stale_callsigns cutoff items c) ->
  exists i v ts,
    items !! i = Some (k, v) /\
    fst (observe_all (map snd items) c) !! i = Some ts /\ ts < cutoff.
Proof.
  revert c. induction items as [|[k' v] rest IH]; intros c;
    cbn [stale_callsigns observe_all map snd].
  - intros Hin. inversion Hin.
  - destruct (effective_datetime v c) as [ts c1]. specialize (IH c1).
    destruct (stale_callsigns cutoff rest c1) as [more c2].
    destruct (observe_all (map snd rest) c1) as [obs c3]. cbn [fst] in *.
    assert (Hrest : k ∈ more -> exists i v0 ts0,
               ((k', v) :: rest) !! i = Some (k, v0) /\
               (ts :: obs) !! i = Some ts0 /\ ts0 < cutoff).
    { intros Hin. destruct (IH Hin) as (i & v0 & ts0 & Hl & Ho & Hlt).
      exists (S i), v0, ts0. auto. }
    destruct (Z.ltb_spec ts cutoff) as [Hlt|Hge]; [|exact Hrest].
    rewrite elem_of_cons. intros [->|Hin]; [|now apply Hrest].
    exists 0%nat, v, ts. auto.
Qed.

(** What [add_packet] pops from the index was observed below the cutoff of
    its trim. *)
Lemma add_packet_pops_stale packet w :
  let d1 := indexed packet (_last_seen_by_station (self w)) in
  exists stale,
    _last_seen_by_station (self (snd (add_packet packet w))) = pop_all stale d1 /\
    forall k, k ∈ stale ->
      exists i v ts,
        d1 !! i = Some (k, v) /\
        fst (observe_all (map snd d1)
               (aged_clock packets_ref (appended_packet packet w))) !! i = Some ts /\
        ts < cutoff_of w.
Proof.
  cbv zeta. rewrite add_packet_eq, _trim_eq by typeclasses eauto. cbv zeta.
  destruct (drop_excess _ _) as [[[]|e] kept].
  - unfold _prune_last_seen.
    cbn [self clk assign packets_ref _last_seen_by_station appended_packet].
    pose proof (stale_callsigns_observed (cutoff_of (appended_packet packet w))
                  (indexed packet (_last_seen_by_station (self w)))
                  (aged_clock packets_ref (appended_packet packet w))) as Hobs.
    destruct (stale_callsigns _ _ _) as [stale k]. cbn [fst] in Hobs.
    exists stale. split; [reflexivity|]. intros k0 Hk0. exact (Hobs k0 Hk0).
  - exists []. split; [reflexivity|]. intros k Hk. inversion Hk.
Qed.

(** C9.  The capacity pass changes the deque it is given and nothing else of
    the world: the index, the other deque, the configuration and the clock
    are as before, whether the pass returns or raises; [add_packet] pops from
    the index only callsigns whose entry is observed below the cutoff, and
    [add_rssi] leaves the index alone.  So an entry of the index outlives the eviction of its packet for capacity: in a store of
    capacity 1 and retention 60 s, at time 1000 s, after the inserts of a
    packet of OLDER stamped 995 s and of a packet of NEWER stamped 996 s,
    [get_last_seen] still maps OLDER to its packet, stamped within the
    window, while [get_recent_packets] returns the packet of NEWER alone. *)
Theorem capacity_pass_leaves_index :
  (forall w : World,
     let w' := snd (capacity_pass packets_ref w) in
     _last_seen_by_station (self w') = _last_seen_by_station (self w) /\
     _rssi (self w') = _rssi (self w) /\
     _retention (self w') = _retention (self w) /\
     _max_items (self w') = _max_items (self w) /\
     clk w' = clk w /\
     _packets (self w') `suffix_of` _packets (self w)) /\
  (forall w : World,
     let w' := snd (capacity_pass rssi_ref w) in
     _last_seen_by_station (self w') = _last_seen_by_station (self w) /\
     _packets (self w') = _packets (self w) /\
     _retention (self w') = _retention (self w) /\
     _max_items (self w') = _max_items (self w) /\
     clk w' = clk w /\
     _rssi (self w') `suffix_of` _rssi (self w)) /\
  (let older := packet_at "OLDER" (seconds 995) in
   let newer := packet_at "NEWER" (seconds 996) in
   let w0 := fresh_world 60 1 (ticking (seconds 1000)) in
   let w1 := snd (add_packet older w0) in
   let w2 := snd (add_packet newer w1) in
   fst (add_packet newer w1) = Returned tt /\
   fst (get_recent_packets w2) = Returned [newer] /\
   fst (get_last_seen w2) = Returned [("OLDER", older); ("NEWER", newer)] /\
   stored_datetime older = Some (seconds 995) /\
   cutoff_of w1 <= seconds 995) /\
  (forall (packet : PacketEvent) (w : World),
     let d1 := indexed packet (_last_seen_by_station (self w)) in
     exists stale,
       _last_seen_by_station (self (snd (add_packet packet w))) = pop_all stale d1 /\
       forall k, k ∈ stale ->
         exists i v ts,
           d1 !! i = Some (k, v) /\
           fst (observe_all (map snd d1)
                  (aged_clock packets_ref (appended_packet packet w))) !! i = Some ts /\
           ts < cutoff_of w) /\
  (forall (sample : RssiSample) (w : World),
     _last_seen_by_station (self (snd (add_rssi sample w))) =
     _last_seen_by_station (self w)).
Proof.
  split_and!; [| | |exact add_packet_pops_stale|
               intros sample w; now destruct (add_rssi_frame sample w) as (_ & _ & -> & _)].
  - intros w. unfold capacity_pass. cbn [deref packets_ref].
    pose proof (drop_excess_suffix (_max_items (self w)) (_packets (self w))) as Hs.
    destruct (drop_excess _ _) as [r kept]. cbn in *. auto 10.
  - intros w. unfold capacity_pass. cbn [deref rssi_ref].
    pose proof (drop_excess_suffix (_max_items (self w)) (_rssi (self w))) as Hs.
    destruct (drop_excess _ _) as [r kept]. cbn in *. auto 10.
  - cbv zeta. split_and!; try (vm_compute; reflexivity).
    vm_compute. discriminate.
Qed.

(** ** The ordered snapshot *)

Lemma insert_by_key_perm {A} (x : Z * A) l : insert_by_key x l ≡ₚ x :: l.
Proof.
  induction l as [|y rest IH]; simpl; [reflexivity|].
  destruct (fst y <? fst x); [|reflexivity].
  rewrite IH. apply Permutation_swap.
Qed.

Lemma sort_by_key_perm {A} (l : list (Z * A)) : sort_by_key l ≡ₚ l.
Proof.
  induction l as [|x rest IH]; simpl; [reflexivity|].
  rewrite insert_by_key_perm. now rewrite IH.
Qed.

Lemma insert_by_key_sorted {A} (x : Z * A) l :
  StronglySorted Z.le (map fst l) -> StronglySorted Z.le (map fst (insert_by_key x l)).
Proof.
  induction l as [|y rest IH]; simpl; intros Hs.
  - repeat constructor.
  - apply StronglySorted_inv in Hs as [Hrest Hy].
    destruct (Z.ltb_spec (fst y) (fst x)) as [Hlt|Hge]; simpl.
    + constructor; [now apply IH|].
      change (map fst (insert_by_key x rest)) with (fst <$> insert_by_key x rest).
      rewrite (insert_by_key_perm x rest). simpl. constructor; [lia|exact Hy].
    + constructor; [now constructor|]. constructor; [exact Hge|].
      eapply Forall_impl; [exact Hy|]. intros z Hz. simpl in Hz. lia.
Qed.

Lemma sort_by_key_sorted {A} (l : list (Z * A)) :
  Sorted Z.le (map fst (sort_by_key l)).
Proof.
  apply StronglySorted_Sorted. induction l as [|x rest IH]; simpl.
  - constructor.
  - now apply insert_by_key_sorted.
Qed.

(** Entries of equal key keep the order they had. *)
Lemma insert_by_key_stable {A} (x : Z * A) l ts :
  filter (fun e => fst e = ts) (insert_by_key x l) =
  filter (fun e => fst e = ts) (x :: l).
Proof.
  induction l as [|y rest IH]; simpl; [reflexivity|].
  destruct (Z.ltb_spec (fst y) (fst x)) as [Hlt|Hge]; [|reflexivity].
  rewrite (filter_cons _ y (insert_by_key x rest)), IH.
  rewrite !filter_cons.
  destruct (decide (fst y = ts)) as [Hy|Hy];
    destruct (decide (fst x = ts)) as [Hx|Hx]; try reflexivity; lia.
Qed.

Lemma sort_by_key_stable {A} (l : list (Z * A)) ts :
  filter (fun e => fst e = ts) (sort_by_key l) = filter (fun e => fst e = ts) l.
Proof.
  induction l as [|x rest IH]; simpl; [reflexivity|].
  rewrite insert_by_key_stable, !filter_cons, IH. reflexivity.
Qed.

Lemma make_entries_spec {T} `{Timestamped T} (wrap : T -> StreamMessage)
    (items : list T) c :
  map fst (fst (make_entries wrap items c)) = fst (observe_all items c) /\
  map snd (fst (make_entries wrap items c)) = map wrap items /\
  snd (make_entries wrap items c) = snd (observe_all items c).
Proof.
  revert c. induction items as [|x rest IH]; intros c;
    cbn [make_entries observe_all]; [auto|].
  destruct (effective_datetime x c) as [ts c1]. specialize (IH c1).
  destruct (make_entries wrap rest c1) as [more c2].
  destruct (observe_all rest c1) as [obs c3]. cbn [fst snd map] in *.
  destruct IH as (-> & -> & ->). auto.
Qed.

(** The entries of the snapshot pair each retained packet, then each retained
    sample, with the effective datetime observed when the entry is built; the
    messages returned are those of the entries sorted by that key. *)
Lemma storage_snapshot_sorted_and_complete (w : World) :
  let packets := _packets (self w) in
  let samples := _rssi (self w) in
  exists entries w',
    snapshot_entries w = (Returned entries, w') /\
    snapshot_stream_events w = (Returned (map snd (sort_by_key entries)), w') /\
    self w' = self w /\
    map fst entries =
      fst (observe_all packets (clk w)) ++
      fst (observe_all samples (snd (observe_all packets (clk w)))) /\
    map snd entries = map packet_message packets ++ map rssi_message samples /\
    Sorted Z.le (map fst (sort_by_key entries)) /\
    sort_by_key entries ≡ₚ entries /\
    (forall ts, filter (fun e => fst e = ts) (sort_by_key entries) =
                filter (fun e => fst e = ts) entries) /\
    length (map snd (sort_by_key entries)) = (length packets + length samples)%nat.
Proof.
  intros packets samples.
  destruct (make_entries_spec packet_message packets (clk w)) as (Hk1 & Hm1 & Hc1).
  destruct (make_entries_spec rssi_message samples
              (snd (make_entries packet_message packets (clk w)))) as (Hk2 & Hm2 & Hc2).
  exists (fst (make_entries packet_message packets (clk w)) ++
          fst (make_entries rssi_message samples
                 (snd (make_entries packet_message packets (clk w))))).
  exists {| self := self w;
            clk := snd (make_entries rssi_message samples
                          (snd (make_entries packet_message packets (clk w)))) |}.
  assert (Hrun : snapshot_entries w =
    (Returned (fst (make_entries packet_message packets (clk w)) ++
               fst (make_entries rssi_message samples
                      (snd (make_entries packet_message packets (clk w))))),
     {| self := self w;
        clk := snd (make_entries rssi_message samples
                      (snd (make_entries packet_message packets (clk w)))) |})).
  { unfold snapshot_entries, bind, gets, timed, ret. cbn [self clk].
    subst packets samples.
    destruct (make_entries packet_message _ (clk w)) as [e1 c1]. cbn [self clk fst snd].
    destruct (make_entries rssi_message _ c1) as [e2 c2]. reflexivity. }
  split; [exact Hrun|]. split.
  { unfold snapshot_stream_events, bind. rewrite Hrun. reflexivity. }
  split; [reflexivity|]. split.
  { rewrite map_app, Hk1, Hk2, Hc1. reflexivity. }
  split; [now rewrite map_app, Hm1, Hm2|].
  split; [apply sort_by_key_sorted|].
  split; [apply sort_by_key_perm|].
  split; [intros ts; apply sort_by_key_stable|].
  rewrite length_map, (Permutation_length (sort_by_key_perm _)), length_app.
  rewrite <- (length_map fst (fst (make_entries packet_message packets (clk w)))), Hk1.
  rewrite <- (length_map fst (fst (make_entries rssi_message samples _))), Hk2.
  now rewrite !observe_all_length.
Qed.

(** ** Repeated evaluations of the effective datetime (C7) *)

(** C7, as amended.  An event that carries an explicit timestamp, or, for a
    packet, an epoch fallback, answers every evaluation of its effective
    datetime with the same value and does not read the clock.  An event that
    carries neither answers each evaluation with the clock reading made by
    that evaluation. *)
Theorem effective_datetime_consistency :
  (forall (p : PacketEvent) (c c' : clock),
     timestamp p <> None \/ unix_time p <> None ->
     fst (effective_datetime p c) = fst (effective_datetime p c') /\
     snd (effective_datetime p c) = c) /\
  (forall (s : RssiSample) (c c' : clock),
     rssi_timestamp s <> None ->
     fst (effective_datetime s c) = fst (effective_datetime s c') /\
     snd (effective_datetime s c) = c) /\
  (forall (p : PacketEvent) (c : clock),
     timestamp p = None -> unix_time p = None ->
     effective_datetime p c = (wall c (reads c), advance 1 c)) /\
  (forall (s : RssiSample) (c : clock),
     rssi_timestamp s = None ->
     effective_datetime s c = (wall c (reads c), advance 1 c)).
Proof.
  split_and!.
  - intros p c c' Hp. cbn. unfold packet_effective_datetime.
    destruct (timestamp p); [auto|]. destruct (unix_time p); [auto|].
    destruct Hp; congruence.
  - intros s c c' Hs. cbn. unfold rssi_effective_datetime.
    destruct (rssi_timestamp s); [auto|congruence].
  - intros p c Ht Hu. apply effective_datetime_unstored. cbn.
    unfold packet_stored_datetime. now rewrite Ht, Hu.
  - intros s c Ht. apply effective_datetime_unstored. cbn.
    unfold rssi_stored_datetime. now rewrite Ht.
Qed.

Lemma effective_datetime_consistency_witness :
  let p := packet_at "N0CALL-1" (seconds 990) in
  let c := ticking (seconds 1000) in
  (timestamp p <> None \/ unix_time p <> None) /\
  fst (effective_datetime p c) = fst (effective_datetime p (advance 7 c)) /\
  effective_datetime (bare_packet "BARE") c = (wall c (reads c), advance 1 c).
Proof.
  intros p c.
  assert (Hp : timestamp p <> None \/ unix_time p <> None) by (left; discriminate).
  split; [exact Hp|].
  destruct effective_datetime_consistency as (Hpacket & _ & Hbare & _).
  split.
  - exact (proj1 (Hpacket p c (advance 7 c) Hp)).
  - exact (Hbare (bare_packet "BARE") c eq_refl eq_refl).
Defined.

(** C7, as stated, fails for an event with neither timestamp nor epoch: one
    [add_packet] of such a packet into a fresh store evaluates its effective
    datetime twice, when the age pass tests the head of the deque and when
    the index is pruned, and on a clock that advances between readings the
    two values differ. *)
Lemma bare_packet_evaluations_differ :
  let p := bare_packet "BARE" in
  let w := fresh_world 60 100 (ticking (seconds 1000)) in
  let at_age_test := advance 1 (clk w) in
  let at_prune := aged_clock packets_ref (appended_packet p w) in
  fst (add_packet p w) = Returned tt /\
  reads (clk (snd (add_packet p w))) = 3%nat /\
  aged_of packets_ref (appended_packet p w) = [p] /\
  fst (effective_datetime p at_age_test) = seconds 1000 + 1 /\
  fst (effective_datetime p at_prune) = seconds 1000 + 2 /\
  ~ (forall (e : PacketEvent) (c c' : clock),
       wall c' = wall c ->
       fst (effective_datetime e c) = fst (effective_datetime e c')).
Proof.
  cbv zeta. split_and!; try (vm_compute; reflexivity).
  intros Hclaim.
  specialize (Hclaim (bare_packet "BARE") (ticking 0) (advance 1 (ticking 0)) eq_refl).
  vm_compute in Hclaim. discriminate.
Qed.

(** ** Operations that return *)

Lemma apply_insert_returns op w :
  0 <= _max_items (self w) -> fst (apply_insert op w) = Returned tt.
Proof.
  intros Hmax. destruct op as [p|s]; cbn [apply_insert].
  - rewrite add_packet_eq.
    destruct (_trim_result packets_ref true (appended_packet p w) Hmax) as (w' & -> & _).
    reflexivity.
  - rewrite add_rssi_eq.
    destruct (_trim_result rssi_ref false (appended_sample s w) Hmax) as (w' & -> & _).
    reflexivity.
Qed.

Lemma snapshot_returns w :
  exists messages w', snapshot_stream_events w = (Returned messages, w').
Proof.
  unfold snapshot_stream_events, snapshot_entries, bind, gets, timed, ret.
  cbn [self clk].
  destruct (make_entries packet_message _ (clk w)) as [e1 c1]. cbn [self clk].
  destruct (make_entries rssi_message _ c1) as [e2 c2]. eauto.
Qed.

(** ** Publishing (C4) *)

(** The body of the loop never raises, and what it does to a queue. *)
Lemma publish_one_eq message q :
  publish_one message q =
  (Returned tt,
   if full q then
     if full (without_oldest q) then without_oldest q
     else with_newest message (without_oldest q)
   else with_newest message q).
Proof.
  unfold publish_one, try_except, bind, ret, put_nowait, get_nowait,
    without_oldest, with_newest.
  destruct q as [mx items]. cbn [maxsize _queue].
  destruct (full {| maxsize := mx; _queue := items |}) eqn:Hfull; [|reflexivity].
  rewrite decide_True by reflexivity.
  destruct items as [|oldest rest]; cbn [tail _queue maxsize].
  - rewrite decide_True by reflexivity. rewrite Hfull.
    rewrite decide_True by reflexivity. reflexivity.
  - destruct (full {| maxsize := mx; _queue := rest |}); [|reflexivity].
    rewrite decide_True by reflexivity. reflexivity.
Qed.

Lemma for_each_queue_spec (listeners : list nat) (body : M Queue unit)
    (f : Queue -> Queue) (hub : BroadcastHub) :
  (forall q, body q = (Returned tt, f q)) ->
  NoDup listeners ->
  exists hub',
    for_each_queue listeners body hub = (Returned tt, hub') /\
    next_handle hub' = next_handle hub /\
    forall h, _listeners hub' !! h =
              if decide (h ∈ listeners) then f <$> _listeners hub !! h
              else _listeners hub !! h.
Proof.
  intros Hbody. revert hub. induction listeners as [|queue rest IH]; intros hub Hnd.
  - exists hub. split; [reflexivity|]. split; [reflexivity|].
    intros h. rewrite decide_False by apply not_elem_of_nil. reflexivity.
  - apply NoDup_cons in Hnd as [Hq Hnd]. cbn [for_each_queue].
    unfold bind, on_queue.
    destruct (_listeners hub !! queue) as [q|] eqn:Hlook.
    + rewrite Hbody.
      destruct (IH {| _listeners := <[queue := f q]> (_listeners hub);
                      next_handle := next_handle hub |} Hnd)
        as (hub' & Hrun & Hnext & Hget).
      exists hub'. split; [exact Hrun|]. split; [exact Hnext|].
      intros h. rewrite Hget. cbn [_listeners].
      destruct (decide (h = queue)) as [->|Hne].
      * rewrite decide_False by exact Hq.
        rewrite decide_True by apply list_elem_of_here.
        rewrite lookup_insert_eq, Hlook. reflexivity.
      * rewrite lookup_insert_ne by congruence.
        destruct (decide (h ∈ rest)) as [Hin|Hnin].
        -- rewrite decide_True by now apply list_elem_of_further. reflexivity.
        -- rewrite decide_False; [reflexivity|].
           rewrite elem_of_cons. intros [?|?]; congruence.
    + destruct (IH hub Hnd) as (hub' & Hrun & Hnext & Hget).
      exists hub'. split; [exact Hrun|]. split; [exact Hnext|].
      intros h. rewrite Hget.
      destruct (decide (h = queue)) as [->|Hne].
      * rewrite decide_False by exact Hq.
        rewrite decide_True by apply list_elem_of_here. now rewrite Hlook.
      * destruct (decide (h ∈ rest)) as [Hin|Hnin].
        -- rewrite decide_True by now apply list_elem_of_further. reflexivity.
        -- rewrite decide_False; [reflexivity|].
           rewrite elem_of_cons. intros [?|?]; congruence.
Qed.

(** [publish] returns in every state of the hub, and delivers to every
    listener. *)
Lemma publish_eq message hub :
  publish message hub =
  (Returned tt,
   {| _listeners := delivered message <$> _listeners hub;
      next_handle := next_handle hub |}).
Proof.
  unfold publish.
  destruct (for_each_queue_spec (elements (dom (_listeners hub)))
              (publish_one message) (delivered message) hub)
    as (hub' & -> & Hnext & Hget).
  - intros q. unfold delivered. now rewrite publish_one_eq.
  - apply NoDup_elements.
  - f_equal. destruct hub' as [listeners' next']. cbn in *. subst next'. f_equal.
    apply map_eq. intros h. rewrite Hget, lookup_fmap.
    case_decide as Hin; [reflexivity|].
    rewrite elem_of_elements, elem_of_dom in Hin.
    destruct (_listeners hub !! h) as [q|]; [|reflexivity].
    exfalso. apply Hin. eauto.
Qed.

Lemma full_bounded_inv q :
  full q = true -> qsize q <= maxsize q ->
  exists oldest rest,
    _queue q = oldest :: rest /\ full (without_oldest q) = false.
Proof.
  unfold full, qsize, without_oldest. destruct q as [mx items]. cbn [maxsize _queue].
  destruct (Z.leb_spec mx 0) as [|Hpos]; [discriminate|].
  intros Hfull%Z.leb_le Hbound. destruct items as [|oldest rest]; simpl in *; [lia|].
  exists oldest, rest. split; [reflexivity|]. apply Z.leb_gt. lia.
Qed.

Lemma delivered_within_bound message q :
  maxsize q = 512 -> qsize q <= 512 ->
  maxsize (delivered message q) = 512 /\ qsize (delivered message q) <= 512.
Proof.
  unfold delivered. rewrite publish_one_eq. cbn [snd].
  unfold full, qsize, with_newest, without_oldest. destruct q as [mx items].
  cbn [maxsize _queue]. intros -> Hb. change (512 <=? 0) with false. cbv iota.
  destruct (Z.leb_spec 512 (Z.of_nat (length items))) as [Hfull|Hroom].
  - destruct items as [|oldest rest]; cbn [tail length] in *; [lia|].
    destruct (Z.leb_spec 512 (Z.of_nat (length rest))); cbn [maxsize _queue];
      rewrite ?length_app; simpl; lia.
  - cbn [maxsize _queue]. rewrite length_app. simpl. lia.
Qed.

(** The bound assumed of the full queue in C4 holds of every queue of every
    hub that coroutines can produce. *)
Lemma run_hub_within_bound ops : within_bound (run_hub ops new_BroadcastHub).
Proof.
  induction ops as [|op ops IH] using rev_ind.
  - intros h q Hq. cbn in Hq. rewrite lookup_empty in Hq. discriminate.
  - unfold run_hub in *. rewrite fold_left_app. cbn [fold_left].
    set (hub := fold_left _ ops new_BroadcastHub) in *.
    intros h q. destruct op as [|queue|message|queue]; cbn [apply_hub_op].
    + unfold subscribe. cbn [snd _listeners]. rewrite lookup_insert.
      case_decide; [intros [= <-]; split; [reflexivity|discriminate]|apply IH].
    + unfold unsubscribe. cbn [snd _listeners]. rewrite lookup_delete.
      case_decide; [discriminate|apply IH].
    + rewrite publish_eq. cbn [snd _listeners]. rewrite lookup_fmap.
      destruct (_listeners hub !! h) as [q0|] eqn:Hq0; [|discriminate].
      intros [= <-]. destruct (IH h q0 Hq0). now apply delivered_within_bound.
    + unfold on_queue, bind, get_nowait, ret.
      destruct (_listeners hub !! queue) as [q0|] eqn:Hq0; [|apply IH].
      destruct (IH queue q0 Hq0) as [Hmx Hsz].
      destruct q0 as [mx [|item rest]]; cbn [_queue maxsize snd _listeners] in *;
        rewrite lookup_insert; (case_decide; [intros [= <-]|apply IH]).
      * split; [exact Hmx|exact Hsz].
      * unfold qsize in *. cbn [maxsize _queue length] in *. split; [exact Hmx|lia].
Qed.

(** C4.  In a hub where the queue behind [full_handle] is full (and within
    its bound) and no other listener queue is, [publish] returns, the full
    queue has lost its oldest pending message and gained [message] at the
    newest end, every other queue has gained [message] after its pending
    messages, and the set of listeners is as before.  [publish] returns in
    every state of the hub; a queue still full once its oldest message is
    dropped is left that way, without the message, and nothing is raised. *)
Theorem publish_drops_oldest_of_full_queue
    (hub : BroadcastHub) (message : StreamMessage) (full_handle : nat) (qf : Queue) :
  _listeners hub !! full_handle = Some qf ->
  full qf = true ->
  qsize qf <= maxsize qf ->
  (forall h q, h <> full_handle -> _listeners hub !! h = Some q -> full q = false) ->
  exists hub',
    publish message hub = (Returned tt, hub') /\
    (exists oldest rest,
       _queue qf = oldest :: rest /\
       _listeners hub' !! full_handle =
         Some {| maxsize := maxsize qf; _queue := rest ++ [message] |} /\
       (oldest ∉ rest -> oldest <> message -> oldest ∉ rest ++ [message])) /\
    (forall h q, h <> full_handle -> _listeners hub !! h = Some q ->
       _listeners hub' !! h =
         Some {| maxsize := maxsize q; _queue := _queue q ++ [message] |}) /\
    dom (_listeners hub') = dom (_listeners hub) /\
    (forall hub0 message0, fst (publish message0 hub0) = Returned tt) /\
    (forall q message0,
       full q = true -> full (without_oldest q) = true ->
       publish_one message0 q = (Returned tt, without_oldest q)).
Proof.
  intros Hlook Hfull Hbound Hothers.
  eexists. split; [apply publish_eq|]. cbn [_listeners]. split_and!.
  - destruct (full_bounded_inv qf Hfull Hbound) as (oldest & rest & Hq & Hroom).
    exists oldest, rest. split; [exact Hq|]. split.
    + rewrite lookup_fmap, Hlook. cbn. f_equal. unfold delivered.
      rewrite publish_one_eq, Hfull, Hroom. cbn [snd].
      unfold with_newest, without_oldest. cbn [maxsize _queue]. now rewrite Hq.
    + intros Hrest Hne. rewrite elem_of_app, list_elem_of_singleton. tauto.
  - intros h q Hne Hq. rewrite lookup_fmap, Hq. cbn. f_equal. unfold delivered.
    rewrite publish_one_eq, (Hothers h q Hne Hq). reflexivity.
  - apply dom_fmap_L.
  - intros hub0 message0. now rewrite publish_eq.
  - intros q message0 Hq Hstill. now rewrite publish_one_eq, Hq, Hstill.
Qed.

Lemma publish_drops_oldest_of_full_queue_witness :
  let m1 := packet_message (packet_at "N0CALL-1" (seconds 1)) in
  let m2 := packet_message (packet_at "N0CALL-2" (seconds 2)) in
  let m3 := packet_message (packet_at "N0CALL-3" (seconds 3)) in
  let qf := {| maxsize := 2; _queue := [m1; m2] |} in
  let q := {| maxsize := 2; _queue := [m2] |} in
  let hub := {| _listeners := <[0%nat := qf]> (<[1%nat := q]> ∅); next_handle := 2 |} in
  _listeners hub !! 0%nat = Some qf /\ full qf = true /\ qsize qf <= maxsize qf /\
  exists hub',
    publish m3 hub = (Returned tt, hub') /\
    _listeners hub' !! 0%nat = Some {| maxsize := 2; _queue := [m2; m3] |} /\
    _listeners hub' !! 1%nat = Some {| maxsize := 2; _queue := [m2; m3] |}.
Proof.
  intros m1 m2 m3 qf q hub.
  assert (H0 : _listeners hub !! 0%nat = Some qf) by reflexivity.
  assert (H1 : _listeners hub !! 1%nat = Some q) by reflexivity.
  assert (Hfull : full qf = true) by reflexivity.
  assert (Hbound : qsize qf <= maxsize qf) by (vm_compute; discriminate).
  assert (Hothers : forall h q', h <> 0%nat -> _listeners hub !! h = Some q' ->
                                 full q' = false).
  { intros h q' Hne. cbn [hub _listeners]. rewrite lookup_insert_ne by congruence.
    destruct (decide (h = 1%nat)) as [->|Hne1].
    - rewrite lookup_insert_eq. intros [= <-]. reflexivity.
    - rewrite lookup_insert_ne by congruence. rewrite lookup_empty. discriminate. }
  split; [exact H0|]. split; [exact Hfull|]. split; [exact Hbound|].
  destruct (publish_drops_oldest_of_full_queue hub m3 0%nat qf H0 Hfull Hbound Hothers)
    as (hub' & Hrun & (oldest & rest & Hq & Hfullq & _) & Hrest & _).
  exists hub'. split; [exact Hrun|]. split.
  - injection Hq as <- <-. exact Hfullq.
  - exact (Hrest 1%nat q ltac:(discriminate) H1).
Defined.


(** ** The scenarios of the test suite, run on the model *)

(** [test_store_discards_entries_outside_retention_window]: retention 60 s;
    a packet stamped 180 s in the past, then one stamped 10 s in the past. *)
Example store_discards_entries_outside_retention_window :
  let w := run_inserts [InsertPacket (packet_at "OLD" (seconds 820));
                        InsertPacket (packet_at "RECENT" (seconds 990))]
             (fresh_world 60 100 (ticking (seconds 1000))) in
  fst (get_recent_packets w) = Returned [packet_at "RECENT" (seconds 990)].
Proof. vm_compute. reflexivity. Qed.

(** [test_store_enforces_max_history_items]: capacity 3, five samples with
    increasing timestamps. *)
Example store_enforces_max_history_items :
  let w := run_inserts [InsertRssi (sample_at (seconds 1000));
                        InsertRssi (sample_at (seconds 1001));
                        InsertRssi (sample_at (seconds 1002));
                        InsertRssi (sample_at (seconds 1003));
                        InsertRssi (sample_at (seconds 1004))]
             (fresh_world 3600 3 (ticking (seconds 1000))) in
  fst (get_recent_rssi w) =
  Returned [sample_at (seconds 1002); sample_at (seconds 1003); sample_at (seconds 1004)].
Proof. vm_compute. reflexivity. Qed.

(** A packet of N0CALL-1 stamped T, then the stations seen since T - 10 s. *)
Example stations_since_returns_the_packet :
  let p := packet_at "N0CALL-1" (seconds 995) in
  let w := run_inserts [InsertPacket p] (fresh_world 60 100 (ticking (seconds 1000))) in
  fst (recent_stations (seconds 985) w) = Returned [("N0CALL-1", p)].
Proof. vm_compute. reflexivity. Qed.

(** Subscribe, publish one packet message, take one message off the queue. *)
Example subscriber_receives_published_message :
  let m := packet_message (packet_at "N0CALL-1" (seconds 995)) in
  let hub := run_hub [HubSubscribe; HubPublish m] new_BroadcastHub in
  (_listeners hub !! 0%nat) ≫= (fun q => head (_queue q)) = Some m.
Proof. vm_compute. reflexivity. Qed.

(** * Further properties of the code *)

(** ** The hub: handles, unsubscription, overflow *)

Lemma run_hub_snoc ops op hub :
  run_hub (ops ++ [op]) hub = apply_hub_op op (run_hub ops hub).
Proof. unfold run_hub. now rewrite fold_left_app. Qed.

(** No operation brings back a handle that is no longer, or not yet,
    registered, except [subscribe] for the next handle. *)
Lemma apply_hub_op_absent op hub h :
  _listeners hub !! h = None -> (h < next_handle hub)%nat ->
  _listeners (apply_hub_op op hub) !! h = None /\
  (h < next_handle (apply_hub_op op hub))%nat.
Proof.
  intros Hnone Hlt. destruct op as [|queue|message|queue]; cbn [apply_hub_op].
  - unfold subscribe. cbn. rewrite lookup_insert_ne by lia. split; [exact Hnone|lia].
  - unfold unsubscribe. cbn. split; [|exact Hlt].
    rewrite lookup_delete. case_decide; [reflexivity|exact Hnone].
  - rewrite publish_eq. cbn. rewrite lookup_fmap, Hnone. split; [reflexivity|exact Hlt].
  - unfold on_queue. destruct (_listeners hub !! queue) as [q|] eqn:Hq; [|auto].
    destruct (bind get_nowait (fun _ => ret tt) q) as [r q']. cbn.
    split; [|exact Hlt]. rewrite lookup_insert_ne; [exact Hnone|]. congruence.
Qed.

(** X1.  [unsubscribe] never raises and removes one handle only; doing it
    again changes nothing.  A handle allocated earlier and unsubscribed stays
    out of the listeners whatever is subscribed, published, taken or
    unsubscribed afterwards: nothing is ever delivered to it again. *)
Theorem unsubscribed_handle_stays_silent
    (hub : BroadcastHub) (queue : nat) (ops : list hub_op) :
  (queue < next_handle hub)%nat ->
  let hub1 := snd (unsubscribe queue hub) in
  fst (unsubscribe queue hub) = Returned tt /\
  unsubscribe queue hub1 = (Returned tt, hub1) /\
  (forall h, h <> queue -> _listeners hub1 !! h = _listeners hub !! h) /\
  _listeners (run_hub ops hub1) !! queue = None.
Proof.
  intros Hlt hub1. split; [reflexivity|]. split.
  { unfold hub1, unsubscribe. cbn. now rewrite delete_delete_eq. }
  split.
  { intros h Hne. unfold hub1, unsubscribe. cbn. now rewrite lookup_delete_ne. }
  assert (Hinv : _listeners (run_hub ops hub1) !! queue = None /\
                 (queue < next_handle (run_hub ops hub1))%nat).
  { induction ops as [|op ops IH] using rev_ind.
    - cbn. split; [apply lookup_delete_eq|exact Hlt].
    - rewrite run_hub_snoc. destruct IH. now apply apply_hub_op_absent. }
  exact (proj1 Hinv).
Qed.

Lemma unsubscribed_handle_stays_silent_witness :
  let m := packet_message (packet_at "N0CALL-1" (seconds 1)) in
  let hub := run_hub [HubSubscribe; HubSubscribe] new_BroadcastHub in
  let ops := [HubPublish m; HubSubscribe; HubUnsubscribe 0%nat; HubPublish m] in
  (0 < next_handle hub)%nat /\
  _listeners (run_hub ops (snd (unsubscribe 0%nat hub))) !! 0%nat = None.
Proof.
  intros m hub ops.
  assert (Hlt : (0 < next_handle hub)%nat) by (cbn; lia).
  split; [exact Hlt|].
  exact (proj2 (proj2 (proj2 (unsubscribed_handle_stays_silent hub 0%nat ops Hlt)))).
Defined.

Lemma run_hub_handles_allocated ops :
  handles_allocated (run_hub ops new_BroadcastHub).
Proof.
  induction ops as [|op ops IH] using rev_ind.
  - intros h [q Hq]. cbn in Hq. rewrite lookup_empty in Hq. discriminate.
  - rewrite run_hub_snoc. set (hub := run_hub ops new_BroadcastHub) in *.
    intros h. destruct op as [|queue|message|queue]; cbn [apply_hub_op].
    + unfold subscribe. cbn. rewrite lookup_insert_is_Some.
      intros [->|[_ Hh]]; [lia|]. specialize (IH h Hh). lia.
    + unfold unsubscribe. cbn. rewrite lookup_delete.
      case_decide; [intros [? [=]]|apply IH].
    + rewrite publish_eq. cbn. rewrite lookup_fmap, fmap_is_Some. apply IH.
    + unfold on_queue. destruct (_listeners hub !! queue) as [q|] eqn:Hq; [|apply IH].
      destruct (bind get_nowait (fun _ => ret tt) q) as [r q']. cbn.
      rewrite lookup_insert_is_Some. intros [->|[_ Hh]]; [|now apply IH].
      apply IH. eauto.
Qed.

(** X2.  In every hub that subscriptions, unsubscriptions, publications and
    takes can produce, [subscribe] returns a handle no listener has, registers
    under it an empty queue of capacity 512, leaves every other listener
    queue as it is, and makes the listeners one more. *)
Theorem subscribe_allocates_fresh_queue (ops : list hub_op) :
  let hub := run_hub ops new_BroadcastHub in
  let handle := next_handle hub in
  let hub' := snd (subscribe hub) in
  fst (subscribe hub) = Returned handle /\
  _listeners hub !! handle = None /\
  _listeners hub' !! handle = Some (new_Queue 512) /\
  (forall h, h <> handle -> _listeners hub' !! h = _listeners hub !! h) /\
  size (_listeners hub') = S (size (_listeners hub)) /\
  next_handle hub' = S handle.
Proof.
  intros hub handle hub'.
  assert (Hfresh : _listeners hub !! handle = None).
  { destruct (_listeners hub !! handle) as [q|] eqn:Hq; [|reflexivity].
    pose proof (run_hub_handles_allocated ops handle) as Hlt. fold hub in Hlt.
    rewrite Hq in Hlt. specialize (Hlt (ex_intro _ q eq_refl)). unfold handle in Hlt. lia. }
  split; [reflexivity|]. split; [exact Hfresh|]. unfold hub', subscribe. cbn.
  split; [apply lookup_insert_eq|]. split.
  { intros h Hne. now rewrite lookup_insert_ne. }
  split; [now apply map_size_insert_None|reflexivity].
Qed.

Lemma newest_length {A} n (l : list A) : length (newest n l) = Nat.min n (length l).
Proof. unfold newest. rewrite length_drop. lia. Qed.

Lemma newest_snoc {A} n (l : list A) x :
  (1 <= n)%nat -> newest n (newest n l ++ [x]) = newest n (l ++ [x]).
Proof.
  intros Hn. unfold newest at 1 3. rewrite !length_app, newest_length. cbn [length].
  destruct (le_lt_dec (length l) n) as [Hle|Hgt].
  - unfold newest. replace (length l - n)%nat with 0%nat by lia. cbn [drop].
    f_equal. lia.
  - unfold newest. rewrite drop_app_le by (rewrite length_drop; lia).
    rewrite drop_drop, drop_app_le by lia. do 2 f_equal. lia.
Qed.

(** One delivery to a queue that has a positive capacity and respects it:
    the message goes last, and the oldest goes when there is no room. *)
Lemma delivered_newest message q :
  0 < maxsize q -> qsize q <= maxsize q ->
  delivered message q =
  {| maxsize := maxsize q;
     _queue := newest (Z.to_nat (maxsize q)) (_queue q ++ [message]) |}.
Proof.
  intros Hpos Hbound. unfold delivered. rewrite publish_one_eq. cbn [snd].
  destruct (full q) eqn:Hfull.
  - destruct (full_bounded_inv q Hfull Hbound) as (oldest & rest & Hq & ->).
    unfold with_newest, without_oldest. cbn [maxsize _queue]. rewrite Hq. cbn [tail].
    f_equal. unfold newest. unfold full, qsize in Hfull.
    destruct (Z.leb_spec (maxsize q) 0); [lia|]. apply Z.leb_le in Hfull.
    unfold qsize in Hbound. rewrite Hq in Hfull, Hbound. cbn [length] in *.
    rewrite length_app. cbn [length app].
    replace (S (length rest) + 1 - Z.to_nat (maxsize q))%nat with 1%nat by lia.
    reflexivity.
  - unfold with_newest. f_equal. unfold newest. unfold full, qsize in Hfull.
    destruct (Z.leb_spec (maxsize q) 0); [lia|]. apply Z.leb_gt in Hfull.
    rewrite length_app. cbn [length].
    replace (length (_queue q) + 1 - Z.to_nat (maxsize q))%nat with 0%nat by lia.
    reflexivity.
Qed.

Lemma deliver_all_newest messages q :
  0 < maxsize q -> qsize q <= maxsize q ->
  deliver_all messages q =
  {| maxsize := maxsize q;
     _queue := newest (Z.to_nat (maxsize q)) (_queue q ++ messages) |}.
Proof.
  intros Hpos Hbound. induction messages as [|m ms IH] using rev_ind.
  - cbn. rewrite app_nil_r. unfold newest, qsize in *.
    replace (length (_queue q) - Z.to_nat (maxsize q))%nat with 0%nat by lia.
    destruct q; reflexivity.
  - unfold deliver_all in *. rewrite fold_left_app. cbn [fold_left]. rewrite IH.
    rewrite delivered_newest; cbn [maxsize _queue].
    + f_equal. rewrite app_assoc. apply newest_snoc. lia.
    + exact Hpos.
    + unfold qsize. cbn [_queue]. rewrite newest_length. lia.
Qed.

Lemma run_hub_publish_all messages hub :
  run_hub (map HubPublish messages) hub =
  {| _listeners := deliver_all messages <$> _listeners hub;
     next_handle := next_handle hub |}.
Proof.
  revert hub. induction messages as [|m ms IH]; intros hub.
  - cbn. rewrite map_fmap_id. destruct hub; reflexivity.
  - cbn [map]. unfold run_hub in *. cbn [fold_left apply_hub_op].
    rewrite IH, publish_eq. cbn [snd _listeners next_handle].
    f_equal. rewrite <- map_fmap_compose. reflexivity.
Qed.

(** X3.  A series of publications leaves, in a listener queue of positive
    capacity [c] that held no more than [c] messages, the newest [c] of the
    messages it held followed by the published ones, in their order: what
    overflows is dropped from the oldest end, and nothing is reordered. *)
Theorem publications_keep_the_newest
    (hub : BroadcastHub) (h : nat) (q : Queue) (messages : list StreamMessage) :
  _listeners hub !! h = Some q ->
  0 < maxsize q ->
  qsize q <= maxsize q ->
  _listeners (run_hub (map HubPublish messages) hub) !! h =
  Some {| maxsize := maxsize q;
          _queue := newest (Z.to_nat (maxsize q)) (_queue q ++ messages) |}.
Proof.
  intros Hq Hpos Hbound. rewrite run_hub_publish_all. cbn [_listeners].
  rewrite lookup_fmap, Hq. cbn. f_equal. now apply deliver_all_newest.
Qed.

Lemma publications_keep_the_newest_witness :
  let m1 := packet_message (packet_at "N0CALL-1" (seconds 1)) in
  let m2 := packet_message (packet_at "N0CALL-2" (seconds 2)) in
  let m3 := packet_message (packet_at "N0CALL-3" (seconds 3)) in
  let q := {| maxsize := 2; _queue := [m1] |} in
  let hub := {| _listeners := {[ 0%nat := q ]}; next_handle := 1 |} in
  _listeners hub !! 0%nat = Some q /\ 0 < maxsize q /\ qsize q <= maxsize q /\
  _listeners (run_hub [HubPublish m2; HubPublish m3] hub) !! 0%nat =
    Some {| maxsize := 2; _queue := [m2; m3] |}.
Proof.
  intros m1 m2 m3 q hub.
  assert (Hq : _listeners hub !! 0%nat = Some q) by reflexivity.
  assert (Hpos : 0 < maxsize q) by reflexivity.
  assert (Hbound : qsize q <= maxsize q) by (vm_compute; discriminate).
  split; [exact Hq|]. split; [exact Hpos|]. split; [exact Hbound|].
  exact (publications_keep_the_newest hub 0%nat q [m2; m3] Hq Hpos Hbound).
Defined.

(** ** The store: what an insert guarantees, and how it fails *)

(** The messages of a snapshot are those of the retained packets and samples,
    in some order. *)
Lemma snapshot_messages_perm w :
  exists messages w',
    snapshot_stream_events w = (Returned messages, w') /\
    self w' = self w /\
    messages ≡ₚ map packet_message (_packets (self w)) ++
                map rssi_message (_rssi (self w)).
Proof.
  destruct (make_entries_spec packet_message (_packets (self w)) (clk w))
    as (_ & Hm1 & _).
  destruct (make_entries_spec rssi_message (_rssi (self w))
              (snd (make_entries packet_message (_packets (self w)) (clk w))))
    as (_ & Hm2 & _).
  unfold snapshot_stream_events, snapshot_entries, bind, gets, timed, ret.
  cbn [self clk].
  destruct (make_entries packet_message _ (clk w)) as [e1 c1]. cbn [self clk fst snd] in *.
  destruct (make_entries rssi_message _ c1) as [e2 c2]. cbn [fst] in *.
  eexists; eexists. split; [reflexivity|]. split; [reflexivity|].
  rewrite <- Hm1, <- Hm2, <- map_app.
  change (map snd (sort_by_key (e1 ++ e2))) with (snd <$> sort_by_key (e1 ++ e2)).
  change (map snd (e1 ++ e2)) with (snd <$> (e1 ++ e2)).
  now rewrite sort_by_key_perm.
Qed.

(** A packet appended with a timestamp at or above the cutoff stays last in
    the history when the capacity is at least one. *)
Lemma add_packet_keeps_fresh_last packet ts w :
  1 <= _max_items (self w) ->
  stored_datetime packet = Some ts ->
  cutoff_of w <= ts ->
  exists w',
    add_packet packet w = (Returned tt, w') /\
    last (_packets (self w')) = Some packet.
Proof.
  intros Hmax Hts Hfresh. rewrite add_packet_eq.
  assert (Hmax' : 0 <= _max_items (self (appended_packet packet w))) by (cbn; lia).
  destruct (_trim_result packets_ref true _ Hmax') as (w' & Hrun & Hkept).
  exists w'. split; [exact Hrun|].
  change (_packets (self w')) with (deref packets_ref (self w')). rewrite Hkept.
  unfold aged_of. rewrite drop_stale_drop, drop_drop.
  cbn [deref packets_ref appended_packet self _packets _max_items clk].
  set (hist := _packets (self w)).
  set (k := stale_prefix _ _).
  assert (Hk : (k <= length hist)%nat).
  { destruct (observe_all_lookup (hist ++ [packet]) (advance 1 (clk w))
                (length hist) packet) as (c' & _ & Hobs).
    { rewrite lookup_app_r by lia. now rewrite Nat.sub_diag. }
    eapply stale_prefix_before_fresh; [exact Hobs|].
    rewrite (effective_datetime_stored _ _ _ Hts). exact Hfresh. }
  rewrite length_drop, length_app. cbn [length]. unfold excess.
  rewrite drop_app_le by lia. apply last_snoc.
Qed.

(** Insert, then look up. *)
Lemma storage_inserted_packet_is_retained
    (retention_seconds max_items : Z) (c : clock)
    (ops : list insert_op) (packet : PacketEvent) (ts : Z) :
  1 <= max_items ->
  let w := run_inserts ops (fresh_world retention_seconds max_items c) in
  stored_datetime packet = Some ts ->
  wall (clk w) (reads (clk w)) - _retention (self w) <= ts ->
  exists w',
    add_packet packet w = (Returned tt, w') /\
    last (_packets (self w')) = Some packet /\
    (forall callsign,
       source_callsign packet = Some callsign -> callsign <> EmptyString ->
       dict_get callsign (_last_seen_by_station (self w')) = Some packet) /\
    exists messages,
      fst (snapshot_stream_events w') = Returned messages /\
      packet_message packet ∈ messages.
Proof.
  intros Hmax w Hts Hfresh.
  destruct (run_inserts_inv retention_seconds max_items c ops) as (_ & _ & _ & Hm & _).
  destruct (run_inserts_index retention_seconds max_items c ops) as (Hnd & _ & _).
  fold w in Hm, Hnd.
  assert (Hmax1 : 1 <= _max_items (self w)) by (rewrite Hm; exact Hmax).
  destruct (add_packet_keeps_fresh_last packet ts w Hmax1 Hts Hfresh)
    as (w' & Hrun & Hlast).
  exists w'. split; [exact Hrun|]. split; [exact Hlast|]. split.
  - intros callsign Hsrc Hne.
    assert (Hmax0 : 0 <= _max_items (self w)) by lia.
    destruct (add_packet_last_seen_ok packet w Hmax0 Hnd) as (w2 & Hrun2 & Hidx).
    rewrite Hrun in Hrun2. injection Hrun2 as <-.
    assert (Ht : truthy (source_callsign packet) = Some callsign)
      by (apply truthy_Some; auto).
    pose proof (indexed_NoDup packet _ Hnd) as Hnd1.
    set (d1 := indexed packet (_last_seen_by_station (self w))) in *.
    assert (Hin1 : (callsign, packet) ∈ d1).
    { apply (dict_get_elem_of _ _ _ Hnd1). unfold d1, indexed. rewrite Ht.
      rewrite dict_get_setitem. now rewrite String.eqb_refl. }
    apply list_elem_of_lookup_1 in Hin1 as (i & Hi).
    destruct (observe_all_lookup (map snd d1)
                (aged_clock packets_ref (appended_packet packet w)) i packet)
      as (c' & _ & Hobs).
    { change (map snd d1) with (snd <$> d1). now rewrite list_lookup_fmap, Hi. }
    rewrite (effective_datetime_stored _ _ _ Hts) in Hobs. cbn [fst] in Hobs.
    assert (Hin' : (callsign, packet) ∈ _last_seen_by_station (self w')).
    { rewrite Hidx. apply keep_fresh_elem_of.
      - apply (NoDup_fmap_1 fst). exact Hnd1.
      - rewrite observe_all_length. apply length_map.
      - exists i, ts. auto. }
    apply dict_get_elem_of; [|exact Hin'].
    rewrite Hidx. eapply sublist_keys_NoDup; [|exact Hnd1].
    rewrite <- prune_keep_fresh by exact Hnd1. apply pop_all_sublist.
  - destruct (snapshot_messages_perm w') as (messages & w'' & Hs & _ & Hperm).
    exists messages. split; [now rewrite Hs|]. rewrite Hperm.
    apply elem_of_app. left.
    change (map packet_message (_packets (self w')))
      with (packet_message <$> _packets (self w')).
    apply list_elem_of_fmap. exists packet. split; [reflexivity|].
    apply last_Some_elem_of. exact Hlast.
Qed.

(** With a capacity of zero or less the history an insert appends to is
    empty afterwards; below zero the capacity loop pops from the emptied
    deque. *)
Lemma storage_nonpositive_capacity
    (w : World) (packet : PacketEvent) (sample : RssiSample) :
  _max_items (self w) <= 0 ->
  let expected : outcome unit :=
    if _max_items (self w) <? 0 then Raised IndexError else Returned tt in
  fst (add_packet packet w) = expected /\
  _packets (self (snd (add_packet packet w))) = [] /\
  _rssi (self (snd (add_packet packet w))) = _rssi (self w) /\
  (_max_items (self w) < 0 ->
   _last_seen_by_station (self (snd (add_packet packet w))) =
   indexed packet (_last_seen_by_station (self w))) /\
  fst (add_rssi sample w) = expected /\
  _rssi (self (snd (add_rssi sample w))) = [] /\
  _packets (self (snd (add_rssi sample w))) = _packets (self w) /\
  _last_seen_by_station (self (snd (add_rssi sample w))) =
  _last_seen_by_station (self w).
Proof.
  intros Hmax. cbv zeta.
  destruct (add_packet_frame packet w) as (_ & Hrssi & _).
  destruct (add_rssi_frame sample w) as (_ & Hpackets & Hindex & _).
  rewrite Hrssi, Hpackets, Hindex.
  rewrite add_packet_eq, add_rssi_eq, !_trim_eq by typeclasses eauto. cbv zeta.
  cbn [appended_packet appended_sample self _max_items].
  destruct (Z.ltb_spec (_max_items (self w)) 0) as [Hneg|Hzero].
  - rewrite !drop_excess_negative by exact Hneg. cbn. auto 10.
  - rewrite !drop_excess_ok by exact Hzero.
    assert (Hall : forall {A} (l : list A),
               drop (excess (_max_items (self w)) (length l)) l = []).
    { intros A l. apply drop_ge. unfold excess. lia. }
    rewrite !Hall.
    match goal with |- context [_prune_last_seen ?c ?w2] =>
      destruct (_prune_last_seen_frame c w2) as (Hr & Hp & _) end.
    rewrite Hr, Hp. cbn. split_and!; try reflexivity. lia.
Qed.

(** ** The stations endpoint *)

Lemma stations_since_keep_fresh since items c :
  fst (stations_since since items c) =
  keep_fresh since items (fst (observe_all (map snd items) c)).
Proof.
  revert c. induction items as [|[k v] rest IH]; intros c;
    cbn [stations_since observe_all map snd keep_fresh]; [reflexivity|].
  destruct (effective_datetime v c) as [ts c1]. specialize (IH c1).
  destruct (stations_since since rest c1) as [more c2].
  destruct (observe_all (map snd rest) c1) as [obs c3]. cbn [fst keep_fresh] in *.
  rewrite Z.leb_antisym. destruct (ts <? since); cbn [negb]; now rewrite IH.
Qed.

Lemma keep_fresh_sublist cutoff items observed :
  keep_fresh cutoff items observed `sublist_of` items.
Proof.
  revert observed. induction items as [|e rest IH]; intros [|ts more];
    cbn [keep_fresh]; try apply sublist_nil_l.
  destruct (ts <? cutoff); [apply sublist_cons|apply sublist_skip]; apply IH.
Qed.

Lemma list_recent_stations_eq within_seconds w :
  let cutoff := wall (clk w) (reads (clk w)) - timedelta_seconds within_seconds in
  let index := _last_seen_by_station (self w) in
  exists w',
    list_recent_stations within_seconds w =
    (Returned (map snd (keep_fresh cutoff index
                          (fst (observe_all (map snd index) (advance 1 (clk w)))))),
     w') /\
    self w' = self w.
Proof.
  cbv zeta. unfold list_recent_stations, recent_stations, bind, timed, gets, ret.
  cbn [datetime_now self clk]. rewrite <- now_advance. cbn [datetime_now snd].
  pose proof (stations_since_keep_fresh
                (wall (clk w) (reads (clk w)) - timedelta_seconds within_seconds)
                (_last_seen_by_station (self w))
                {| wall := wall (clk w); reads := S (reads (clk w)) |}) as Heq.
  destruct (stations_since _ _ _) as [stations c2]. cbn [fst] in Heq. subst stations.
  eexists. split; reflexivity.
Qed.

(** Entries of the index of a store filled by inserts: the key is the source
    callsign of the packet, and is not empty. *)
Lemma run_inserts_index_keys retention_seconds max_items c ops callsign packet :
  dict_get callsign
    (_last_seen_by_station
       (self (run_inserts ops (fresh_world retention_seconds max_items c)))) =
  Some packet ->
  source_callsign packet = Some callsign /\ callsign <> EmptyString /\
  latest_from callsign (packets_of ops) = Some packet.
Proof.
  intros Hget.
  destruct (run_inserts_index retention_seconds max_items c ops)
    as (_ & Hempty & Hlatest).
  pose proof (Hlatest _ _ Hget) as Hl. split_and!; [| |exact Hl].
  - unfold latest_from in Hl. apply last_Some_elem_of in Hl.
    apply list_elem_of_filter in Hl. tauto.
  - intros ->. congruence.
Qed.

Lemma station_values_callsigns (d : dict PacketEvent) :
  (forall k p, (k, p) ∈ d -> source_callsign p = Some k) ->
  map source_callsign (map snd d) = Some <$> dict_keys d.
Proof.
  induction d as [|[k p] rest IH]; intros Hall; [reflexivity|].
  cbn. rewrite (Hall k p) by now left.
  rewrite IH by (intros k' p' Hin; apply Hall; now right). reflexivity.
Qed.

(** The stations endpoint after any sequence of inserts into a fresh
    store. *)
Lemma storage_recent_stations
    (retention_seconds max_items : Z) (c : clock)
    (ops : list insert_op) (within_seconds : Z) :
  let w := run_inserts ops (fresh_world retention_seconds max_items c) in
  let cutoff := wall (clk w) (reads (clk w)) - timedelta_seconds within_seconds in
  exists stations w',
    list_recent_stations within_seconds w = (Returned stations, w') /\
    self w' = self w /\
    NoDup (map source_callsign stations) /\
    (forall packet, packet ∈ stations ->
       exists callsign,
         source_callsign packet = Some callsign /\ callsign <> EmptyString /\
         latest_from callsign (packets_of ops) = Some packet /\
         forall ts, stored_datetime packet = Some ts -> cutoff <= ts) /\
    (forall callsign packet ts,
       dict_get callsign (_last_seen_by_station (self w)) = Some packet ->
       stored_datetime packet = Some ts -> cutoff <= ts ->
       packet ∈ stations).
Proof.
  intros w cutoff.
  destruct (list_recent_stations_eq within_seconds w) as (w' & Hrun & Hself).
  cbv zeta in Hrun. fold cutoff in Hrun.
  set (index := _last_seen_by_station (self w)) in *.
  set (observed := fst (observe_all (map snd index) (advance 1 (clk w)))) in *.
  destruct (run_inserts_index retention_seconds max_items c ops) as (Hnd & _ & _).
  fold w in Hnd. fold index in Hnd.
  assert (Hnd' : NoDup index) by (apply (NoDup_fmap_1 fst); exact Hnd).
  assert (Hlen : length observed = length index).
  { unfold observed. rewrite observe_all_length. apply length_map. }
  assert (Hkey : forall k p, (k, p) ∈ index ->
             source_callsign p = Some k /\ k <> EmptyString /\
             latest_from k (packets_of ops) = Some p).
  { intros k p Hin. apply (dict_get_elem_of _ _ _ Hnd) in Hin.
    exact (run_inserts_index_keys _ _ _ _ _ _ Hin). }
  eexists; exists w'. split; [exact Hrun|]. split; [exact Hself|]. split_and!.
  - pose proof (keep_fresh_sublist cutoff index observed) as Hsub.
    assert (Hkeys : map source_callsign (map snd (keep_fresh cutoff index observed)) =
                    Some <$> dict_keys (keep_fresh cutoff index observed)).
    { apply station_values_callsigns. intros k p Hin. apply (Hkey k p).
      eapply elem_of_sublist; eassumption. }
    rewrite Hkeys. apply NoDup_fmap_2; [typeclasses eauto|].
    eapply sublist_keys_NoDup; eassumption.
  - intros packet Hin.
    change (map snd (keep_fresh cutoff index observed))
      with (snd <$> keep_fresh cutoff index observed) in Hin.
    apply list_elem_of_fmap in Hin as ([k p] & -> & Hin). cbn [snd].
    apply (keep_fresh_elem_of _ _ _ _ Hnd' Hlen) in Hin as (i & ts & Hi & Hobs & Hts).
    destruct (Hkey k p) as (Hsrc & Hne & Hlatest);
      [eapply list_elem_of_lookup_2; exact Hi|].
    exists k. split_and!; try assumption.
    intros ts' Hstored.
    destruct (observe_all_lookup (map snd index) (advance 1 (clk w)) i p)
      as (c' & _ & Hobs').
    { change (map snd index) with (snd <$> index). rewrite list_lookup_fmap.
      exact (f_equal (fmap snd) Hi). }
    rewrite (effective_datetime_stored _ _ _ Hstored) in Hobs'. cbn [fst] in Hobs'.
    fold observed in Hobs'. rewrite Hobs in Hobs'. injection Hobs' as <-. exact Hts.
  - intros callsign packet ts Hget Hstored Hts.
    apply (dict_get_elem_of _ _ _ Hnd) in Hget.
    apply list_elem_of_lookup_1 in Hget as (i & Hi).
    destruct (observe_all_lookup (map snd index) (advance 1 (clk w)) i packet)
      as (c' & _ & Hobs).
    { change (map snd index) with (snd <$> index). now rewrite list_lookup_fmap, Hi. }
    rewrite (effective_datetime_stored _ _ _ Hstored) in Hobs. cbn [fst] in Hobs.
    change (map snd (keep_fresh cutoff index observed))
      with (snd <$> keep_fresh cutoff index observed).
    apply list_elem_of_fmap. exists (callsign, packet). split; [reflexivity|].
    apply (keep_fresh_elem_of _ _ _ _ Hnd' Hlen). exists i, ts. auto.
Qed.

(** ** Ingestion: the store first, the hub second *)

Lemma run_inserts_cons op ops w :
  run_inserts (op :: ops) w = run_inserts ops (snd (apply_insert op w)).
Proof. reflexivity. Qed.

Lemma apply_insert_max_items op w :
  _max_items (self (snd (apply_insert op w))) = _max_items (self w).
Proof.
  destruct op as [p|s]; cbn [apply_insert].
  - now destruct (add_packet_frame p w) as (_ & _ & _ & -> & _).
  - now destruct (add_rssi_frame s w) as (_ & _ & _ & _ & -> & _).
Qed.

Lemma ingest_packets_from_eq accepted packets app :
  0 <= _max_items (self (world app)) ->
  ingest_packets_from accepted packets app =
  (Returned (accepted + length packets)%nat,
   {| settings := settings app;
      world := run_inserts (map InsertPacket packets) (world app);
      broadcast := run_hub (map HubPublish (map packet_message packets))
                     (broadcast app) |}).
Proof.
  revert accepted app. induction packets as [|p rest IH]; intros accepted app Hmax.
  - cbn. rewrite Nat.add_0_r. destruct app; reflexivity.
  - cbn [ingest_packets_from map length]. unfold bind at 1. unfold in_store at 1.
    pose proof (apply_insert_returns (InsertPacket p) (world app) Hmax) as Hr.
    pose proof (apply_insert_max_items (InsertPacket p) (world app)) as Hm.
    cbn [apply_insert] in Hr, Hm.
    destruct (add_packet p (world app)) as [r w1] eqn:E. cbn [fst snd] in Hr, Hm. subst r.
    unfold bind at 1. unfold in_hub at 1. cbn [broadcast]. rewrite publish_eq.
    rewrite IH by (cbn [world]; rewrite Hm; exact Hmax).
    cbn [settings world broadcast]. rewrite run_inserts_cons. cbn [apply_insert].
    rewrite E. cbn [snd].
    f_equal; [f_equal; lia|]. f_equal.
    unfold run_hub. cbn [fold_left apply_hub_op]. now rewrite publish_eq.
Qed.

Lemma ingest_rssi_from_eq accepted samples app :
  0 <= _max_items (self (world app)) ->
  ingest_rssi_from accepted samples app =
  (Returned (accepted + length samples)%nat,
   {| settings := settings app;
      world := run_inserts (map InsertRssi samples) (world app);
      broadcast := run_hub (map HubPublish (map rssi_message samples))
                     (broadcast app) |}).
Proof.
  revert accepted app. induction samples as [|s rest IH]; intros accepted app Hmax.
  - cbn. rewrite Nat.add_0_r. destruct app; reflexivity.
  - cbn [ingest_rssi_from map length]. unfold bind at 1. unfold in_store at 1.
    pose proof (apply_insert_returns (InsertRssi s) (world app) Hmax) as Hr.
    pose proof (apply_insert_max_items (InsertRssi s) (world app)) as Hm.
    cbn [apply_insert] in Hr, Hm.
    destruct (add_rssi s (world app)) as [r w1] eqn:E. cbn [fst snd] in Hr, Hm. subst r.
    unfold bind at 1. unfold in_hub at 1. cbn [broadcast]. rewrite publish_eq.
    rewrite IH by (cbn [world]; rewrite Hm; exact Hmax).
    cbn [settings world broadcast]. rewrite run_inserts_cons. cbn [apply_insert].
    rewrite E. cbn [snd].
    f_equal; [f_equal; lia|]. f_equal.
    unfold run_hub. cbn [fold_left apply_hub_op]. now rewrite publish_eq.
Qed.

(** A request stores and publishes its events in order. *)
Lemma storage_ingest_in_order
    (app : App) (packets : list PacketEvent) (samples : list RssiSample) :
  0 <= _max_items (self (world app)) ->
  ingest_packets packets app =
    (Returned (length packets),
     {| settings := settings app;
        world := run_inserts (map InsertPacket packets) (world app);
        broadcast := run_hub (map HubPublish (map packet_message packets))
                       (broadcast app) |}) /\
  ingest_rssi samples app =
    (Returned (length samples),
     {| settings := settings app;
        world := run_inserts (map InsertRssi samples) (world app);
        broadcast := run_hub (map HubPublish (map rssi_message samples))
                       (broadcast app) |}).
Proof.
  intros Hmax. split.
  - exact (ingest_packets_from_eq 0 packets app Hmax).
  - exact (ingest_rssi_from_eq 0 samples app Hmax).
Qed.




(** ** The stats endpoint *)

Lemma run_inserts_app ops ops' w :
  run_inserts (ops ++ ops') w = run_inserts ops' (run_inserts ops w).
Proof. unfold run_inserts. apply fold_left_app. Qed.

Lemma run_inserts_max_items ops w :
  _max_items (self (run_inserts ops w)) = _max_items (self w).
Proof.
  revert w. induction ops as [|op ops IH]; intros w; [reflexivity|].
  rewrite run_inserts_cons, IH. apply apply_insert_max_items.
Qed.

(** Both histories of a store filled by inserts respect a capacity that is
    not negative. *)
Lemma run_inserts_sizes retention_seconds max_items c ops :
  0 <= max_items ->
  let w := run_inserts ops (fresh_world retention_seconds max_items c) in
  Z.of_nat (length (_packets (self w))) <= max_items /\
  Z.of_nat (length (_rssi (self w))) <= max_items.
Proof.
  intros Hmax. induction ops as [|op ops IH] using rev_ind; cbv zeta.
  - cbn. lia.
  - rewrite run_inserts_snoc. cbv zeta in IH. destruct IH as [Hp Hr].
    pose proof (run_inserts_max_items ops
                  (fresh_world retention_seconds max_items c)) as Hm.
    set (w := run_inserts ops _) in *. cbn in Hm.
    destruct op as [p|s]; cbn [apply_insert].
    + destruct (add_packet_frame p w) as (_ & -> & _). split; [|exact Hr].
      rewrite add_packet_eq.
      assert (Hmax' : 0 <= _max_items (self (appended_packet p w)))
        by (cbn; rewrite Hm; exact Hmax).
      destruct (_trim_result packets_ref true _ Hmax') as (w' & -> & Hkept).
      cbn [snd]. change (_packets (self w')) with (deref packets_ref (self w')).
      rewrite Hkept, length_drop. unfold excess.
      cbn [appended_packet self _max_items]. rewrite Hm. lia.
    + destruct (add_rssi_frame s w) as (_ & -> & _). split; [exact Hp|].
      rewrite add_rssi_eq.
      assert (Hmax' : 0 <= _max_items (self (appended_sample s w)))
        by (cbn; rewrite Hm; exact Hmax).
      destruct (_trim_result rssi_ref false _ Hmax') as (w' & -> & Hkept).
      cbn [snd]. change (_rssi (self w')) with (deref rssi_ref (self w')).
      rewrite Hkept, length_drop. unfold excess.
      cbn [appended_sample self _max_items]. rewrite Hm. lia.
Qed.

(** What the requests served leave of the application, on a store whose
    capacity is not negative. *)
Lemma interleave_world requests app :
  0 <= _max_items (self (world app)) ->
  settings (interleave requests app) = settings app /\
  world (interleave requests app) =
  run_inserts (concat (map inserts_of requests)) (world app).
Proof.
  revert app. induction requests as [|r rest IH]; intros app Hmax.
  - split; reflexivity.
  - unfold interleave in *. cbn [fold_left map concat]. rewrite run_inserts_app.
    assert (Hstep : settings (snd (handle r app)) = settings app /\
                    world (snd (handle r app)) = run_inserts (inserts_of r) (world app)).
    { destruct r as [packets|samples]; cbn [handle inserts_of].
      - unfold ingest_packets. rewrite ingest_packets_from_eq by exact Hmax.
        split; reflexivity.
      - unfold ingest_rssi. rewrite ingest_rssi_from_eq by exact Hmax.
        split; reflexivity. }
    destruct Hstep as [Hs Hw].
    destruct (IH (snd (handle r app))) as [Hs' Hw'].
    { rewrite Hw, run_inserts_max_items. exact Hmax. }
    rewrite Hs', Hw', Hs, Hw. split; reflexivity.
Qed.

(** ** The stream session *)

Lemma take_message_eq queue hub :
  take_message queue hub =
  match _listeners hub !! queue with
  | None => (Returned None, hub)
  | Some q =>
      match _queue q with
      | [] =>
          (Returned None,
           {| _listeners := <[queue := q]> (_listeners hub);
              next_handle := next_handle hub |})
      | message :: rest =>
          (Returned (Some message),
           {| _listeners := <[queue := {| maxsize := maxsize q; _queue := rest |}]>
                              (_listeners hub);
              next_handle := next_handle hub |})
      end
  end.
Proof.
  unfold take_message, on_queue, try_except, bind, get_nowait, ret.
  destruct (_listeners hub !! queue) as [q|]; [|reflexivity].
  destruct (_queue q) as [|message rest]; [|reflexivity].
  rewrite decide_True by reflexivity. reflexivity.
Qed.

(** The loop returns, with one message per turn at most. *)
Lemma live_returns queue turns app :
  exists messages app',
    live queue turns app = (Returned messages, app') /\
    (length messages <= length turns)%nat.
Proof.
  revert app. induction turns as [|[|others] rest IH]; intros app.
  - exists [], app. split; [reflexivity|cbn; lia].
  - exists [], app. split; [reflexivity|cbn; lia].
  - cbn [live]. unfold bind at 1. unfold modify at 1.
    unfold bind at 1. unfold in_hub at 1. rewrite take_message_eq.
    set (app1 := interleave others app).
    destruct (_listeners (broadcast app1) !! queue) as [q|].
    + destruct (_queue q) as [|message pending].
      * unfold bind at 1. unfold in_store, timed, datetime_now at 1. cbn [world clk].
        unfold bind at 1.
        match goal with |- context [live queue rest ?a] =>
          destruct (IH a) as (more & app' & -> & Hlen) end.
        eexists; eexists. split; [reflexivity|]. cbn. lia.
      * unfold bind at 1.
        match goal with |- context [live queue rest ?a] =>
          destruct (IH a) as (more & app' & -> & Hlen) end.
        eexists; eexists. split; [reflexivity|]. cbn. lia.
    + unfold bind at 1. unfold in_store, timed, datetime_now at 1. cbn [world clk].
      unfold bind at 1.
      match goal with |- context [live queue rest ?a] =>
        destruct (IH a) as (more & app' & -> & Hlen) end.
      eexists; eexists. split; [reflexivity|]. cbn. lia.
Qed.

Lemma live_quiet queue n : forall app q,
  _listeners (broadcast app) !! queue = Some q ->
  exists app',
    live queue (replicate n (Waits [])) app =
    (Returned (take n (_queue q) ++
               map heartbeat (readings (clk (world app)) (n - length (_queue q)))),
     app') /\
    pending queue app' = drop n (_queue q).
Proof.
  induction n as [|n IH]; intros app q Hq.
  - exists app. split; [reflexivity|]. unfold pending. now rewrite Hq.
  - cbn [replicate live]. unfold bind at 1. unfold modify at 1.
    unfold bind at 1. unfold in_hub at 1. rewrite take_message_eq.
    cbn [interleave fold_left]. rewrite Hq.
    destruct (_queue q) as [|message rest] eqn:Hpending.
    + unfold bind at 1. unfold in_store, timed, datetime_now at 1. cbn [world clk].
      unfold bind at 1.
      match goal with |- context [live queue _ ?a] =>
        destruct (IH a q) as (app' & -> & Hrest) end.
      { cbn. apply lookup_insert_eq. }
      exists app'. cbn [world clk self]. rewrite Hpending in *. cbn [length take Datatypes.app].
      rewrite !Nat.sub_0_r, take_nil in *. cbn [readings map Datatypes.app].
      rewrite <- now_advance. cbn [datetime_now snd]. split; [reflexivity|].
      rewrite Hrest. now rewrite !drop_nil.
    + unfold bind at 1.
      match goal with |- context [live queue _ ?a] =>
        destruct (IH a {| maxsize := maxsize q; _queue := rest |})
          as (app' & -> & Hrest) end.
      { cbn. apply lookup_insert_eq. }
      exists app'. cbn [world _queue length take drop Datatypes.app Nat.sub].
      split; [reflexivity|].
      exact Hrest.
Qed.

(** X11.  A session whose consumer takes the whole replay, while no other
    request is served and the client stays connected: in [n] turns it emits
    the replay, then the messages pending in its queue, oldest first, and
    only once the queue is empty one heartbeat per turn, each stamped with
    the next reading of the clock. *)
Theorem quiet_session_drains_queue_then_beats
    (initial_messages : list StreamMessage) (queue consumed n : nat)
    (app : App) (q : Queue) :
  _listeners (broadcast app) !! queue = Some q ->
  (length initial_messages <= consumed)%nat ->
  fst (event_publisher initial_messages queue consumed (replicate n (Waits [])) app) =
  Returned (initial_messages ++
            take n (_queue q) ++
            map heartbeat (readings (clk (world app)) (n - length (_queue q)))).
Proof.
  intros Hq Hge. unfold event_publisher, try_finally.
  destruct (Nat.ltb_spec consumed (length initial_messages)) as [Hlt|_]; [lia|].
  unfold bind. destruct (live_quiet queue n app q Hq) as (app' & -> & _).
  reflexivity.
Qed.

Lemma quiet_session_drains_queue_then_beats_witness :
  let m1 := packet_message (packet_at "N0CALL-1" (seconds 995)) in
  let m2 := packet_message (packet_at "N0CALL-2" (seconds 996)) in
  let app0 := snd (in_hub subscribe (default_app (ticking (seconds 1000)))) in
  let app := snd (in_hub (publish m2) app0) in
  _listeners (broadcast app) !! 0%nat = Some {| maxsize := 512; _queue := [m2] |} /\
  (length [m1] <= 1)%nat /\
  fst (event_publisher [m1] 0%nat 1%nat (replicate 3 (Waits [])) app) =
  Returned [m1; m2; heartbeat (seconds 1000); heartbeat (seconds 1000 + 1)].
Proof.
  intros m1 m2 app0 app.
  assert (Hq : _listeners (broadcast app) !! 0%nat =
               Some {| maxsize := 512; _queue := [m2] |}) by (vm_compute; reflexivity).
  assert (Hge : (length [m1] <= 1)%nat) by (cbn; lia).
  split; [exact Hq|]. split; [exact Hge|].
  exact (quiet_session_drains_queue_then_beats [m1] 0%nat 1%nat 3%nat app _ Hq Hge).
Defined.

(** ** The passcode of a callsign *)

Section PasscodeFacts.
Import Passcode.

Lemma ord_range ch : 0 <= ord ch < 256.
Proof.
  unfold ord. pose proof (Ascii.N_ascii_bounded ch). lia.
Qed.

Lemma upper_alnum_not_space ch : is_upper_alnum ch = true -> isspace ch = false.
Proof. unfold is_upper_alnum, isspace. cbv zeta. lia. Qed.

Lemma upper_alnum_not_hyphen ch : is_upper_alnum ch = true -> (ord ch =? 45) = false.
Proof. unfold is_upper_alnum. cbv zeta. lia. Qed.

Lemma upper_alnum_fixed ch : is_upper_alnum ch = true -> upper_char ch = ch.
Proof.
  unfold is_upper_alnum, upper_char. cbv zeta. intros H.
  destruct ((97 <=? ord ch) && (ord ch <=? 122)) eqn:E; [lia|reflexivity].
Qed.

Lemma ord_upper_char ch :
  ord (upper_char ch) = if (97 <=? ord ch) && (ord ch <=? 122) then ord ch - 32 else ord ch.
Proof.
  unfold upper_char. cbv zeta.
  destruct ((97 <=? ord ch) && (ord ch <=? 122)) eqn:E; [|reflexivity].
  unfold ord at 1. rewrite Ascii.N_ascii_embedding by lia. lia.
Qed.

Lemma isspace_upper_char ch : isspace (upper_char ch) = isspace ch.
Proof.
  unfold isspace. cbv zeta. rewrite ord_upper_char.
  destruct ((97 <=? ord ch) && (ord ch <=? 122)) eqn:E; [lia|reflexivity].
Qed.

Lemma upper_char_idemp ch : upper_char (upper_char ch) = upper_char ch.
Proof.
  unfold upper_char at 1. cbv zeta. rewrite ord_upper_char.
  destruct ((97 <=? ord ch) && (ord ch <=? 122)) eqn:E.
  - destruct ((97 <=? ord ch - 32) && (ord ch - 32 <=? 122)) eqn:E'; [lia|reflexivity].
  - now rewrite E.
Qed.

Lemma lstrip_starts_clean s : starts_clean (lstrip s).
Proof.
  induction s as [|ch rest IH]; cbn [lstrip]; [exact I|].
  destruct (isspace ch) eqn:E; [exact IH|exact E].
Qed.

Lemma lstrip_fixed s : starts_clean s -> lstrip s = s.
Proof. destruct s as [|ch rest]; cbn; [reflexivity|]. now intros ->. Qed.

Lemma ends_clean_cons ch s : s <> [] -> ends_clean (ch :: s) <-> ends_clean s.
Proof. destruct s as [|k ks]; [congruence|]. intros _. reflexivity. Qed.

Lemma rstrip_ends_clean s : ends_clean (rstrip s).
Proof.
  induction s as [|ch rest IH]; cbn [rstrip]; [exact I|].
  destruct (rstrip rest) as [|k ks].
  - destruct (isspace ch) eqn:E; [exact I|exact E].
  - apply ends_clean_cons; [discriminate|exact IH].
Qed.

Lemma rstrip_fixed s : ends_clean s -> rstrip s = s.
Proof.
  induction s as [|ch rest IH]; [reflexivity|]. intros Hc. cbn [rstrip].
  destruct rest as [|k ks].
  - cbn in *. now rewrite Hc.
  - apply ends_clean_cons in Hc; [|discriminate]. now rewrite (IH Hc).
Qed.

Lemma rstrip_starts_clean s : starts_clean s -> starts_clean (rstrip s).
Proof.
  destruct s as [|ch rest]; [trivial|]. cbn [rstrip starts_clean]. intros Hc.
  destruct (rstrip rest); [rewrite Hc|]; exact Hc.
Qed.

Lemma strip_clean s : starts_clean (strip s) /\ ends_clean (strip s).
Proof.
  unfold strip. split; [|apply rstrip_ends_clean].
  apply rstrip_starts_clean, lstrip_starts_clean.
Qed.

Lemma strip_fixed s : starts_clean s -> ends_clean s -> strip s = s.
Proof. intros Hs He. unfold strip. now rewrite (lstrip_fixed s Hs), (rstrip_fixed s He). Qed.

Lemma upper_starts_clean s : starts_clean s -> starts_clean (upper s).
Proof. destruct s as [|ch rest]; [trivial|]. cbn. now rewrite isspace_upper_char. Qed.

Lemma upper_ends_clean s : ends_clean s -> ends_clean (upper s).
Proof.
  unfold ends_clean, upper. change (map upper_char s) with (upper_char <$> s).
  rewrite fmap_last. destruct (last s) as [ch|]; cbn; [|trivial].
  now rewrite isspace_upper_char.
Qed.

Lemma upper_idemp s : upper (upper s) = upper s.
Proof.
  unfold upper. rewrite map_map. apply map_ext. intros ch. apply upper_char_idemp.
Qed.

Lemma upper_fixed s : all_upper_alnum s -> upper s = s.
Proof.
  induction 1 as [|ch rest Hch _ IH]; [reflexivity|].
  cbn. unfold upper in IH. now rewrite IH, (upper_alnum_fixed ch Hch).
Qed.

Lemma all_upper_alnum_clean s : all_upper_alnum s -> starts_clean s /\ ends_clean s.
Proof.
  intros Hall. split.
  - destruct Hall as [|ch rest Hch _]; [exact I|]. now apply upper_alnum_not_space.
  - unfold ends_clean. destruct (last s) as [ch|] eqn:E; [|exact I].
    apply last_Some_elem_of in E. apply upper_alnum_not_space.
    unfold all_upper_alnum in Hall. rewrite Forall_forall in Hall. now apply Hall.
Qed.

Lemma span_alnum_spec s :
  s = fst (span_alnum s) ++ snd (span_alnum s) /\
  all_upper_alnum (fst (span_alnum s)) /\
  match snd (span_alnum s) with
  | [] => True
  | ch :: _ => is_upper_alnum ch = false
  end.
Proof.
  induction s as [|ch rest IH]; cbn [span_alnum].
  - split; [reflexivity|]. split; [constructor|exact I].
  - destruct (is_upper_alnum ch) eqn:E.
    + destruct (span_alnum rest) as [run after]. cbn [fst snd] in *.
      destruct IH as (-> & Hall & Hafter). split; [reflexivity|].
      split; [now constructor|exact Hafter].
    + cbn. split; [reflexivity|]. split; [constructor|exact E].
Qed.

Lemma span_alnum_all s : all_upper_alnum s -> span_alnum s = (s, []).
Proof.
  induction 1 as [|ch rest Hch _ IH]; [reflexivity|].
  cbn [span_alnum]. now rewrite Hch, IH.
Qed.

Lemma before_hyphen_run run after :
  all_upper_alnum run ->
  match after with [] => True | ch :: _ => (ord ch =? 45) = true end ->
  before_hyphen (run ++ after) = run.
Proof.
  intros Hall Hafter.
  induction Hall as [|ch rest Hch _ IH]; cbn [before_hyphen Datatypes.app].
  - destruct after as [|ch rest]; [reflexivity|]. cbn [before_hyphen].
    now rewrite Hafter.
  - now rewrite (upper_alnum_not_hyphen ch Hch), IH.
Qed.

(** What [validate_callsign] has accepted: a base of one to six characters
    of [[A-Z0-9]], alone or followed by a hyphen and more. *)
Lemma validated_shape callsign normalized :
  validate_callsign callsign = Ok normalized ->
  normalized = upper (strip callsign) /\
  let base := before_hyphen normalized in
  all_upper_alnum base /\ (1 <= length base <= 6)%nat /\
  (normalized = base \/ exists ssid, normalized = base ++ ssid /\
                                     match ssid with
                                     | ch :: _ => (ord ch =? 45) = true
                                     | [] => False
                                     end).
Proof.
  unfold validate_callsign. cbv zeta.
  destruct (strip_clean callsign) as [Hs He].
  apply upper_starts_clean in Hs. apply upper_ends_clean in He.
  set (n := upper (strip callsign)) in *.
  destruct n as [|c0 cs] eqn:En; [discriminate|]. rewrite <- En in *.
  destruct (callsign_pattern_match n) eqn:Hm; [|discriminate].
  cbn [negb]. intros [= <-]. split; [reflexivity|].
  unfold callsign_pattern_match in Hm.
  destruct (span_alnum_spec n) as (Hn & Hrun & _).
  destruct (span_alnum n) as [run after]. cbn [fst snd] in *.
  apply andb_prop in Hm as [Hlen Hrest].
  assert (Hshape : after = [] \/ match after with
                                 | ch :: _ => (ord ch =? 45) = true
                                 | [] => False
                                 end).
  { apply orb_prop in Hrest as [Hd|Hh].
    - left. destruct after as [|ch [|? ?]]; [reflexivity| |discriminate].
      exfalso. cbn in Hd. unfold ends_clean in He. rewrite Hn, last_snoc in He.
      unfold isspace in He. cbv zeta in He. apply Z.eqb_eq in Hd.
      rewrite Hd in He. discriminate He.
    - right. destruct after as [|ch ssid]; [discriminate|].
      now apply andb_prop in Hh as [Hh _]. }
  assert (Hbase : before_hyphen n = run).
  { rewrite Hn. apply before_hyphen_run; [exact Hrun|].
    destruct Hshape as [->|Hh]; [exact I|]. destruct after; [contradiction|exact Hh]. }
  rewrite Hbase. split; [exact Hrun|]. split.
  { apply andb_prop in Hlen as [H1 H2]. apply Nat.leb_le in H1, H2. lia. }
  destruct Hshape as [->|Hh].
  - left. now rewrite Hn, app_nil_r.
  - right. exists after. split; [exact Hn|exact Hh].
Qed.

(** A base callsign is valid as it is, and is its own normal form. *)
Lemma base_is_valid base :
  all_upper_alnum base -> (1 <= length base <= 6)%nat ->
  validate_callsign base = Ok base /\ normalize_callsign base = base.
Proof.
  intros Hall Hlen.
  destruct (all_upper_alnum_clean base Hall) as [Hs He].
  unfold validate_callsign, normalize_callsign. cbv zeta.
  rewrite (strip_fixed base Hs He), (upper_fixed base Hall). split.
  - destruct base as [|c0 cs] eqn:Eb; [cbn in Hlen; lia|]. rewrite <- Eb in *.
    unfold callsign_pattern_match. rewrite (span_alnum_all base Hall). cbn [at_dollar].
    replace ((1 <=? length base)%nat) with true by (symmetry; apply Nat.leb_le; lia).
    replace ((length base <=? 6)%nat) with true by (symmetry; apply Nat.leb_le; lia).
    reflexivity.
  - rewrite <- (app_nil_r base) at 1. now apply before_hyphen_run.
Qed.

Lemma mix_bounds base :
  all_upper_alnum base ->
  forall code, 0 <= code < 32768 -> 0 <= mix code base < 32768.
Proof.
  intros Hall.
  assert (Hch : forall ch, is_upper_alnum ch = true -> 0 <= ord ch < 128).
  { intros ch. unfold is_upper_alnum. cbv zeta. lia. }
  assert (Hxor : forall a b, 0 <= a < 2 ^ 15 -> 0 <= b < 2 ^ 15 ->
                             0 <= Z.lxor a b < 2 ^ 15).
  { intros a b Ha Hb. split; [apply Z.lxor_nonneg; lia|].
    destruct (Z.eq_dec (Z.lxor a b) 0) as [->|Hne]; [lia|].
    apply Z.log2_lt_pow2; [pose proof (proj2 (Z.lxor_nonneg a b)); lia|].
    eapply Z.le_lt_trans; [apply Z.log2_lxor; lia|].
    apply Z.max_lub_lt.
    - destruct (Z.eq_dec a 0) as [->|]; [cbn; lia|]. apply Z.log2_lt_pow2; lia.
    - destruct (Z.eq_dec b 0) as [->|]; [cbn; lia|]. apply Z.log2_lt_pow2; lia. }
  assert (Hhi : forall ch, is_upper_alnum ch = true ->
                           0 <= Z.shiftl (ord ch) 8 < 2 ^ 15).
  { intros ch H. specialize (Hch ch H). rewrite Z.shiftl_mul_pow2 by lia. lia. }
  change 32768 with (2 ^ 15).
  induction base as [base IH] using (induction_ltof1 _ (@length Ascii.ascii)).
  unfold ltof in IH. intros code Hcode.
  destruct base as [|hi [|lo rest]]; cbn [mix].
  - exact Hcode.
  - apply Forall_cons in Hall as [Hhi1 _]. apply Hxor; [exact Hcode|now apply Hhi].
  - apply Forall_cons in Hall as [Hhi1 Hall]. apply Forall_cons in Hall as [Hlo1 Hall].
    apply IH; [cbn; lia|exact Hall|].
    apply Hxor; [apply Hxor; [exact Hcode|now apply Hhi]|].
    specialize (Hch lo Hlo1). lia.
Qed.

End PasscodeFacts.

Section PasscodeTheorems.
Import Passcode.

(** The published passcode of N0CALL, with and without SSID, case and
    blanks. *)
Example passcode_of_N0CALL :
  generate_passcode (String.list_ascii_of_string "N0CALL") = Ok 13023 /\
  generate_passcode (String.list_ascii_of_string " n0call-10 ") = Ok 13023.
Proof. split; vm_compute; reflexivity. Qed.

(** X12.  When [generate_passcode] returns a code for an ASCII callsign, the
    base [normalize_callsign] gives is one to six characters of A-Z and 0-9,
    the code is the code of that base alone (the SSID, the case and the
    surrounding blanks of the callsign do not count), it lies between 0 and
    32767, and the final mask has removed nothing. *)
Theorem passcode_depends_on_base_only (callsign : pystr) (code : Z) :
  is_ascii callsign ->
  generate_passcode callsign = Ok code ->
  let base := normalize_callsign callsign in
  all_upper_alnum base /\
  (1 <= length base <= 6)%nat /\
  generate_passcode base = Ok code /\
  code = mix 0x73E2 base /\
  0 <= code <= 32767.
Proof.
  intros _ Hgen base. unfold generate_passcode in Hgen.
  destruct (validate_callsign callsign) as [normalized|e] eqn:Hv; [|discriminate].
  injection Hgen as <-. fold base.
  destruct (validated_shape callsign normalized Hv) as (-> & Hall & Hlen & _).
  change (before_hyphen (upper (strip callsign))) with base in Hall, Hlen.
  destruct (base_is_valid base Hall Hlen) as [Hvb Hnb].
  assert (Hmix : 0 <= mix 0x73E2 base < 32768) by (apply mix_bounds; [exact Hall|lia]).
  assert (Hmask : Z.land (mix 0x73E2 base) 0x7FFF = mix 0x73E2 base).
  { change 0x7FFF with (Z.ones 15). rewrite Z.land_ones by lia.
    apply Z.mod_small. change (2 ^ 15) with 32768. lia. }
  split; [exact Hall|]. split; [exact Hlen|]. split.
  - unfold generate_passcode. now rewrite Hvb, Hnb.
  - rewrite Hmask. split; [reflexivity|lia].
Qed.

Lemma passcode_depends_on_base_only_witness :
  let callsign := String.list_ascii_of_string " kc9mhe-10 " in
  is_ascii callsign /\
  generate_passcode callsign = Ok 18857 /\
  generate_passcode (String.list_ascii_of_string "KC9MHE") = Ok 18857.
Proof.
  intros callsign.
  assert (Hascii : is_ascii callsign) by (repeat (constructor; [reflexivity|]); constructor).
  assert (Hgen : generate_passcode callsign = Ok 18857) by (vm_compute; reflexivity).
  split; [exact Hascii|]. split; [exact Hgen|].
  exact (proj1 (proj2 (proj2 (passcode_depends_on_base_only callsign 18857 Hascii Hgen)))).
Defined.

(** X13.  What [validate_callsign] returns for an ASCII callsign is a normal
    form: it is the callsign stripped and in upper case, it validates to
    itself, and it has the base and the passcode of the callsign it came
    from. *)
Theorem validated_callsign_is_normal_form (callsign normalized : pystr) :
  is_ascii callsign ->
  validate_callsign callsign = Ok normalized ->
  normalized = upper (strip callsign) /\
  validate_callsign normalized = Ok normalized /\
  normalize_callsign normalized = normalize_callsign callsign /\
  generate_passcode normalized = generate_passcode callsign.
Proof.
  intros _ Hv.
  destruct (validated_shape callsign normalized Hv) as (Hn & _).
  destruct (strip_clean callsign) as [Hs He].
  apply upper_starts_clean in Hs. apply upper_ends_clean in He.
  rewrite <- Hn in Hs, He.
  assert (Hfix : upper (strip normalized) = normalized).
  { rewrite (strip_fixed normalized Hs He). rewrite Hn. apply upper_idemp. }
  assert (Hv' : validate_callsign normalized = Ok normalized).
  { unfold validate_callsign in *. cbv zeta in *. rewrite Hfix.
    rewrite <- Hn in Hv. destruct normalized as [|c0 cs]; [discriminate|].
    destruct (callsign_pattern_match (c0 :: cs)); [reflexivity|discriminate]. }
  assert (Hb : normalize_callsign normalized = normalize_callsign callsign).
  { unfold normalize_callsign. cbv zeta. now rewrite Hfix, Hn. }
  split; [exact Hn|]. split; [exact Hv'|]. split; [exact Hb|].
  unfold generate_passcode. now rewrite Hv, Hv', Hb.
Qed.

Lemma validated_callsign_is_normal_form_witness :
  let callsign := String.list_ascii_of_string " kc9mhe-10 " in
  let normalized := String.list_ascii_of_string "KC9MHE-10" in
  is_ascii callsign /\
  validate_callsign callsign = Ok normalized /\
  validate_callsign normalized = Ok normalized.
Proof.
  intros callsign normalized.
  assert (Hascii : is_ascii callsign) by (repeat (constructor; [reflexivity|]); constructor).
  assert (Hv : validate_callsign callsign = Ok normalized) by (vm_compute; reflexivity).
  split; [exact Hascii|]. split; [exact Hv|].
  exact (proj1 (proj2 (validated_callsign_is_normal_form callsign normalized Hascii Hv))).
Defined.

End PasscodeTheorems.

(** ** Posting a fixture in batches *)

Section ReplayFacts.
Import Replay.
Context {A : Type}.
Implicit Types (events : list A) (post : nat -> list A -> bool).

Lemma range_up_concat events batch_size fuel k :
  0 < batch_size ->
  (length events - k <= fuel)%nat ->
  concat ((fun s => slice events s batch_size)
            <$> range_up fuel (Z.of_nat k) (Z.of_nat (length events)) batch_size)
  = drop k events.
Proof.
  intros Hb. revert k. induction fuel as [|fuel IH]; intros k Hk.
  - cbn. symmetry. apply drop_ge. lia.
  - cbn [range_up]. destruct (Z.ltb_spec (Z.of_nat k) (Z.of_nat (length events))) as [Hlt|Hge].
    + cbn [fmap list_fmap concat].
      replace (Z.of_nat k + batch_size) with (Z.of_nat (k + Z.to_nat batch_size)) by lia.
      rewrite IH by lia. unfold slice. rewrite Nat2Z.id.
      rewrite <- drop_drop. apply take_drop.
    + cbn. symmetry. apply drop_ge. lia.
Qed.

Lemma range_up_sizes events batch_size fuel k :
  0 < batch_size ->
  Forall (fun c => (0 < length c)%nat /\ Z.of_nat (length c) <= batch_size)
    ((fun s => slice events s batch_size)
       <$> range_up fuel (Z.of_nat k) (Z.of_nat (length events)) batch_size).
Proof.
  intros Hb. revert k. induction fuel as [|fuel IH]; intros k; [constructor|].
  cbn [range_up]. destruct (Z.ltb_spec (Z.of_nat k) (Z.of_nat (length events))) as [Hlt|Hge];
    [|constructor].
  cbn [fmap list_fmap]. constructor.
  - unfold slice. rewrite Nat2Z.id, length_take, length_drop. lia.
  - replace (Z.of_nat k + batch_size) with (Z.of_nat (k + Z.to_nat batch_size)) by lia.
    apply IH.
Qed.

Lemma range_up_full events batch_size fuel k i c :
  0 < batch_size ->
  let chunks := (fun s => slice events s batch_size)
                  <$> range_up fuel (Z.of_nat k) (Z.of_nat (length events)) batch_size in
  chunks !! i = Some c -> (S i < length chunks)%nat ->
  Z.of_nat (length c) = batch_size.
Proof.
  intros Hb. cbv zeta. revert k i. induction fuel as [|fuel IH]; intros k i; [discriminate|].
  cbn [range_up]. destruct (Z.ltb_spec (Z.of_nat k) (Z.of_nat (length events))) as [Hlt|Hge];
    [|discriminate].
  cbn [fmap list_fmap].
  replace (Z.of_nat k + batch_size) with (Z.of_nat (k + Z.to_nat batch_size)) by lia.
  destruct i as [|i]; cbn [lookup list_lookup length].
  - intros [= <-] Hlen.
    destruct fuel as [|fuel']; [cbn in Hlen; lia|].
    cbn [range_up] in Hlen.
    destruct (Z.ltb_spec (Z.of_nat (k + Z.to_nat batch_size)) (Z.of_nat (length events)));
      [|cbn in Hlen; lia].
    unfold slice. rewrite Nat2Z.id, length_take, length_drop. lia.
  - intros Hc Hlen. apply (IH _ i Hc). lia.
Qed.

Lemma post_chunks_spec post events batch_size starts sent :
  let chunks := (fun s => slice events s batch_size) <$> starts in
  let run := post_chunks post events batch_size starts sent in
  exists n,
    (n <= length chunks)%nat /\
    snd run = sent ++ take n chunks /\
    (forall i c, chunks !! i = Some c -> (S i < n)%nat -> post (length sent + i)%nat c = true) /\
    ((fst run = inr tt /\ n = length chunks /\
      forall i c, chunks !! i = Some c -> post (length sent + i)%nat c = true)
     \/
     (fst run = inl HTTPStatusError /\
      exists m c, n = S m /\ chunks !! m = Some c /\ post (length sent + m)%nat c = false)).
Proof.
  cbv zeta. revert sent. induction starts as [|start rest IH]; intros sent.
  - exists 0%nat. cbn. rewrite app_nil_r. split_and!; try done. left. done.
  - cbn [post_chunks fmap list_fmap]. cbv zeta.
    destruct (post (length sent) (slice events start batch_size)) eqn:Hpost.
    + destruct (IH (sent ++ [slice events start batch_size])) as (n & Hn & Hsent & Hbefore & Hend).
      exists (S n). rewrite length_app in Hbefore, Hend. cbn [length] in Hbefore, Hend.
      assert (Hshift : forall i, (length sent + S i = length sent + 1 + i)%nat) by (intros; lia).
      split_and!.
      * cbn. lia.
      * rewrite Hsent. cbn [take]. now rewrite <- app_assoc.
      * intros [|i] c; cbn [lookup list_lookup].
        -- intros [= <-] _. now rewrite Nat.add_0_r.
        -- intros Hc Hi. rewrite Hshift. apply Hbefore; [exact Hc|lia].
      * destruct Hend as [(Hr & -> & Hall)|(Hr & m & c & -> & Hc & Hp)].
        -- left. split_and!; [exact Hr|reflexivity|].
           intros [|i] c; cbn [lookup list_lookup].
           ++ intros [= <-]. now rewrite Nat.add_0_r.
           ++ intros Hc. rewrite Hshift. now apply Hall.
        -- right. split; [exact Hr|]. exists (S m), c.
           split_and!; [reflexivity|exact Hc|]. now rewrite Hshift.
    + exists 1%nat. cbn [fst snd length take]. split_and!.
      * lia.
      * now rewrite take_0.
      * intros i c _ Hi. lia.
      * right. split; [reflexivity|].
        exists 0%nat, (slice events start batch_size). rewrite Nat.add_0_r. now split_and!.
Qed.

(** X14. [post_events] with a positive batch size sends consecutive slices of
    the events: what has been sent is, in order, a prefix of the events, every
    request is non-empty and holds at most [batch_size] events, and every
    request before the last one sent holds exactly [batch_size] events and was
    accepted.  Either it returns normally, every request was accepted and all
    events were sent; or it raises the HTTP status error, and the last request
    sent is the one that was refused. *)
Theorem post_events_sends_consecutive_batches post events batch_size :
  0 < batch_size ->
  let result := fst (post_events post events batch_size) in
  let sent := snd (post_events post events batch_size) in
  concat sent `prefix_of` events /\
  Forall (fun c => (0 < length c)%nat /\ Z.of_nat (length c) <= batch_size) sent /\
  (forall i c, sent !! i = Some c -> (S i < length sent)%nat ->
     Z.of_nat (length c) = batch_size /\ post i c = true) /\
  ((result = inr tt /\ concat sent = events /\
    forall i c, sent !! i = Some c -> post i c = true)
   \/
   (result = inl HTTPStatusError /\
    exists m c, length sent = S m /\ sent !! m = Some c /\ post m c = false)).
Proof.
  intros Hb. cbv zeta. unfold post_events, batch_starts.
  destruct (Z.eqb_spec batch_size 0) as [|_]; [lia|].
  destruct (Z.ltb_spec batch_size 0) as [|_]; [lia|].
  set (starts := range_up (length events) 0 (Z.of_nat (length events)) batch_size).
  set (chunks := (fun s => slice events s batch_size) <$> starts).
  assert (Hcat : concat chunks = events).
  { unfold chunks, starts. now rewrite (range_up_concat events batch_size _ 0%nat) by lia. }
  assert (Hsz : Forall (fun c => (0 < length c)%nat /\ Z.of_nat (length c) <= batch_size) chunks).
  { exact (range_up_sizes events batch_size (length events) 0%nat Hb). }
  assert (Hfull : forall i c, chunks !! i = Some c -> (S i < length chunks)%nat ->
                              Z.of_nat (length c) = batch_size).
  { intros i c. exact (range_up_full events batch_size (length events) 0%nat i c Hb). }
  destruct (post_chunks_spec post events batch_size starts []) as (n & Hn & Hsent & Hbefore & Hend).
  fold chunks in Hn, Hsent, Hbefore, Hend. cbn [app length Nat.add] in Hsent, Hbefore, Hend.
  rewrite Hsent.
  assert (Hlen : length (take n chunks) = n) by (rewrite length_take; lia).
  rewrite Hlen.
  split_and!.
  - assert (Hpre : concat (take n chunks) `prefix_of` concat chunks).
    { exists (concat (drop n chunks)). now rewrite <- concat_app, take_drop. }
    now rewrite Hcat in Hpre.
  - now apply Forall_take.
  - intros i c Hc Hi. rewrite lookup_take_lt in Hc by lia. split.
    + apply (Hfull i c Hc). lia.
    + now apply Hbefore.
  - destruct Hend as [(Hr & -> & Hall)|(Hr & m & c & -> & Hc & Hp)].
    + left. rewrite firstn_all. split_and!; [exact Hr|exact Hcat|exact Hall].
    + right. split; [exact Hr|]. exists m, c. split_and!; [reflexivity| |exact Hp].
      rewrite lookup_take_lt by lia. exact Hc.
Qed.

(** X15. With a batch size that is not positive nothing is posted: a batch
    size of zero makes [post_events] raise the error of [range], a negative
    one makes it return normally although no event was sent.  [post_rssi]
    does the same, except that without samples it returns before the range is
    built. *)
Theorem nonpositive_batch_size_posts_nothing post events batch_size :
  batch_size <= 0 ->
  snd (post_events post events batch_size) = [] /\
  snd (post_rssi post events batch_size) = [] /\
  (fst (post_events post events batch_size) = inr tt <-> batch_size < 0) /\
  (fst (post_events post events batch_size) = inl RangeStepZero <-> batch_size = 0) /\
  (fst (post_rssi post events batch_size) = inr tt <-> batch_size < 0 \/ events = []).
Proof.
  intros Hb. unfold post_rssi, post_events, batch_starts.
  destruct (Z.eqb_spec batch_size 0) as [->|Hz].
  - destruct events; cbn; split_and!; try done; split; try done; try lia.
    + now right.
    + intros [?|?]; [lia|done].
  - destruct (Z.ltb_spec batch_size 0) as [Hneg|]; [|lia].
    destruct events; cbn; split_and!; try done; split; try done; try lia; now left.
Qed.

End ReplayFacts.

Lemma post_events_sends_consecutive_batches_witness :
  let post := fun (k : nat) (chunk : list nat) => negb (Nat.eqb k 1) in
  let run := Replay.post_events post [10; 20; 30; 40; 50]%nat 2 in
  0 < 2 /\
  run = (inl Replay.HTTPStatusError, [[10; 20]; [30; 40]]%nat) /\
  concat (snd run) `prefix_of` [10; 20; 30; 40; 50]%nat.
Proof.
  intros post run.
  split; [lia|]. split; [vm_compute; reflexivity|].
  exact (proj1 (post_events_sends_consecutive_batches post [10; 20; 30; 40; 50]%nat 2
                  ltac:(lia))).
Defined.

Lemma nonpositive_batch_size_posts_nothing_witness :
  let post := fun (k : nat) (chunk : list nat) => true in
  -1 <= 0 /\
  Replay.post_events post [10; 20; 30]%nat (-1) = (inr tt, []) /\
  snd (Replay.post_events post [10; 20; 30]%nat (-1)) = [].
Proof.
  intros post. split; [lia|]. split; [vm_compute; reflexivity|].
  exact (proj1 (nonpositive_batch_size_posts_nothing post [10; 20; 30]%nat (-1) ltac:(lia))).
Defined.


(** ** Forwarding samples in batches *)

Section MonitorFacts.
Import Monitor.
Context {A : Type}.
Variable post_samples : nat -> list A -> bool.
Variable batch_size : Z.

Lemma requests_snoc_outcome (reqs : list (list A * bool)) (b : list A) :
  (forall i r, reqs !! i = Some r -> snd r = post_samples i (fst r)) ->
  forall i r, (reqs ++ [(b, post_samples (length reqs) b)]) !! i = Some r ->
              snd r = post_samples i (fst r).
Proof.
  intros Hreqs i r Hr. apply lookup_app_Some in Hr as [Hr|[Hi Hr]].
  - now apply Hreqs.
  - apply list_lookup_singleton_Some in Hr as [Hz <-].
    cbn. f_equal. lia.
Qed.

Lemma forward_invariant seen st sample :
  (forwarding_invariant post_samples batch_size) seen st ->
  (forwarding_invariant post_samples batch_size) (seen ++ [sample]) (forward post_samples batch_size st sample).
Proof.
  intros (Hseen & Hlen & Hfull & Hout). unfold forward. cbv zeta. cbn [batch requests].
  assert (Hsize : Z.of_nat (full_batch batch_size) = Z.max 1 batch_size) by (unfold Monitor.full_batch; lia).
  destruct (Z.leb_spec (Z.max 1 batch_size) (Z.of_nat (length (batch st ++ [sample]))))
    as [Hge|Hlt]; rewrite length_app in *; cbn [length] in *.
  - unfold Monitor.forwarding_invariant, clear, try_post. cbn [batch requests].
    rewrite fmap_app, concat_app. cbn [fmap list_fmap fst concat].
    rewrite !app_nil_r. split_and!.
    + now rewrite app_assoc, Hseen.
    + cbn [length]. unfold Monitor.full_batch. lia.
    + apply Forall_app. split; [exact Hfull|]. constructor; [|constructor].
      cbn [fst]. rewrite length_app. cbn [length]. lia.
    + now apply requests_snoc_outcome.
  - unfold Monitor.forwarding_invariant. cbn [batch requests]. split_and!.
    + now rewrite app_assoc, Hseen.
    + rewrite length_app. cbn [length]. lia.
    + exact Hfull.
    + exact Hout.
Qed.

Lemma measurement_invariant samples : forall seen st,
  (forwarding_invariant post_samples batch_size) seen st ->
  (forwarding_invariant post_samples batch_size) (seen ++ samples) (measurement post_samples batch_size st samples).
Proof.
  induction samples as [|sample samples IH]; intros seen st Hinv.
  - now rewrite app_nil_r.
  - cbn [measurement fold_left].
    replace (seen ++ sample :: samples) with ((seen ++ [sample]) ++ samples)
      by now rewrite <- app_assoc.
    apply IH. now apply forward_invariant.
Qed.

Lemma runs_invariant runs : forall seen st,
  (forwarding_invariant post_samples batch_size) seen st ->
  (forwarding_invariant post_samples batch_size) (seen ++ concat runs)
    (fold_left (measurement post_samples batch_size) runs st).
Proof.
  induction runs as [|samples runs IH]; intros seen st Hinv.
  - cbn. now rewrite app_nil_r.
  - cbn [fold_left concat]. rewrite app_assoc. apply IH. now apply measurement_invariant.
Qed.

(** X16.  [main] of the monitor, run with a post URL for a number of
    measurements, puts every parsed sample in exactly one request, in the
    order of parsing: the requests, concatenated, are the samples of all
    runs.  Every request but the last holds exactly [max(1, batch_size)]
    samples (a batch size of zero or less counts as one), the last one is not
    empty and holds at most that many; a refused request is recorded with its
    outcome and its samples are in no later request. *)
Theorem monitor_posts_each_sample_once (runs : list (list A)) :
  let st := snd (main post_samples batch_size runs) in
  concat (fst <$> requests st) = concat runs /\
  Forall (fun r => (0 < length (fst r) <= (full_batch batch_size))%nat) (requests st) /\
  (forall i r, requests st !! i = Some r -> (S i < length (requests st))%nat ->
     length (fst r) = (full_batch batch_size)) /\
  (forall i r, requests st !! i = Some r -> snd r = post_samples i (fst r)).
Proof.
  cbv zeta. unfold main. cbv zeta. cbn [fst snd].
  assert (Hinit : (forwarding_invariant post_samples batch_size) [] {| batch := []; requests := [] |}).
  { unfold Monitor.forwarding_invariant, Monitor.full_batch. cbn. split_and!; try done. lia. }
  pose proof (runs_invariant runs [] _ Hinit) as (Hseen & Hlen & Hfull & Hout).
  cbn [app] in Hseen.
  assert (Hpos : (0 < (full_batch batch_size))%nat) by (unfold Monitor.full_batch; lia).
  set (st := fold_left (measurement post_samples batch_size) runs _) in *.
  destruct (batch st) as [|s rest] eqn:Hbatch.
  - rewrite app_nil_r in Hseen. split_and!.
    + exact Hseen.
    + eapply Forall_impl; [exact Hfull|]. cbn. intros r ->. lia.
    + intros i r Hr _. now apply (Forall_lookup_1 _ _ _ _ Hfull Hr).
    + exact Hout.
  - unfold try_post. cbn [batch requests]. rewrite Hbatch.
    rewrite fmap_app, concat_app. cbn [fmap list_fmap fst concat]. rewrite app_nil_r.
    split_and!.
    + exact Hseen.
    + apply Forall_app. split.
      * eapply Forall_impl; [exact Hfull|]. cbn. intros r ->. lia.
      * constructor; [|constructor]. cbn [fst length] in *. lia.
    + intros i r Hr Hi. rewrite length_app in Hi. cbn [length] in Hi.
      rewrite lookup_app_l in Hr by lia.
      now apply (Forall_lookup_1 _ _ _ _ Hfull Hr).
    + now apply requests_snoc_outcome.
Qed.

End MonitorFacts.

(** ** The audio level of a log row *)

Section CsvTailFacts.
Import Passcode CsvTail.
Implicit Types (s w text level : pystr) (ch : Ascii.ascii).

Lemma digit_not_space ch : is_digit ch = true -> isspace ch = false.
Proof. unfold is_digit, isspace. cbv zeta. lia. Qed.

Lemma space_not_digit ch : isspace ch = true -> is_digit ch = false.
Proof. unfold is_digit, isspace. cbv zeta. lia. Qed.

Lemma digit_not_hyphen ch : is_digit ch = true -> Ascii.eqb ch "-" = false.
Proof.
  intros Hd. destruct (Ascii.eqb_spec ch "-") as [->|]; [discriminate Hd|reflexivity].
Qed.

Lemma space_not_paren ch : isspace ch = true -> Ascii.eqb ch "(" = false.
Proof.
  intros Hd. destruct (Ascii.eqb_spec ch "(") as [->|]; [discriminate Hd|reflexivity].
Qed.

Lemma lstrip_blank_app w s : blank w -> lstrip (w ++ s) = lstrip s.
Proof. induction 1 as [|ch w Hch _ IH]; [reflexivity|]. cbn. now rewrite Hch. Qed.

Lemma lstrip_split s : exists w, blank w /\ s = w ++ lstrip s.
Proof.
  induction s as [|ch s (w & Hw & Hs)].
  - exists []. now split; [constructor|].
  - cbn [lstrip]. destruct (isspace ch) eqn:E.
    + exists (ch :: w). split; [now constructor|]. cbn. now rewrite <- Hs.
    + exists []. now split; [constructor|].
Qed.

Lemma lstrip_blank w : blank w -> lstrip w = [].
Proof. intros Hw. rewrite <- (app_nil_r w). now rewrite lstrip_blank_app. Qed.

Lemma rstrip_blank w : blank w -> rstrip w = [].
Proof.
  induction 1 as [|ch w Hch _ IH]; [reflexivity|]. cbn [rstrip]. now rewrite IH, Hch.
Qed.

Lemma rstrip_blank_app s w : blank w -> rstrip (s ++ w) = rstrip s.
Proof.
  intros Hw. induction s as [|ch s IH]; cbn [Datatypes.app rstrip].
  - now apply rstrip_blank.
  - now rewrite IH.
Qed.

Lemma strip_between_blanks w0 core w3 :
  blank w0 -> blank w3 -> core <> [] -> starts_clean core -> ends_clean core ->
  strip (w0 ++ core ++ w3) = core.
Proof.
  intros H0 H3 Hne Hs He. unfold strip. rewrite lstrip_blank_app by assumption.
  rewrite lstrip_fixed.
  - rewrite rstrip_blank_app by assumption. now apply rstrip_fixed.
  - destruct core; [congruence|exact Hs].
Qed.

Lemma span_digits_app digits after :
  Forall (fun ch => is_digit ch = true) digits -> stops_digits after ->
  span_digits (digits ++ after) = (digits, after).
Proof.
  intros Hd Ha. induction Hd as [|ch digits Hch _ IH]; cbn [Datatypes.app].
  - destruct after as [|ch after]; [reflexivity|]. cbn in *. now rewrite Ha.
  - cbn [span_digits]. now rewrite Hch, IH.
Qed.

Lemma span_digits_split s :
  s = fst (span_digits s) ++ snd (span_digits s) /\
  Forall (fun ch => is_digit ch = true) (fst (span_digits s)) /\
  stops_digits (snd (span_digits s)).
Proof.
  induction s as [|ch s (Hs & Hd & Ha)]; [by split_and!|].
  cbn [span_digits]. destruct (is_digit ch) eqn:E.
  - destruct (span_digits s) as [run after]. cbn [fst snd] in *.
    split_and!; [cbn; congruence|now constructor|exact Ha].
  - cbn. by split_and!.
Qed.

Lemma numeral_clean r : numeral r -> r <> [] /\ starts_clean r /\ ends_clean r.
Proof.
  intros (sign & digits & -> & Hsign & Hne & Hd).
  destruct digits as [|d digits]; [congruence|].
  split_and!.
  - destruct sign; discriminate.
  - destruct Hsign as [->| ->]; cbn; [|reflexivity].
    apply digit_not_space. now inversion Hd.
  - unfold ends_clean. rewrite last_app.
    destruct (last (d :: digits)) as [ch|] eqn:E.
    + apply last_Some_elem_of in E. apply digit_not_space.
      rewrite Forall_forall in Hd. now apply Hd.
    + now apply last_None in E.
Qed.

Lemma match_number_complete r after :
  numeral r -> stops_digits after -> match_number (r ++ after) = Some (r, after).
Proof.
  intros (sign & digits & -> & Hsign & Hne & Hd) Ha.
  destruct digits as [|d digits]; [congruence|].
  unfold match_number. destruct Hsign as [->| ->]; cbn [Datatypes.app].
  - assert (Hdd : is_digit d = true) by now inversion Hd.
    rewrite (digit_not_hyphen d Hdd).
    change (d :: digits ++ after) with ((d :: digits) ++ after).
    now rewrite span_digits_app.
  - change (Ascii.eqb "-" "-") with true. cbv iota.
    change (d :: digits ++ after) with ((d :: digits) ++ after).
    now rewrite span_digits_app.
Qed.

Lemma match_number_sound s r after :
  match_number s = Some (r, after) ->
  numeral r /\ s = r ++ after /\ stops_digits after.
Proof.
  unfold match_number. intros H.
  assert (Hgen : forall sign digits,
             match span_digits digits with
             | ([], _) => None
             | (run, after) => Some (sign ++ run, after)
             end = Some (r, after) ->
             (sign = [] \/ sign = ["-"%char]) ->
             numeral r /\ sign ++ digits = r ++ after /\ stops_digits after).
  { intros sign digits Hm Hsign.
    destruct (span_digits_split digits) as (Hs & Hd & Ha).
    destruct (span_digits digits) as [run after0]. cbn [fst snd] in *.
    destruct run as [|d run]; [discriminate|]. injection Hm as <- <-.
    split_and!.
    - exists sign, (d :: run). by split_and!.
    - now rewrite Hs, app_assoc.
    - exact Ha. }
  destruct s as [|ch rest].
  - apply (Hgen [] []) in H; [exact H|now left].
  - destruct (Ascii.eqb_spec ch "-") as [->|Hch].
    + apply (Hgen ["-"%char] rest) in H; [exact H|now right].
    + apply (Hgen [] (ch :: rest)) in H; [exact H|now left].
Qed.

Lemma match_end_blank s : match_end s = true <-> blank s.
Proof.
  unfold match_end. split.
  - intros H. destruct (lstrip_split s) as (w & Hw & Hs).
    destruct (lstrip s); [|discriminate]. rewrite Hs, app_nil_r. exact Hw.
  - intros Hb. now rewrite (lstrip_blank s Hb).
Qed.

Lemma blank_stops_digits w ch rest :
  blank w -> is_digit ch = false -> stops_digits (w ++ ch :: rest).
Proof.
  intros Hw Hch. destruct Hw as [|c w Hc _]; cbn; [exact Hch|].
  now apply space_not_digit.
Qed.

Lemma blank_alone_stops_digits w : blank w -> stops_digits w.
Proof. intros Hw. destruct Hw as [|c w' Hc _]; cbn; [exact I|]. now apply space_not_digit. Qed.

Lemma match_mark_space_blank w : blank w -> match_mark_space w = None.
Proof.
  intros Hw. destruct Hw as [|c w' Hc _]; cbn; [reflexivity|]. now rewrite (space_not_paren c Hc).
Qed.

Lemma match_mark_space_complete m w1 w2 s after :
  numeral m -> blank w1 -> blank w2 -> numeral s ->
  match_mark_space ("("%char :: m ++ w1 ++ "/"%char :: w2 ++ s ++ ")"%char :: after)
  = Some (m, s, after).
Proof.
  intros Hm H1 H2 Hs. unfold match_mark_space.
  change (Ascii.eqb "(" "(") with true. cbv iota.
  rewrite (match_number_complete m) by (assumption || now apply blank_stops_digits).
  rewrite lstrip_blank_app by assumption. cbn [lstrip].
  change (isspace "/") with false. cbv iota.
  change (Ascii.eqb "/" "/") with true. cbv iota.
  rewrite lstrip_blank_app by assumption.
  destruct (numeral_clean s Hs) as (Hne & Hclean & _).
  rewrite (lstrip_fixed (s ++ _)) by (destruct s; [congruence|exact Hclean]).
  rewrite (match_number_complete s) by (assumption || reflexivity).
  reflexivity.
Qed.

Lemma match_mark_space_sound text m s after :
  match_mark_space text = Some (m, s, after) ->
  exists w1 w2,
    numeral m /\ blank w1 /\ blank w2 /\ numeral s /\
    text = "("%char :: m ++ w1 ++ "/"%char :: w2 ++ s ++ ")"%char :: after.
Proof.
  unfold match_mark_space. intros H.
  destruct text as [|ch s1]; [discriminate|].
  destruct (Ascii.eqb_spec ch "(") as [->|]; [|discriminate].
  destruct (match_number s1) as [[m' s2]|] eqn:Em; [|discriminate].
  apply match_number_sound in Em as (Hm & -> & _).
  destruct (lstrip_split s2) as (w1 & H1 & Hs2).
  destruct (lstrip s2) as [|ch2 s3]; [discriminate|].
  destruct (Ascii.eqb_spec ch2 "/") as [->|]; [|discriminate].
  destruct (lstrip_split s3) as (w2 & H2 & Hs3).
  destruct (match_number (lstrip s3)) as [[s' s4]|] eqn:Es; [|discriminate].
  apply match_number_sound in Es as (Hs & Hs4 & _).
  destruct s4 as [|ch4 after']; [discriminate|].
  destruct (Ascii.eqb_spec ch4 ")") as [->|]; [|discriminate].
  injection H as <- <- <-.
  exists w1, w2. split_and!; try assumption.
  rewrite Hs2, Hs3, Hs4. reflexivity.
Qed.

Lemma level_shape_match level core r ms :
  level_shape level core r ms ->
  LEVEL_RE_match level
  = Some {| rms_group := r; mark_group := fst <$> ms; space_group := snd <$> ms |} /\
  strip level = core /\ level <> [].
Proof.
  intros Hshape. destruct Hshape as [w0 r w3 H0 Hr H3|w0 r m w1 w2 s w3 H0 Hr Hm H1 H2 Hs H3].
  - destruct (numeral_clean r Hr) as (Hne & Hsc & Hec).
    split_and!.
    + unfold LEVEL_RE_match. rewrite lstrip_blank_app by assumption.
      rewrite (lstrip_fixed (r ++ w3)) by (destruct r; [congruence|exact Hsc]).
      rewrite (match_number_complete r w3 Hr (blank_alone_stops_digits w3 H3)).
      cbv zeta. rewrite (match_mark_space_blank w3 H3).
      now rewrite (proj2 (match_end_blank w3) H3).
    + now apply strip_between_blanks.
    + destruct w0, r; try discriminate; congruence.
  - destruct (numeral_clean r Hr) as (Hne & Hsc & Hec).
    split_and!.
    + unfold LEVEL_RE_match. rewrite lstrip_blank_app by assumption.
      repeat first [rewrite <- app_assoc | progress cbn [Datatypes.app]].
      rewrite (lstrip_fixed (r ++ _)) by (destruct r; [congruence|exact Hsc]).
      rewrite (match_number_complete r) by (assumption || reflexivity).
      cbv zeta.
      rewrite (match_mark_space_complete m w1 w2 s w3) by assumption.
      now rewrite (proj2 (match_end_blank w3) H3).
    + apply strip_between_blanks; try assumption.
      * destruct r; [congruence|discriminate].
      * destruct r; [congruence|exact Hsc].
      * replace (r ++ "("%char :: m ++ w1 ++ "/"%char :: w2 ++ s ++ [")"%char])
          with ((r ++ "("%char :: m ++ w1 ++ "/"%char :: w2 ++ s) ++ [")"%char])
          by (repeat first [rewrite <- app_assoc | progress cbn [Datatypes.app]];
              reflexivity).
        unfold ends_clean. rewrite last_snoc. reflexivity.
    + destruct w0, r; try discriminate; congruence.
Qed.

Lemma match_level_shape level found :
  LEVEL_RE_match level = Some found ->
  exists core ms,
    level_shape level core (rms_group found) ms /\
    mark_group found = fst <$> ms /\ space_group found = snd <$> ms.
Proof.
  unfold LEVEL_RE_match. intros H.
  destruct (lstrip_split level) as (w0 & H0 & Hlevel).
  destruct (match_number (lstrip level)) as [[r after]|] eqn:Er; [|discriminate].
  apply match_number_sound in Er as (Hr & Hl & _). cbv zeta in H.
  assert (Hwithout :
            (if match_end after
             then Some {| rms_group := r; mark_group := None; space_group := None |}
             else None) = Some found ->
            exists core ms,
              level_shape level core (rms_group found) ms /\
              mark_group found = fst <$> ms /\ space_group found = snd <$> ms).
  { destruct (match_end after) eqn:Ee; [|discriminate]. intros [= <-].
    apply match_end_blank in Ee. exists r, None. split_and!; try reflexivity.
    rewrite Hlevel, Hl. now constructor. }
  destruct (match_mark_space after) as [[[m s] after']|] eqn:Eg; [|now apply Hwithout].
  destruct (match_end after') eqn:Ee; [|now apply Hwithout].
  injection H as <-. apply match_end_blank in Ee.
  apply match_mark_space_sound in Eg as (w1 & w2 & Hm & H1 & H2 & Hs & ->).
  exists (r ++ "("%char :: m ++ w1 ++ "/"%char :: w2 ++ s ++ [")"%char]), (Some (m, s)).
  split_and!; try reflexivity. cbn [rms_group].
  rewrite Hlevel, Hl.
  replace (w0 ++ r ++ "("%char :: m ++ w1 ++ "/"%char :: w2 ++ s ++ ")"%char :: after')
    with (w0 ++ (r ++ "("%char :: m ++ w1 ++ "/"%char :: w2 ++ s ++ [")"%char]) ++ after').
  - now constructor.
  - repeat first [rewrite <- app_assoc | progress cbn [Datatypes.app]]. reflexivity.
Qed.

Lemma int_numeral r :
  numeral r -> (length r <= int_max_str_digits)%nat ->
  int_or_text r = IntValue (numeral_value r).
Proof.
  intros (sign & digits & -> & Hsign & Hne & Hd) Hlen.
  destruct digits as [|d digits]; [congruence|].
  unfold int_or_text, int, numeral_value.
  destruct Hsign as [->| ->]; cbn [Datatypes.app] in *.
  - assert (Hdd : is_digit d = true) by now inversion Hd.
    rewrite (digit_not_hyphen d Hdd).
    destruct (Nat.ltb_spec int_max_str_digits (length (d :: digits))); [lia|reflexivity].
  - change (Ascii.eqb "-" "-") with true. cbv iota.
    destruct (Nat.ltb_spec int_max_str_digits (length (d :: digits))); [cbn in *; lia|].
    reflexivity.
Qed.

Lemma level_shape_lengths level core r ms :
  level_shape level core r ms ->
  (length r <= length level)%nat /\
  match ms with
  | Some (m, s) => (length m <= length level)%nat /\ (length s <= length level)%nat
  | None => True
  end.
Proof.
  intros [w0 r' w3 _ _ _|w0 r' m w1 w2 s w3 _ _ _ _ _ _ _];
    repeat (rewrite ?length_app; cbn [length]); [lia|].
  repeat (rewrite ?length_app; cbn [length]). lia.
Qed.

(** X17.  A level in the format of Direwolf, [rms(mark/space)] or [rms]
    alone, with blanks around it and around the slash and at most 4300
    characters, is parsed into its integers: [raw] is the text without the
    outer blanks, [rms] the value of the first numeral, and [mark] and
    [space] those of the two numerals between the parentheses, set exactly
    when the parentheses are there. *)
Theorem direwolf_level_is_parsed level core r ms :
  level_shape level core r ms ->
  (length level <= int_max_str_digits)%nat ->
  parse_audio_level (Some level)
  = Some {| raw := core;
            rms := Some (IntValue (numeral_value r));
            mark := (fun '(m, _) => IntValue (numeral_value m)) <$> ms;
            space := (fun '(_, s) => IntValue (numeral_value s)) <$> ms |}.
Proof.
  intros Hshape Hlen.
  destruct (level_shape_match level core r ms Hshape) as (Hmatch & Hstrip & Hne).
  destruct (level_shape_lengths level core r ms Hshape) as (Hr & Hms).
  unfold parse_audio_level. destruct level as [|ch level']; [congruence|].
  rewrite Hmatch, Hstrip. cbn [rms_group mark_group space_group].
  assert (Hnum : numeral r /\ match ms with
                              | Some (m, s) => numeral m /\ numeral s
                              | None => True
                              end).
  { destruct Hshape; by split_and!. }
  destruct Hnum as [Hnr Hnms].
  rewrite (int_numeral r Hnr) by lia.
  destruct ms as [[m s]|]; cbn [fmap option_fmap option_map fst snd]; [|reflexivity].
  destruct Hms as [Hm Hs]. destruct Hnms as [Hnm Hns].
  rewrite (int_numeral m Hnm), (int_numeral s Hns) by lia. reflexivity.
Qed.

(** X18.  [parse_audio_level] returns nothing exactly for no level and for
    the empty text.  Otherwise, on an ASCII text, [raw] is the stripped text,
    and the other keys tell whether the text has the format of Direwolf:
    [rms] is set exactly when it has, with the value (or, past the limit of
    [int], the text) of its first numeral, and [mark] and [space] are set
    together, from the two numerals between the parentheses. *)
Theorem parsed_level_has_shape (level : option pystr) :
  (parse_audio_level level = None <-> level = None \/ level = Some []) /\
  forall text info,
    level = Some text -> is_ascii text -> parse_audio_level level = Some info ->
    raw info = strip text /\
    match rms info with
    | None =>
        mark info = None /\ space info = None /\
        ~ exists core r ms, level_shape text core r ms
    | Some value =>
        exists r ms,
          level_shape text (raw info) r ms /\
          value = int_or_text r /\
          mark info = (fun '(m, _) => int_or_text m) <$> ms /\
          space info = (fun '(_, s) => int_or_text s) <$> ms
    end.
Proof.
  split.
  - unfold parse_audio_level. destruct level as [[|ch text]|].
    + split; [now right|reflexivity].
    + split.
      * destruct (LEVEL_RE_match (ch :: text)); discriminate.
      * intros [?|?]; discriminate.
    + split; [now left|reflexivity].
  - intros text info -> _ Hparse. unfold parse_audio_level in Hparse.
    destruct text as [|ch text']; [discriminate|].
    set (text := ch :: text') in *.
    destruct (LEVEL_RE_match text) as [found|] eqn:Ematch; injection Hparse as <-;
      cbn [raw rms mark space].
    + split; [reflexivity|].
      destruct (match_level_shape text found Ematch) as (core & ms & Hshape & Hmark & Hspace).
      destruct (level_shape_match text core _ ms Hshape) as (_ & Hstrip & _).
      exists (rms_group found), ms. rewrite Hstrip, Hmark, Hspace.
      split_and!; [exact Hshape|reflexivity| |]; now destruct ms as [[m s]|].
    + split; [reflexivity|]. split_and!; [reflexivity|reflexivity|].
      intros (core & r & ms & Hshape).
      destruct (level_shape_match text core r ms Hshape) as (Hmatch & _ & _).
      congruence.
Qed.

End CsvTailFacts.

Section CsvTailExamples.
Import Passcode CsvTail.

Example level_without_blank_before_parenthesis :
  parse_audio_level (Some (text_of "52 (10/8)"))
  = Some {| raw := text_of "52 (10/8)"; rms := None; mark := None; space := None |}.
Proof. vm_compute. reflexivity. Qed.

Example level_negative_alone :
  parse_audio_level (Some (text_of "-5"))
  = Some {| raw := text_of "-5"; rms := Some (IntValue (-5)); mark := None; space := None |}.
Proof. vm_compute. reflexivity. Qed.

Example level_unclosed_parenthesis :
  parse_audio_level (Some (text_of "5(1/2"))
  = Some {| raw := text_of "5(1/2"; rms := None; mark := None; space := None |}.
Proof. vm_compute. reflexivity. Qed.

Lemma direwolf_level_is_parsed_witness :
  let level := text_of " 52(10/ 8) " in
  level_shape level (text_of "52(10/ 8)") (text_of "52") (Some (text_of "10", text_of "8")) /\
  (length level <= int_max_str_digits)%nat /\
  parse_audio_level (Some level)
  = Some {| raw := text_of "52(10/ 8)";
            rms := Some (IntValue 52);
            mark := Some (IntValue 10);
            space := Some (IntValue 8) |}.
Proof.
  intros level.
  assert (Hblank : blank (text_of " ")) by (repeat constructor).
  assert (Hnone : blank []) by constructor.
  assert (Hnum : forall digits, digits <> [] ->
                   Forall (fun ch => is_digit ch = true) digits -> numeral digits).
  { intros digits Hne Hd. exists [], digits. split_and!; [reflexivity|now left|exact Hne|exact Hd]. }
  assert (Hr : numeral (text_of "52")) by (apply Hnum; [discriminate|repeat constructor]).
  assert (Hm : numeral (text_of "10")) by (apply Hnum; [discriminate|repeat constructor]).
  assert (Hs : numeral (text_of "8")) by (apply Hnum; [discriminate|repeat constructor]).
  assert (Hshape : level_shape level (text_of "52(10/ 8)") (text_of "52")
                     (Some (text_of "10", text_of "8"))).
  { exact (shape_rms_mark_space (text_of " ") (text_of "52") (text_of "10") [] (text_of " ")
             (text_of "8") (text_of " ") Hblank Hr Hm Hnone Hblank Hs Hblank). }
  assert (Hlen : (length level <= int_max_str_digits)%nat) by (vm_compute; lia).
  split; [exact Hshape|]. split; [exact Hlen|].
  exact (direwolf_level_is_parsed level _ _ _ Hshape Hlen).
Defined.

Lemma parsed_level_has_shape_witness :
  let text := text_of "n/a" in
  let info := {| raw := text; rms := None; mark := None; space := None |} in
  is_ascii text /\
  parse_audio_level (Some text) = Some info /\
  ~ exists core r ms, level_shape text core r ms.
Proof.
  intros text info.
  assert (Hascii : is_ascii text) by (repeat (constructor; [reflexivity|]); constructor).
  assert (Hparse : parse_audio_level (Some text) = Some info) by (vm_compute; reflexivity).
  split; [exact Hascii|]. split; [exact Hparse|].
  exact (proj2 (proj2 (proj2 (proj2 (parsed_level_has_shape (Some text))
                                text info eq_refl Hascii Hparse)))).
Defined.

End CsvTailExamples.

(** * The store within Python's datetime range *)

(** ** Where the two embeddings agree *)

#[global] Instance packet_conforms : Conforms PacketEvent.
Proof.
  split.
  - intros x c. cbn.
    unfold Ranged.packet_effective_datetime, Ranged.packet_stored_datetime, Ranged.lift.
    destruct (timestamp x); [reflexivity|]. destruct (unix_time x); reflexivity.
  - intros x ts. cbn. unfold Ranged.packet_stored_datetime, packet_stored_datetime.
    destruct (timestamp x) as [d|].
    + unfold Ranged._ensure_utc, _ensure_utc. destruct (tzinfo d); [|congruence].
      cbv zeta. destruct (Ranged.in_range _); congruence.
    + destruct (unix_time x) as [u|]; [|discriminate].
      unfold Ranged.fromtimestamp, fromtimestamp. cbv zeta.
      destruct (Ranged.in_range _); congruence.
  - intros x. cbn. unfold Ranged.packet_stored_datetime, packet_stored_datetime.
    destruct (timestamp x); [discriminate|]. destruct (unix_time x); [discriminate|].
    reflexivity.
Qed.

#[global] Instance rssi_conforms : Conforms RssiSample.
Proof.
  split.
  - intros x c. cbn.
    unfold Ranged.rssi_effective_datetime, Ranged.rssi_stored_datetime, Ranged.lift.
    destruct (rssi_timestamp x); reflexivity.
  - intros x ts. cbn. unfold Ranged.rssi_stored_datetime, rssi_stored_datetime.
    destruct (rssi_timestamp x) as [d|]; [|discriminate].
    unfold Ranged._ensure_utc, _ensure_utc. destruct (tzinfo d); [|congruence].
    cbv zeta. destruct (Ranged.in_range _); congruence.
  - intros x. cbn. unfold Ranged.rssi_stored_datetime, rssi_stored_datetime.
    destruct (rssi_timestamp x); [discriminate|reflexivity].
Qed.

(** The conversions at the edges of the range. *)
Example fromtimestamp_at_the_edges :
  Ranged.fromtimestamp 253402300799 = Returned 253402300799000000 /\
  Ranged.fromtimestamp year_10000 = Raised ValueError /\
  Ranged.fromtimestamp (-62135596800) = Returned Ranged.datetime_min /\
  Ranged.fromtimestamp (-62135596801) = Raised ValueError /\
  Ranged.fromtimestamp (10 ^ 17) = Raised OSError /\
  Ranged.fromtimestamp (2 ^ 63) = Raised OverflowError /\
  Ranged.timedelta_seconds 86399999999999 = Returned 86399999999999000000 /\
  Ranged.timedelta_seconds 86400000000000 = Raised OverflowError /\
  Ranged.timedelta_seconds (-86399999913601) = Raised OverflowError /\
  Ranged._ensure_utc {| fields_us := Ranged.datetime_max; tzinfo := Some (- seconds 3600) |}
    = Raised OverflowError /\
  Ranged.datetime_sub (seconds 1000) (seconds 70000000000) = Raised OverflowError.
Proof. split_and!; vm_compute; reflexivity. Qed.

Lemma in_range_bounds us :
  Ranged.in_range us = true <-> Ranged.datetime_min <= us <= Ranged.datetime_max.
Proof. unfold Ranged.in_range. rewrite andb_true_iff, !Z.leb_le. tauto. Qed.

Lemma later_readings c c' : later c c' -> readings_in_range c -> readings_in_range c'.
Proof. intros [Hw _] Hc n. rewrite Hw. apply Hc. Qed.

Lemma ranged_datetime_now c :
  readings_in_range c -> Ranged.datetime_now c = returned (datetime_now c).
Proof.
  intros Hc. unfold Ranged.datetime_now, datetime_now, returned. cbv zeta. cbn [fst snd].
  now rewrite Hc.
Qed.

Section Agreement.
Context {T : Type} {HT : Timestamped T} {HL : Lawful T}
        {HD : Ranged.Dated T} {HC : Conforms T}.

Lemma ranged_effective_datetime (x : T) c :
  Ranged.representable x -> readings_in_range c ->
  Ranged.effective_datetime x c = returned (effective_datetime x c).
Proof.
  intros Hx Hc. rewrite ranged_effective_datetime_spec, effective_datetime_spec.
  unfold Ranged.representable in Hx.
  destruct (Ranged.stored_datetime x) as [[ts|e]|] eqn:E; [| |].
  - now rewrite (ranged_stored_returned x ts E).
  - contradiction.
  - rewrite (ranged_stored_none x E). now apply ranged_datetime_now.
Qed.

Lemma ranged_drop_stale cutoff (items : list T) c :
  Forall Ranged.representable items -> readings_in_range c ->
  Ranged.drop_stale cutoff items c = (Returned tt, drop_stale cutoff items c).
Proof.
  intros Hitems. revert c. induction Hitems as [|x rest Hx _ IH]; intros c Hc.
  - reflexivity.
  - cbn [Ranged.drop_stale drop_stale]. unfold Ranged._is_stale, _is_stale, bind, ret.
    rewrite (ranged_effective_datetime x c Hx Hc). unfold returned.
    pose proof (effective_datetime_later x c) as Hl.
    destruct (effective_datetime x c) as [ts c']. cbn [fst snd] in *.
    destruct (ts <? cutoff); [|reflexivity].
    apply IH. now apply (later_readings c).
Qed.

Lemma ranged_observe_all_agrees (items : list T) c :
  Forall Ranged.representable items -> readings_in_range c ->
  ranged_observe_all items c = returned (observe_all items c).
Proof.
  intros Hitems. revert c. induction Hitems as [|x rest Hx _ IH]; intros c Hc.
  - reflexivity.
  - cbn [ranged_observe_all observe_all]. unfold bind, ret.
    rewrite (ranged_effective_datetime x c Hx Hc). unfold returned.
    pose proof (effective_datetime_later x c) as Hl.
    destruct (effective_datetime x c) as [ts c']. cbn [fst snd] in *.
    rewrite (IH c') by now apply (later_readings c).
    unfold returned. destruct (observe_all rest c') as [more c2]. reflexivity.
Qed.

Lemma ranged_make_entries_agrees (wrap : T -> StreamMessage) (items : list T) c :
  Forall Ranged.representable items -> readings_in_range c ->
  Ranged.make_entries wrap items c = returned (make_entries wrap items c).
Proof.
  intros Hitems. revert c. induction Hitems as [|x rest Hx _ IH]; intros c Hc.
  - reflexivity.
  - cbn [Ranged.make_entries make_entries]. unfold bind, ret.
    rewrite (ranged_effective_datetime x c Hx Hc). unfold returned.
    pose proof (effective_datetime_later x c) as Hl.
    destruct (effective_datetime x c) as [ts c']. cbn [fst snd] in *.
    rewrite (IH c') by now apply (later_readings c).
    unfold returned. destruct (make_entries wrap rest c') as [more c2]. reflexivity.
Qed.

End Agreement.

Lemma ranged_stale_callsigns cutoff (items : list (string * PacketEvent)) c :
  Forall Ranged.representable (map snd items) -> readings_in_range c ->
  Ranged.stale_callsigns cutoff items c = returned (stale_callsigns cutoff items c).
Proof.
  revert c. induction items as [|[callsign packet] rest IH]; intros c Hitems Hc.
  - reflexivity.
  - cbn [map snd] in Hitems. apply Forall_cons in Hitems as [Hx Hrest].
    cbn [Ranged.stale_callsigns stale_callsigns]. unfold bind, ret.
    rewrite (ranged_effective_datetime packet c Hx Hc). unfold returned.
    pose proof (effective_datetime_later packet c) as Hl.
    destruct (effective_datetime packet c) as [ts c']. cbn [fst snd] in *.
    rewrite (IH c' Hrest) by now apply (later_readings c).
    unfold returned. destruct (stale_callsigns cutoff rest c') as [more c2]. reflexivity.
Qed.

Lemma ranged_stations_since since (items : list (string * PacketEvent)) c :
  Forall Ranged.representable (map snd items) -> readings_in_range c ->
  Ranged.stations_since since items c = returned (stations_since since items c).
Proof.
  revert c. induction items as [|[callsign packet] rest IH]; intros c Hitems Hc.
  - reflexivity.
  - cbn [map snd] in Hitems. apply Forall_cons in Hitems as [Hx Hrest].
    cbn [Ranged.stations_since stations_since]. unfold bind, ret.
    rewrite (ranged_effective_datetime packet c Hx Hc). unfold returned.
    pose proof (effective_datetime_later packet c) as Hl.
    destruct (effective_datetime packet c) as [ts c']. cbn [fst snd] in *.
    rewrite (IH c' Hrest) by now apply (later_readings c).
    unfold returned. destruct (stations_since since rest c') as [more c2]. reflexivity.
Qed.

Lemma ranged_prune_last_seen cutoff w :
  Forall Ranged.representable (map snd (_last_seen_by_station (self w))) ->
  readings_in_range (clk w) ->
  Ranged._prune_last_seen cutoff w = _prune_last_seen cutoff w.
Proof.
  intros Hindex Hc.
  unfold Ranged._prune_last_seen, _prune_last_seen, bind, gets, modify, Ranged.in_clock.
  cbn [self clk]. rewrite (ranged_stale_callsigns cutoff _ _ Hindex Hc). unfold returned.
  destruct (stale_callsigns cutoff _ (clk w)) as [stale k]. reflexivity.
Qed.

Lemma ranged_trim {T} `{Lawful T} `{!Ranged.Dated T} `{!Conforms T}
    (collection : deque_ref T) `{!RefOk collection} (prune_last_seen : bool) w :
  readings_in_range (clk w) ->
  Ranged.in_range (cutoff_of w) = true ->
  Forall Ranged.representable (deref collection (self w)) ->
  (prune_last_seen = true ->
   Forall Ranged.representable (map snd (_last_seen_by_station (self w)))) ->
  Ranged._trim collection prune_last_seen w = _trim collection prune_last_seen w.
Proof.
  intros Hc Hcut Hitems Hindex.
  unfold Ranged._trim, _trim, bind, gets, Ranged.lift, Ranged.in_clock, timed,
    Ranged._now, _now.
  rewrite (ranged_datetime_now _ Hc). unfold returned, datetime_now.
  cbn [fst snd self clk]. unfold Ranged.datetime_sub.
  unfold cutoff_of in Hcut. rewrite Hcut.
  set (cutoff := wall (clk w) (reads (clk w)) - _retention (self w)).
  set (c1 := {| wall := wall (clk w); reads := S (reads (clk w)) |}).
  assert (Hc1 : readings_in_range c1) by (intros n; apply Hc).
  unfold Ranged.age_pass, age_pass. cbn [self clk].
  rewrite (ranged_drop_stale cutoff _ c1 Hitems Hc1).
  pose proof (drop_stale_later cutoff (deref collection (self w)) c1) as Hl.
  destruct (drop_stale cutoff (deref collection (self w)) c1) as [kept k].
  cbn [snd] in Hl.
  unfold capacity_pass. cbn [self clk].
  destruct (drop_excess _ _) as [[[]|e] kept2]; [|reflexivity].
  destruct prune_last_seen; [|reflexivity].
  apply ranged_prune_last_seen; cbn [self clk].
  - rewrite !assign_last_seen. now apply Hindex.
  - now apply (later_readings c1).
Qed.

Lemma ranged_add_packet_eq packet w :
  Ranged.add_packet packet w = Ranged._trim packets_ref true (appended_packet packet w).
Proof.
  unfold Ranged.add_packet, appended_packet, indexed, bind, modify.
  destruct (truthy (source_callsign packet)); reflexivity.
Qed.

Lemma ranged_add_rssi_eq sample w :
  Ranged.add_rssi sample w = Ranged._trim rssi_ref false (appended_sample sample w).
Proof. reflexivity. Qed.

Lemma dict_setitem_values {V} (P : V -> Prop) k v (d : dict V) :
  P v -> Forall P (map snd d) -> Forall P (map snd (dict_setitem k v d)).
Proof.
  intros Hv. induction d as [|[k' v'] rest IH]; cbn [dict_setitem map snd]; intros Hd.
  - now repeat constructor.
  - apply Forall_cons in Hd as [Hv' Hrest].
    destruct (String.eqb k k'); cbn [map snd]; constructor; auto.
Qed.

Lemma indexed_values (P : PacketEvent -> Prop) packet d :
  P packet -> Forall P (map snd d) -> Forall P (map snd (indexed packet d)).
Proof.
  intros Hp Hd. unfold indexed. destruct (truthy (source_callsign packet)); [|exact Hd].
  now apply dict_setitem_values.
Qed.

Lemma clock_within_range_readings c retention :
  Ranged.clock_within_range c retention -> readings_in_range c.
Proof. intros Hc n. apply (Hc n). Qed.

Lemma within_range_cutoff w :
  Ranged.within_range w -> Ranged.in_range (cutoff_of w) = true.
Proof. intros [Hc _ _ _]. apply (Hc (reads (clk w))). Qed.

Lemma ranged_add_packet packet w :
  Ranged.within_range w -> Ranged.representable packet ->
  Ranged.add_packet packet w = add_packet packet w.
Proof.
  intros Hw Hp. pose proof (within_range_cutoff w Hw) as Hcut.
  destruct Hw as [Hc Hpk Hrs Hix].
  rewrite ranged_add_packet_eq, add_packet_eq.
  apply ranged_trim; [typeclasses eauto| | | |].
  - exact (clock_within_range_readings _ _ Hc).
  - exact Hcut.
  - cbn. apply Forall_app. split; [exact Hpk|]. now repeat constructor.
  - intros _. cbn. now apply indexed_values.
Qed.

Lemma ranged_add_rssi sample w :
  Ranged.within_range w -> Ranged.representable sample ->
  Ranged.add_rssi sample w = add_rssi sample w.
Proof.
  intros Hw Hp. pose proof (within_range_cutoff w Hw) as Hcut.
  destruct Hw as [Hc Hpk Hrs Hix].
  rewrite ranged_add_rssi_eq, add_rssi_eq.
  apply ranged_trim; [typeclasses eauto| | | |].
  - exact (clock_within_range_readings _ _ Hc).
  - exact Hcut.
  - cbn. apply Forall_app. split; [exact Hrs|]. now repeat constructor.
  - discriminate.
Qed.

Lemma ranged_apply_insert op w :
  Ranged.within_range w -> Ranged.representable_op op ->
  Ranged.apply_insert op w = apply_insert op w.
Proof.
  destruct op; cbn; [apply ranged_add_packet|apply ranged_add_rssi].
Qed.

Lemma later_clock_within_range c c' retention :
  later c c' -> Ranged.clock_within_range c retention ->
  Ranged.clock_within_range c' retention.
Proof. intros [Hw _] Hc n. rewrite Hw. apply Hc. Qed.

Lemma Forall_suffix {A} (P : A -> Prop) (l l' : list A) :
  l' `suffix_of` l -> Forall P l -> Forall P l'.
Proof. intros [k ->] Hl. apply Forall_app in Hl. tauto. Qed.

Lemma Forall_dict_sublist {V} (P : V -> Prop) (d d' : dict V) :
  d' `sublist_of` d -> Forall P (map snd d) -> Forall P (map snd d').
Proof.
  intros Hsub Hd. rewrite Forall_forall in *. intros v Hv.
  apply Hd. change (map snd d) with (snd <$> d).
  change (map snd d') with (snd <$> d') in Hv.
  apply list_elem_of_fmap in Hv as (entry & -> & Hentry).
  apply list_elem_of_fmap. exists entry. split; [reflexivity|].
  eapply elem_of_sublist; eassumption.
Qed.

(** The inserts keep the store within the range. *)
Lemma apply_insert_within_range op w :
  Ranged.within_range w -> Ranged.representable_op op ->
  Ranged.within_range (snd (apply_insert op w)).
Proof.
  intros [Hc Hpk Hrs Hix] Hop. destruct op as [p|s]; cbn [apply_insert] in *.
  - destruct (add_packet_frame p w) as (Hp' & Hr' & Ht' & _ & Hl).
    destruct (add_packet_last_seen p w) as (stale & Hidx).
    split.
    + rewrite Ht'. now apply (later_clock_within_range (clk w)).
    + eapply Forall_suffix; [exact Hp'|]. apply Forall_app. split; [exact Hpk|].
      now repeat constructor.
    + now rewrite Hr'.
    + rewrite Hidx. eapply Forall_dict_sublist; [apply pop_all_sublist|].
      now apply indexed_values.
  - destruct (add_rssi_frame s w) as (Hr' & Hp' & Hi' & Ht' & _ & Hl).
    split.
    + rewrite Ht'. now apply (later_clock_within_range (clk w)).
    + now rewrite Hp'.
    + eapply Forall_suffix; [exact Hr'|]. apply Forall_app. split; [exact Hrs|].
      now repeat constructor.
    + now rewrite Hi'.
Qed.

Lemma ranged_run_inserts ops : forall w,
  Ranged.within_range w -> Forall Ranged.representable_op ops ->
  Ranged.run_inserts ops w = run_inserts ops w /\
  Ranged.within_range (run_inserts ops w).
Proof.
  induction ops as [|op ops IH]; intros w Hw Hops; [now split|].
  apply Forall_cons in Hops as [Hop Hops].
  cbn [Ranged.run_inserts run_inserts fold_left].
  rewrite (ranged_apply_insert op w Hw Hop).
  apply IH; [|exact Hops]. now apply apply_insert_within_range.
Qed.

Lemma fresh_world_within_range retention_seconds max_items c :
  Ranged.clock_within_range c (timedelta_seconds retention_seconds) ->
  Ranged.within_range (fresh_world retention_seconds max_items c).
Proof. intros Hc. split; cbn; [exact Hc|constructor..]. Qed.

Lemma ranged_new_InMemoryStore retention_seconds max_items store c :
  Ranged.new_InMemoryStore retention_seconds max_items = Returned store ->
  {| self := store; clk := c |} = fresh_world retention_seconds max_items c.
Proof.
  unfold Ranged.new_InMemoryStore, Ranged.timedelta_seconds, fresh_world, timedelta_seconds.
  cbv zeta. destruct (_ && _); [|discriminate]. now intros [= <-].
Qed.

(** ** What the eviction routine leaves, whether it returns or raises *)

Lemma ranged_prune_last_seen_frame cutoff w :
  let r := Ranged._prune_last_seen cutoff w in
  _packets (self (snd r)) = _packets (self w) /\
  _rssi (self (snd r)) = _rssi (self w) /\
  _retention (self (snd r)) = _retention (self w) /\
  _max_items (self (snd r)) = _max_items (self w) /\
  _last_seen_by_station (self (snd r)) `sublist_of` _last_seen_by_station (self w) /\
  wall (clk (snd r)) = wall (clk w).
Proof.
  cbv zeta. unfold Ranged._prune_last_seen, bind, gets, modify, Ranged.in_clock.
  cbn [self clk].
  assert (Hwall : forall items c,
             wall (snd (Ranged.stale_callsigns cutoff items c)) = wall c).
  { induction items as [|[k p] rest IH]; intros c; [reflexivity|].
    cbn [Ranged.stale_callsigns]. unfold bind, ret.
    rewrite ranged_effective_datetime_spec.
    destruct (Ranged.stored_datetime p) as [[ts|e]|].
    - specialize (IH c). destruct (Ranged.stale_callsigns cutoff rest c) as [[more|e] c2];
        exact IH.
    - reflexivity.
    - unfold Ranged.datetime_now. cbv zeta.
      destruct (Ranged.in_range _); [|reflexivity].
      match goal with |- context [Ranged.stale_callsigns cutoff rest ?c1] =>
        specialize (IH c1); destruct (Ranged.stale_callsigns cutoff rest c1) as [[more|e] c2]
      end; exact IH. }
  specialize (Hwall (_last_seen_by_station (self w)) (clk w)).
  destruct (Ranged.stale_callsigns cutoff _ (clk w)) as [[stale|e] k]; cbn [fst snd self clk] in *.
  - split_and!; try reflexivity; [apply pop_all_sublist|exact Hwall].
  - split_and!; try reflexivity; exact Hwall.
Qed.

Lemma ranged_drop_stale_facts {T} `{!Ranged.Dated T} `{Timestamped T} `{!Conforms T}
    cutoff (items : list T) c :
  fst (snd (Ranged.drop_stale cutoff items c)) `suffix_of` items /\
  wall (snd (snd (Ranged.drop_stale cutoff items c))) = wall c.
Proof.
  revert c. induction items as [|x rest IH]; intros c; [now split|].
  cbn [Ranged.drop_stale]. unfold Ranged._is_stale, bind, ret.
  rewrite ranged_effective_datetime_spec.
  assert (Hstep : forall c1, wall c1 = wall c ->
            forall ts,
              let r := if ts <? cutoff then Ranged.drop_stale cutoff rest c1
                       else (Returned tt, (x :: rest, c1)) in
              fst (snd r) `suffix_of` x :: rest /\ wall (snd (snd r)) = wall c).
  { intros c1 Hc1 ts. cbv zeta. destruct (ts <? cutoff).
    - destruct (IH c1) as [Hs Hw]. split; [|now rewrite Hw].
      now apply suffix_cons_r.
    - now split. }
  destruct (Ranged.stored_datetime x) as [[ts|e]|].
  - exact (Hstep c eq_refl ts).
  - now split.
  - unfold Ranged.datetime_now. cbv zeta.
    destruct (Ranged.in_range _); [|now split].
    exact (Hstep {| wall := wall c; reads := S (reads c) |} eq_refl _).
Qed.

Lemma ranged_trim_facts {T} `{!Ranged.Dated T} `{Timestamped T} `{!Conforms T}
    (collection : deque_ref T) `{!RefOk collection} (prune_last_seen : bool) w :
  let r := Ranged._trim collection prune_last_seen w in
  deref collection (self (snd r)) `suffix_of` deref collection (self w) /\
  _last_seen_by_station (self (snd r)) `sublist_of` _last_seen_by_station (self w) /\
  _retention (self (snd r)) = _retention (self w) /\
  _max_items (self (snd r)) = _max_items (self w) /\
  wall (clk (snd r)) = wall (clk w) /\
  (fst r = Returned tt -> 0 <= _max_items (self w) ->
   Z.of_nat (length (deref collection (self (snd r)))) <= _max_items (self w)).
Proof.
  cbv zeta.
  unfold Ranged._trim, bind, gets, Ranged.lift, Ranged.in_clock, Ranged._now,
    Ranged.datetime_now. cbv zeta. cbn [self clk].
  set (c1 := {| wall := wall (clk w); reads := S (reads (clk w)) |}).
  destruct (Ranged.in_range (wall (clk w) (reads (clk w)))); cbn [fst snd self clk];
    [|split_and!; try reflexivity; try done].
  unfold Ranged.datetime_sub.
  destruct (Ranged.in_range (wall (clk w) (reads (clk w)) - _retention (self w)));
    cbn [fst snd self clk]; [|split_and!; try reflexivity; try done].
  set (cutoff := wall (clk w) (reads (clk w)) - _retention (self w)).
  unfold Ranged.age_pass. cbn [self clk].
  destruct (ranged_drop_stale_facts cutoff (deref collection (self w)) c1) as [Hsuf Hwall].
  destruct (Ranged.drop_stale cutoff (deref collection (self w)) c1) as [[[]|e] [kept k]];
    cbn [fst snd self clk] in *.
  2:{ rewrite deref_assign, assign_last_seen, assign_retention, assign_max_items.
      split_and!; try reflexivity; try done. }
  unfold capacity_pass. cbn [self clk].
  rewrite assign_max_items.
  pose proof (drop_excess_suffix (_max_items (self w)) (deref collection (assign collection kept (self w)))) as Hsuf2.
  rewrite deref_assign in Hsuf2 |- *.
  destruct (drop_excess (_max_items (self w)) kept) as [[[]|e] kept2] eqn:Ex;
    cbn [fst snd self clk] in *.
  2:{ rewrite assign_assign, deref_assign, assign_last_seen, assign_retention, assign_max_items.
      split_and!; try reflexivity; try done; try (etrans; eassumption). }
  assert (Hlen : 0 <= _max_items (self w) ->
                 Z.of_nat (length kept2) <= _max_items (self w)).
  { intros Hmax. rewrite (drop_excess_ok _ kept Hmax) in Ex. injection Ex as <-.
    rewrite length_drop. unfold excess. lia. }
  rewrite assign_assign.
  destruct prune_last_seen.
  - destruct (ranged_prune_last_seen_frame cutoff
                {| self := assign collection kept2 (self w); clk := k |})
      as (Hp & Hr & Ht & Hm & Hi & Hw).
    cbv zeta in *. cbn [self clk] in *.
    set (r := Ranged._prune_last_seen cutoff _) in *.
    assert (Hd : deref collection (self (snd r)) = kept2).
    { subst r. unfold Ranged._prune_last_seen, bind, gets, modify, Ranged.in_clock.
      cbn [self clk].
      destruct (Ranged.stale_callsigns cutoff _ k) as [[stale|e] k2]; cbn [fst snd self clk].
      - now rewrite deref_set_last_seen, deref_assign.
      - now rewrite deref_assign. }
    rewrite Hd, Ht, Hm, Hw, assign_retention, assign_max_items.
    rewrite assign_last_seen in Hi.
    split_and!; try reflexivity; try done;
      try (etrans; eassumption); try (intros _; exact Hlen).
  - unfold ret. cbn [fst snd self clk].
    rewrite deref_assign, assign_last_seen, assign_retention, assign_max_items.
    split_and!; try reflexivity; try done;
      try (etrans; eassumption); try (intros _; exact Hlen).
Qed.

Lemma ranged_apply_insert_facts op w :
  let r := Ranged.apply_insert op w in
  _retention (self (snd r)) = _retention (self w) /\
  _max_items (self (snd r)) = _max_items (self w) /\
  wall (clk (snd r)) = wall (clk w) /\
  _packets (self (snd r)) `suffix_of`
    _packets (self w) ++ match op with InsertPacket p => [p] | InsertRssi _ => [] end /\
  _rssi (self (snd r)) `suffix_of`
    _rssi (self w) ++ match op with InsertPacket _ => [] | InsertRssi s => [s] end /\
  (fst r = Returned tt -> 0 <= _max_items (self w) ->
   Z.of_nat (affected_size op (snd r)) <= _max_items (self w)).
Proof.
  cbv zeta. destruct op as [p|s]; cbn [Ranged.apply_insert affected_size].
  - rewrite ranged_add_packet_eq.
    destruct (ranged_trim_facts packets_ref true (appended_packet p w))
      as (Hsuf & _ & Ht & Hm & Hw & Hlen).
    cbv zeta in *. cbn [deref packets_ref] in Hsuf, Hlen.
    set (r := Ranged._trim packets_ref true _) in *.
    assert (Hr : _rssi (self (snd r)) = _rssi (self w)).
    { subst r. clear.
      unfold Ranged._trim, bind, gets, Ranged.lift, Ranged.in_clock.
      cbn [self clk appended_packet].
      destruct (Ranged._now (clk w)) as [[now|e] c1]; [|reflexivity].
      cbn [self clk _retention].
      destruct (Ranged.datetime_sub now _) as [cutoff|e]; [|reflexivity].
      unfold Ranged.age_pass. cbn [self clk deref packets_ref].
      destruct (Ranged.drop_stale cutoff _ c1) as [[[]|e] [kept k]]; [|reflexivity].
      unfold capacity_pass. cbn.
      destruct (drop_excess _ kept) as [[[]|e] kept2]; [|reflexivity].
      unfold Ranged._prune_last_seen, bind, gets, modify, Ranged.in_clock. cbn.
      destruct (Ranged.stale_callsigns cutoff _ k) as [[stale|e] k2]; reflexivity. }
    rewrite Ht, Hm, Hw, Hr, app_nil_r. cbn [appended_packet self clk _retention _max_items] in *.
    split_and!; try reflexivity; [exact Hsuf|exact Hlen].
  - rewrite ranged_add_rssi_eq.
    destruct (ranged_trim_facts rssi_ref false (appended_sample s w))
      as (Hsuf & _ & Ht & Hm & Hw & Hlen).
    cbv zeta in *. cbn [deref rssi_ref] in Hsuf, Hlen.
    set (r := Ranged._trim rssi_ref false _) in *.
    assert (Hp : _packets (self (snd r)) = _packets (self w)).
    { subst r. clear.
      unfold Ranged._trim, bind, gets, Ranged.lift, Ranged.in_clock, ret.
      cbn [self clk appended_sample].
      destruct (Ranged._now (clk w)) as [[now|e] c1]; [|reflexivity].
      cbn [self clk _retention].
      destruct (Ranged.datetime_sub now _) as [cutoff|e]; [|reflexivity].
      unfold Ranged.age_pass. cbn [self clk deref rssi_ref].
      destruct (Ranged.drop_stale cutoff _ c1) as [[[]|e] [kept k]]; [|reflexivity].
      unfold capacity_pass. cbn.
      destruct (drop_excess _ kept) as [[[]|e] kept2]; reflexivity. }
    rewrite Ht, Hm, Hw, Hp, app_nil_r. cbn [appended_sample self clk _retention _max_items] in *.
    split_and!; try reflexivity; [exact Hsuf|exact Hlen].
Qed.

Lemma ranged_run_inserts_snoc ops op w :
  Ranged.run_inserts (ops ++ [op]) w =
  snd (Ranged.apply_insert op (Ranged.run_inserts ops w)).
Proof. unfold Ranged.run_inserts. now rewrite fold_left_app. Qed.

(** What every sequence of inserts keeps of a store, whether they return or
    raise. *)
Lemma ranged_run_inserts_facts ops w :
  _retention (self (Ranged.run_inserts ops w)) = _retention (self w) /\
  _max_items (self (Ranged.run_inserts ops w)) = _max_items (self w) /\
  wall (clk (Ranged.run_inserts ops w)) = wall (clk w) /\
  _packets (self (Ranged.run_inserts ops w)) `suffix_of`
    _packets (self w) ++ packets_of ops /\
  _rssi (self (Ranged.run_inserts ops w)) `suffix_of` _rssi (self w) ++ samples_of ops.
Proof.
  induction ops as [|op ops IH] using rev_ind.
  - cbn. rewrite !app_nil_r. now split_and!.
  - rewrite ranged_run_inserts_snoc, packets_of_snoc, samples_of_snoc.
    destruct IH as (Ht & Hm & Hw & Hp & Hr).
    destruct (ranged_apply_insert_facts op (Ranged.run_inserts ops w))
      as (Ht' & Hm' & Hw' & Hp' & Hr' & _).
    cbv zeta in *. rewrite Ht', Hm', Hw'. split_and!; try assumption.
    + etrans; [exact Hp'|]. rewrite app_assoc. now apply suffix_app.
    + etrans; [exact Hr'|]. rewrite app_assoc. now apply suffix_app.
Qed.

(** ** Size and age of a history after an insert (C1) *)

Lemma map_eq_elem {A B C} (f : A -> C) (g : B -> C) (l : list A) (k : list B) x :
  map f l = map g k -> x ∈ l -> exists y, y ∈ k /\ f x = g y.
Proof.
  revert k. induction l as [|a l IH]; intros k Hmap Hx; [now apply elem_of_nil in Hx|].
  destruct k as [|b k]; [discriminate|]. injection Hmap as Hhead Htail.
  apply elem_of_cons in Hx as [->|Hx].
  - exists b. split; [left|exact Hhead].
  - destruct (IH k Htail Hx) as (y & Hy & Hf). exists y. split; [now right|exact Hf].
Qed.

Lemma ranged_in_timestamp_order {T} `{Timestamped T} `{!Ranged.Dated T} `{!Conforms T}
    (items : list T) :
  Ranged.in_timestamp_order items -> in_timestamp_order items.
Proof.
  intros (stamps & Hmap & Hsorted). exists stamps. split; [|exact Hsorted].
  clear Hsorted. revert stamps Hmap.
  induction items as [|x items IH]; intros [|ts stamps] Hmap; try discriminate;
    [reflexivity|].
  injection Hmap as Hx Hrest. cbn [map]. f_equal; [|now apply IH].
  now apply ranged_stored_returned.
Qed.

(** Items that carry a convertible timestamp and are observed at or above a
    cutoff are stamped from that cutoff. *)
Lemma stamped_from_observed {T} `{Lawful T} `{!Ranged.Dated T} `{!Conforms T}
    cutoff (items all : list T) c :
  items `suffix_of` all ->
  Ranged.in_timestamp_order all ->
  Forall (fun ts => cutoff <= ts) (fst (observe_all items c)) ->
  Forall (Ranged.stamped_from cutoff) items.
Proof.
  intros Hsuf Horder Hobs.
  pose proof (in_timestamp_order_suffix all items Hsuf
                (ranged_in_timestamp_order all Horder)) as (stamps & Hmap & _).
  rewrite (observe_all_stored items stamps c Hmap) in Hobs. cbn [fst] in Hobs.
  destruct Horder as (stamps_all & Hmap_all & _).
  apply Forall_forall. intros x Hx.
  assert (Hx_all : x ∈ all).
  { destruct Hsuf as [k ->]. apply elem_of_app. now right. }
  destruct (map_eq_elem _ _ all stamps_all x Hmap_all Hx_all) as (ts & _ & Hstored).
  destruct (map_eq_elem _ _ items stamps x Hmap Hx) as (ts' & Hts' & Hstored').
  rewrite (ranged_stored_returned x ts Hstored) in Hstored'. injection Hstored' as ->.
  exists ts'. split; [exact Hstored|]. split.
  - intros c0. rewrite ranged_effective_datetime_spec. now rewrite Hstored.
  - rewrite Forall_forall in Hobs. now apply Hobs.
Qed.

(** C1, as amended.  A store built with a capacity that is not negative,
    after any sequence of inserts, each of which may have returned or
    raised: whenever a further insert returns, the history it appended to
    holds at most [max_items] items.  The insert does return when every
    datetime involved is within the range of Python's [datetime]: the
    readings of the clock, the cutoffs [now - retention], and the timestamps
    of the events inserted so far.  When, besides, the events inserted into
    that history all carry a timestamp and have arrived in timestamp order,
    every item of that history is stamped at or above the cutoff of that
    insert. *)
Theorem history_bounded_and_fresh_in_order
    (retention_seconds max_items : Z) (store : InMemoryStore) (c : clock)
    (ops : list insert_op) (op : insert_op) :
  Ranged.new_InMemoryStore retention_seconds max_items = Returned store ->
  0 <= max_items ->
  let w := Ranged.run_inserts ops {| self := store; clk := c |} in
  (forall w',
     Ranged.apply_insert op w = (Returned tt, w') ->
     Z.of_nat (affected_size op w') <= max_items) /\
  (Ranged.clock_within_range c (_retention store) ->
   Forall Ranged.representable_op (ops ++ [op]) ->
   exists w',
     Ranged.apply_insert op w = (Returned tt, w') /\
     (Ranged.arrive_in_order op (ops ++ [op]) ->
      Ranged.affected_fresh (cutoff_of w) op w')).
Proof.
  intros Hnew Hmax w.
  assert (Hfresh : {| self := store; clk := c |} =
                   fresh_world retention_seconds max_items c)
    by now apply ranged_new_InMemoryStore.
  assert (Hm0 : _max_items store = max_items).
  { apply (f_equal (fun w => _max_items (self w))) in Hfresh. exact Hfresh. }
  split.
  - intros w' Hrun.
    destruct (ranged_apply_insert_facts op w) as (_ & _ & _ & _ & _ & Hlen).
    cbv zeta in Hlen. rewrite Hrun in Hlen. cbn [fst snd] in Hlen.
    destruct (ranged_run_inserts_facts ops {| self := store; clk := c |})
      as (_ & Hm & _). fold w in Hm. cbn [self] in Hm.
    rewrite Hm, Hm0 in Hlen. now apply Hlen.
  - intros Hclock Hops. apply Forall_app in Hops as [Hops Hop].
    apply Forall_cons in Hop as [Hop _].
    assert (Hw0 : Ranged.within_range {| self := store; clk := c |}).
    { rewrite Hfresh. apply fresh_world_within_range.
      apply (f_equal (fun w => _retention (self w))) in Hfresh. cbn in Hfresh.
      now rewrite <- Hfresh. }
    destruct (ranged_run_inserts ops _ Hw0 Hops) as [Hrun Hw]. fold w in Hrun.
    rewrite <- Hrun in Hw.
    rewrite (ranged_apply_insert op w Hw Hop).
    destruct (storage_history_bounded_and_fresh retention_seconds max_items c ops op Hmax)
      as (w' & Hins & _ & Hage).
    cbv zeta in Hins, Hage. rewrite <- Hfresh, <- Hrun in Hins, Hage.
    exists w'. split; [exact Hins|]. intros Horder.
    destruct (run_inserts_inv retention_seconds max_items c (ops ++ [op]))
      as (Hp & Hr & _).
    rewrite run_inserts_snoc, <- Hfresh, <- Hrun in Hp, Hr.
    rewrite Hins in Hp, Hr. cbn [snd] in Hp, Hr.
    destruct op as [p|s]; cbn [Ranged.arrive_in_order Ranged.affected_fresh
                                 arrive_in_order affected_observed] in *.
    + eapply stamped_from_observed; [exact Hp|exact Horder|].
      apply Hage. now apply ranged_in_timestamp_order.
    + eapply stamped_from_observed; [exact Hr|exact Horder|].
      apply Hage. now apply ranged_in_timestamp_order.
Qed.

Lemma settling_within_range start retention :
  Ranged.datetime_min <= start - retention ->
  Ranged.datetime_min <= start ->
  start + 1000000 <= Ranged.datetime_max ->
  start - retention + 1000000 <= Ranged.datetime_max ->
  Ranged.clock_within_range (settling start) retention.
Proof.
  intros H1 H2 H3 H4 n. rewrite !in_range_bounds. cbn [settling wall]. lia.
Qed.

(** Scenario B of the tests: capacity 3, five samples with increasing
    timestamps; the insert of the fifth leaves three. *)
Lemma history_bounded_and_fresh_in_order_witness :
  let ops := [InsertRssi (sample_at (seconds 1001));
              InsertRssi (sample_at (seconds 1002));
              InsertRssi (sample_at (seconds 1003));
              InsertRssi (sample_at (seconds 1004))] in
  let op := InsertRssi (sample_at (seconds 1005)) in
  let store := {| _packets := []; _rssi := []; _last_seen_by_station := [];
                  _retention := seconds 3600; _max_items := 3 |} in
  let c := settling (seconds 1000) in
  let w := Ranged.run_inserts ops {| self := store; clk := c |} in
  Ranged.new_InMemoryStore 3600 3 = Returned store /\
  0 <= 3 /\
  exists w',
    Ranged.apply_insert op w = (Returned tt, w') /\
    Z.of_nat (affected_size op w') <= 3 /\
    Ranged.affected_fresh (cutoff_of w) op w'.
Proof.
  intros ops op store c w.
  assert (Hnew : Ranged.new_InMemoryStore 3600 3 = Returned store) by reflexivity.
  assert (Hmax : 0 <= 3) by lia.
  assert (Hclock : Ranged.clock_within_range c (_retention store)).
  { apply settling_within_range; vm_compute; discriminate. }
  assert (Hops : Forall Ranged.representable_op (ops ++ [op])).
  { repeat constructor. }
  assert (Hord : Ranged.arrive_in_order op (ops ++ [op])).
  { exists [seconds 1001; seconds 1002; seconds 1003; seconds 1004; seconds 1005].
    split; [reflexivity|].
    repeat (constructor; try (unfold seconds; lia)). }
  split; [exact Hnew|]. split; [exact Hmax|].
  destruct (history_bounded_and_fresh_in_order 3600 3 store c ops op Hnew Hmax)
    as [Hsize Hreturns].
  destruct (Hreturns Hclock Hops) as (w' & Hrun & Hfresh).
  exists w'. split; [exact Hrun|]. split; [exact (Hsize w' Hrun)|exact (Hfresh Hord)].
Defined.

(** C1, as stated, fails when events arrive out of timestamp order, all
    datetimes being within the range: with a retention of 60 s and room for
    100 items, at time 1000 s, a packet stamped 990 s is inserted, then one
    stamped 820 s.  The age pass tests the head only, finds it fresh and
    stops: the packet stamped 820 s stays, 180 s old. *)
Lemma stale_item_retained_out_of_order :
  ~ (forall (retention_seconds max_items : Z) (store : InMemoryStore) (c : clock)
            (ops : list insert_op) (op : insert_op),
       Ranged.new_InMemoryStore retention_seconds max_items = Returned store ->
       0 <= max_items ->
       Ranged.clock_within_range c (_retention store) ->
       Forall Ranged.representable_op (ops ++ [op]) ->
       let w := Ranged.run_inserts ops {| self := store; clk := c |} in
       exists w',
         Ranged.apply_insert op w = (Returned tt, w') /\
         Z.of_nat (affected_size op w') <= max_items /\
         Ranged.affected_fresh (cutoff_of w) op w').
Proof.
  intros Hclaim.
  destruct (Hclaim 60 100
              {| _packets := []; _rssi := []; _last_seen_by_station := [];
                 _retention := seconds 60; _max_items := 100 |}
              (settling (seconds 1000))
              [InsertPacket (packet_at "RECENT" (seconds 990))]
              (InsertPacket (packet_at "OLD" (seconds 820))))
    as (w' & Hrun & _ & Hall).
  - reflexivity.
  - lia.
  - apply settling_within_range; vm_compute; discriminate.
  - repeat constructor.
  - cbv zeta in Hrun, Hall. apply (f_equal snd) in Hrun. cbn [snd] in Hrun.
    subst w'. cbn [Ranged.affected_fresh] in Hall.
    match type of Hall with Forall _ ?items =>
      assert (Hitems : items = [packet_at "RECENT" (seconds 990);
                                packet_at "OLD" (seconds 820)])
        by (vm_compute; reflexivity)
    end.
    rewrite Hitems in Hall.
    match type of Hall with Forall (Ranged.stamped_from ?cut) _ =>
      assert (Hcut : cut = seconds 940 + 1) by (vm_compute; reflexivity)
    end.
    rewrite Hcut in Hall.
    inversion Hall as [|? ? _ Hrest]; subst.
    inversion Hrest as [|? ? Hold _]; subst.
    destruct Hold as (ts & Hstored & _ & Hts).
    vm_compute in Hstored. injection Hstored as <-.
    unfold seconds in Hts. lia.
Qed.

(** A packet whose epoch is past the year 9999 passes the validation of the
    request ([unix_time >= 0]) and is appended; the head test of the age pass
    then raises, at this insert and at every later one: the capacity loop is
    not reached any more and the history grows past [max_items]. *)
Example out_of_range_packet_blocks_eviction :
  let w0 := {| self := {| _packets := []; _rssi := []; _last_seen_by_station := [];
                          _retention := seconds 3600; _max_items := 1 |};
               clk := settling (seconds 1000) |} in
  let bad := packet_epoch "N0CALL-1" year_10000 in
  let good := packet_at "N0CALL-2" (seconds 1000) in
  fst (Ranged.add_packet bad w0) = Raised ValueError /\
  fst (Ranged.add_packet good (snd (Ranged.add_packet bad w0))) = Raised ValueError /\
  _packets (self (Ranged.run_inserts [InsertPacket bad; InsertPacket good] w0)) =
    [bad; good].
Proof. cbv zeta. split_and!; vm_compute; reflexivity. Qed.

(** ** The ordered snapshot (C6) *)

Lemma ranged_make_entries_returned {T} `{!Ranged.Dated T} (wrap : T -> StreamMessage)
    (items : list T) : forall c entries c',
  Ranged.make_entries wrap items c = (Returned entries, c') ->
  ranged_observe_all items c = (Returned (map fst entries), c') /\
  map snd entries = map wrap items.
Proof.
  induction items as [|x rest IH]; intros c entries c' Hrun.
  - injection Hrun as <- <-. now split.
  - cbn [Ranged.make_entries ranged_observe_all] in *. unfold bind, ret in *.
    destruct (Ranged.effective_datetime x c) as [[ts|e] c1]; [|discriminate].
    destruct (Ranged.make_entries wrap rest c1) as [[more|e] c2] eqn:Erest; [|discriminate].
    injection Hrun as <- <-.
    destruct (IH c1 more c2 Erest) as [Hobs Hmsgs].
    rewrite Hobs. cbn [map fst snd]. now rewrite Hmsgs.
Qed.

Lemma ranged_snapshot_entries_frame w :
  self (snd (Ranged.snapshot_entries w)) = self w.
Proof.
  unfold Ranged.snapshot_entries, bind, gets, Ranged.in_clock, ret. cbn [self clk].
  destruct (Ranged.make_entries packet_message _ (clk w)) as [[e1|e] c1];
    [|reflexivity]. cbn [self clk].
  destruct (Ranged.make_entries rssi_message _ c1) as [[e2|e] c2]; reflexivity.
Qed.

Lemma ranged_snapshot_entries_agrees w :
  readings_in_range (clk w) ->
  Forall Ranged.representable (_packets (self w)) ->
  Forall Ranged.representable (_rssi (self w)) ->
  Ranged.snapshot_entries w = snapshot_entries w /\
  Ranged.snapshot_stream_events w = snapshot_stream_events w.
Proof.
  intros Hc Hp Hr.
  assert (He : Ranged.snapshot_entries w = snapshot_entries w).
  { unfold Ranged.snapshot_entries, snapshot_entries, bind, gets, Ranged.in_clock, timed, ret.
    cbn [self clk].
    rewrite (ranged_make_entries_agrees packet_message _ _ Hp Hc). unfold returned.
    pose proof (make_entries_spec packet_message (_packets (self w)) (clk w))
      as (_ & _ & Hclock).
    pose proof (observe_all_later (_packets (self w)) (clk w)) as Hl.
    rewrite <- Hclock in Hl.
    destruct (make_entries packet_message _ (clk w)) as [e1 c1]. cbn [fst snd self clk] in *.
    rewrite (ranged_make_entries_agrees rssi_message _ _ Hr (later_readings _ _ Hl Hc)).
    unfold returned. destruct (make_entries rssi_message _ c1) as [e2 c2]. reflexivity. }
  split; [exact He|].
  unfold Ranged.snapshot_stream_events, snapshot_stream_events, bind. now rewrite He.
Qed.

(** C6, as amended.  Whenever [snapshot_stream_events] returns, it has left
    the store as it was; its entries pair each retained packet, then each
    retained sample, with the effective datetime that the evaluation made for
    the entry returned; the messages are those of the entries sorted by that
    key: the keys are in non-decreasing order, the sorted entries are a
    permutation of the entries in which entries of equal key keep their
    order, and there are as many messages as retained packets plus retained
    samples.  It returns when the readings of the clock and the timestamps of
    the retained items are within the range of [datetime]; when it raises,
    the store is as it was. *)
Theorem snapshot_sorted_and_complete (w : World) :
  let packets := _packets (self w) in
  let samples := _rssi (self w) in
  (forall messages w',
     Ranged.snapshot_stream_events w = (Returned messages, w') ->
     exists entries keys_p keys_s c1,
       Ranged.snapshot_entries w = (Returned entries, w') /\
       messages = map snd (sort_by_key entries) /\
       self w' = self w /\
       ranged_observe_all packets (clk w) = (Returned keys_p, c1) /\
       ranged_observe_all samples c1 = (Returned keys_s, clk w') /\
       map fst entries = keys_p ++ keys_s /\
       map snd entries = map packet_message packets ++ map rssi_message samples /\
       Sorted Z.le (map fst (sort_by_key entries)) /\
       sort_by_key entries ≡ₚ entries /\
       (forall ts, filter (fun e => fst e = ts) (sort_by_key entries) =
                   filter (fun e => fst e = ts) entries) /\
       length messages = (length packets + length samples)%nat) /\
  (readings_in_range (clk w) ->
   Forall Ranged.representable packets ->
   Forall Ranged.representable samples ->
   exists messages w', Ranged.snapshot_stream_events w = (Returned messages, w')) /\
  (forall e w',
     Ranged.snapshot_stream_events w = (Raised e, w') -> self w' = self w).
Proof.
  intros packets samples. split_and!.
  - intros messages w' Hrun.
    unfold Ranged.snapshot_stream_events, bind, ret in Hrun.
    pose proof (ranged_snapshot_entries_frame w) as Hframe.
    destruct (Ranged.snapshot_entries w) as [[entries|e] w1] eqn:Hentries; [|discriminate].
    injection Hrun as <- <-. cbn [snd] in Hframe.
    unfold Ranged.snapshot_entries, bind, gets, Ranged.in_clock, ret in Hentries.
    subst packets samples. cbn [self clk] in Hentries.
    destruct (Ranged.make_entries packet_message _ (clk w)) as [[e1|e] c1] eqn:E1;
      cbn [self clk] in Hentries; [|discriminate].
    destruct (Ranged.make_entries rssi_message _ c1) as [[e2|e] c2] eqn:E2;
      cbn [self clk] in Hentries; [|discriminate].
    injection Hentries as <- <-.
    destruct (ranged_make_entries_returned _ _ _ _ _ E1) as [Hk1 Hm1].
    destruct (ranged_make_entries_returned _ _ _ _ _ E2) as [Hk2 Hm2].
    exists (e1 ++ e2), (map fst e1), (map fst e2), c1.
    split_and!; try reflexivity; try assumption.
    + now rewrite map_app.
    + now rewrite map_app, Hm1, Hm2.
    + apply sort_by_key_sorted.
    + apply sort_by_key_perm.
    + intros ts. apply sort_by_key_stable.
    + rewrite length_map, (Permutation_length (sort_by_key_perm _)), length_app.
      rewrite <- (length_map snd e1), Hm1, <- (length_map snd e2), Hm2.
      now rewrite !length_map.
  - intros Hc Hp Hr.
    destruct (ranged_snapshot_entries_agrees w Hc Hp Hr) as [_ ->].
    apply snapshot_returns.
  - intros e w' Hrun.
    unfold Ranged.snapshot_stream_events, bind, ret in Hrun.
    pose proof (ranged_snapshot_entries_frame w) as Hframe.
    destruct (Ranged.snapshot_entries w) as [[entries|e'] w1]; [discriminate|].
    injection Hrun as <- <-. exact Hframe.
Qed.

(** A store that holds a packet stamped 995 s and a sample stamped 990 s:
    the snapshot returns two messages, the sample first. *)
Lemma snapshot_sorted_and_complete_witness :
  let packet := packet_at "N0CALL-1" (seconds 995) in
  let sample := sample_at (seconds 990) in
  let w := {| self := {| _packets := [packet]; _rssi := [sample];
                         _last_seen_by_station := [("N0CALL-1"%string, packet)];
                         _retention := seconds 3600; _max_items := 10000 |};
              clk := settling (seconds 1000) |} in
  readings_in_range (clk w) /\
  Forall Ranged.representable (_packets (self w)) /\
  Forall Ranged.representable (_rssi (self w)) /\
  exists w',
    Ranged.snapshot_stream_events w =
      (Returned [rssi_message sample; packet_message packet], w') /\
    self w' = self w.
Proof.
  intros packet sample w.
  assert (Hc : readings_in_range (clk w)).
  { apply (clock_within_range_readings _ (seconds 3600)).
    apply settling_within_range; vm_compute; discriminate. }
  assert (Hp : Forall Ranged.representable (_packets (self w))) by repeat constructor.
  assert (Hr : Forall Ranged.representable (_rssi (self w))) by repeat constructor.
  split; [exact Hc|]. split; [exact Hp|]. split; [exact Hr|].
  destruct (snapshot_sorted_and_complete w) as (Hfacts & Hreturns & _).
  destruct (Hreturns Hc Hp Hr) as (messages & w' & Hrun).
  destruct (Hfacts messages w' Hrun) as (entries & _ & _ & _ & _ & _ & Hself & _).
  exists w'. split; [|exact Hself].
  rewrite Hrun. f_equal. f_equal.
  apply (f_equal fst) in Hrun. cbn [fst] in Hrun.
  assert (Hval : fst (Ranged.snapshot_stream_events w) =
                 Returned [rssi_message sample; packet_message packet])
    by (vm_compute; reflexivity).
  rewrite Hrun in Hval. now injection Hval.
Defined.

(** C6, as stated for every store state, fails: the insert of a packet whose
    epoch is past the year 9999 raises and leaves the packet in the history,
    and the snapshot of that store raises. *)
Lemma snapshot_raises_on_out_of_range_packet :
  let store := {| _packets := []; _rssi := []; _last_seen_by_station := [];
                  _retention := seconds 3600; _max_items := 10000 |} in
  let bad := packet_epoch "N0CALL-1" year_10000 in
  let w := snd (Ranged.add_packet bad {| self := store; clk := settling (seconds 1000) |}) in
  Ranged.new_InMemoryStore 3600 10000 = Returned store /\
  _packets (self w) = [bad] /\
  fst (Ranged.snapshot_stream_events w) = Raised ValueError /\
  ~ (forall w : World,
       exists messages w', Ranged.snapshot_stream_events w = (Returned messages, w')).
Proof.
  cbv zeta.
  assert (Hraises : fst (Ranged.snapshot_stream_events
                           (snd (Ranged.add_packet (packet_epoch "N0CALL-1" year_10000)
                                   {| self := {| _packets := []; _rssi := [];
                                                 _last_seen_by_station := [];
                                                 _retention := seconds 3600;
                                                 _max_items := 10000 |};
                                      clk := settling (seconds 1000) |})))
                    = Raised ValueError) by (vm_compute; reflexivity).
  split_and!; [reflexivity|vm_compute; reflexivity|exact Hraises|].
  intros Hclaim.
  match type of Hraises with fst (Ranged.snapshot_stream_events ?w) = _ =>
    destruct (Hclaim w) as (messages & w' & Hrun)
  end.
  rewrite Hrun in Hraises. discriminate.
Qed.

(** ** Configuration errors and operations that return (C8) *)

Lemma new_AppSettings_returned env settings :
  Config.new_AppSettings env = Returned settings ->
  60 <= Config.history_retention_seconds settings /\
  1 <= Config.max_history_items settings /\
  0 < Config.sse_heartbeat_interval settings.
Proof.
  unfold Config.new_AppSettings. cbv zeta.
  destruct (60 <=? _) eqn:E1; cbn [negb]; [|discriminate].
  destruct (1 <=? _) eqn:E2; cbn [negb]; [|discriminate].
  destruct (0 <? _) eqn:E3; cbn [negb]; [|discriminate].
  intros [= <-]. cbn. lia.
Qed.

Lemma new_AppSettings_rejects env :
  (exists r, Config.env_history_retention_seconds env = Some r /\ r < 60) \/
  (exists m, Config.env_max_history_items env = Some m /\ m < 1) ->
  Config.new_AppSettings env = Raised ValidationError.
Proof.
  unfold Config.new_AppSettings. cbv zeta.
  intros [(r & -> & Hr)|(m & -> & Hm)]; cbn [default from_option id].
  - destruct (Z.leb_spec 60 r); [lia|reflexivity].
  - destruct (60 <=? _); [|reflexivity]. cbn [negb].
    destruct (Z.leb_spec 1 m); [lia|reflexivity].
Qed.

Lemma ranged_timedelta_seconds n :
  Ranged.timedelta_seconds n =
  if (-86399999913600 <=? n) && (n <=? 86399999999999)
  then Returned (timedelta_seconds n) else Raised OverflowError.
Proof.
  unfold Ranged.timedelta_seconds, timedelta_seconds. cbv zeta.
  destruct (Z.leb_spec (-999999999) (n / 86400)) as [Hlo|Hlo];
    destruct (Z.leb_spec (n / 86400) 999999999) as [Hhi|Hhi];
    destruct (Z.leb_spec (-86399999913600) n) as [Hlo'|Hlo'];
    destruct (Z.leb_spec n 86399999999999) as [Hhi'|Hhi'];
    cbn [andb]; try reflexivity; exfalso;
    pose proof (Z.div_mod n 86400 ltac:(lia));
    pose proof (Z.mod_pos_bound n 86400 ltac:(lia)); lia.
Qed.

Lemma ranged_create_app env c cache app cache' :
  filled_by_get_settings cache ->
  Ranged.create_app env c cache = (Returned app, cache') ->
  60 <= Config.history_retention_seconds (settings app) /\
  1 <= Config.max_history_items (settings app) /\
  cache' = Some (settings app) /\
  (cache = None -> Config.new_AppSettings env = Returned (settings app)) /\
  (forall cached, cache = Some cached -> settings app = cached) /\
  world app = fresh_world (Config.history_retention_seconds (settings app))
                          (Config.max_history_items (settings app)) c /\
  broadcast app = new_BroadcastHub.
Proof.
  intros Hcache. unfold Ranged.create_app, bind, Config.get_settings, Ranged.lift, ret.
  destruct cache as [cached|].
  - destruct Hcache as (env' & Henv').
    destruct (Ranged.new_InMemoryStore _ _) as [store|e] eqn:Hstore; [|discriminate].
    intros [= <- <-]. cbn [settings world broadcast].
    destruct (new_AppSettings_returned env' cached Henv') as (Hr & Hm & _).
    split_and!; try reflexivity; try assumption; try congruence.
    now apply ranged_new_InMemoryStore.
  - destruct (Config.new_AppSettings env) as [s|e] eqn:Hs; [|discriminate].
    destruct (Ranged.new_InMemoryStore _ _) as [store|e] eqn:Hstore; [|discriminate].
    intros [= <- <-]. cbn [settings world broadcast].
    destruct (new_AppSettings_returned env s Hs) as (Hr & Hm & _).
    split_and!; try reflexivity; try assumption; try congruence.
    now apply ranged_new_InMemoryStore.
Qed.

Lemma ranged_apply_insert_returns op w :
  0 <= _max_items (self w) ->
  Ranged.within_range w -> Ranged.representable_op op ->
  exists w', Ranged.apply_insert op w = (Returned tt, w') /\ Ranged.within_range w'.
Proof.
  intros Hmax Hw Hop. rewrite (ranged_apply_insert op w Hw Hop).
  pose proof (apply_insert_returns op w Hmax) as Hret.
  pose proof (apply_insert_within_range op w Hw Hop) as Hw'.
  destruct (apply_insert op w) as [r w']. cbn [fst snd] in *. subst r.
  exists w'. now split.
Qed.

Lemma ranged_recent_stations_agrees since w :
  readings_in_range (clk w) ->
  Forall Ranged.representable (map snd (_last_seen_by_station (self w))) ->
  Ranged.recent_stations since w = recent_stations since w.
Proof.
  intros Hc Hix. unfold Ranged.recent_stations, recent_stations, bind, gets,
    Ranged.in_clock, timed. cbn [self clk].
  rewrite (ranged_stations_since since _ _ Hix Hc). unfold returned.
  destruct (stations_since since _ (clk w)) as [d k]. reflexivity.
Qed.

(** C8, as amended.  A retention below 60 s or a capacity below 1, and so
    every non-positive one, is rejected by [AppSettings()]; [get_settings]
    and [create_app] raise that error when the cache of [get_settings] is
    empty, before the store is built, and an application that [create_app]
    returns always has settings within these bounds.  The constructor of the
    store validates nothing: it returns for every capacity and for every
    retention that [timedelta] can hold, and raises [OverflowError] for the
    others.  On a store whose capacity is not negative an insert returns when
    the datetimes involved are within the range of [datetime], and leaves
    the store so; the queries that read no datetime return in every world,
    the snapshot and the stations seen since a moment return when the
    datetimes are within the range. *)
Theorem configuration_rejected_by_settings :
  (forall (env : Config.environment) (c : clock),
     (exists r, Config.env_history_retention_seconds env = Some r /\ r < 60) \/
     (exists m, Config.env_max_history_items env = Some m /\ m < 1) ->
     Config.new_AppSettings env = Raised ValidationError /\
     Config.get_settings env None = (Raised ValidationError, None) /\
     Ranged.create_app env c None = (Raised ValidationError, None)) /\
  (forall (env : Config.environment) (c : clock)
          (cache cache' : option Config.AppSettings) (app : App),
     filled_by_get_settings cache ->
     Ranged.create_app env c cache = (Returned app, cache') ->
     60 <= Config.history_retention_seconds (settings app) /\
     1 <= Config.max_history_items (settings app) /\
     _retention (self (world app)) =
       Config.history_retention_seconds (settings app) * 1000000 /\
     _max_items (self (world app)) = Config.max_history_items (settings app)) /\
  (forall retention_seconds max_items : Z,
     Ranged.new_InMemoryStore retention_seconds max_items =
     if (-86399999913600 <=? retention_seconds) && (retention_seconds <=? 86399999999999)
     then Returned {| _packets := []; _rssi := []; _last_seen_by_station := [];
                      _retention := retention_seconds * 1000000;
                      _max_items := max_items |}
     else Raised OverflowError) /\
  (forall (w : World) (op : insert_op),
     0 <= _max_items (self w) ->
     Ranged.within_range w -> Ranged.representable_op op ->
     exists w', Ranged.apply_insert op w = (Returned tt, w') /\ Ranged.within_range w') /\
  (forall (w : World) (since : Z),
     fst (get_recent_packets w) = Returned (_packets (self w)) /\
     fst (get_recent_rssi w) = Returned (_rssi (self w)) /\
     fst (get_last_seen w) = Returned (_last_seen_by_station (self w)) /\
     (exists counts, fst (stats w) = Returned counts) /\
     (Ranged.within_range w ->
      (exists messages, fst (Ranged.snapshot_stream_events w) = Returned messages) /\
      (exists stations, fst (Ranged.recent_stations since w) = Returned stations))).
Proof.
  split_and!.
  - intros env c Hbad. pose proof (new_AppSettings_rejects env Hbad) as Hs.
    split; [exact Hs|].
    unfold Ranged.create_app, bind, Config.get_settings. now rewrite Hs.
  - intros env c cache cache' app Hcache Happ.
    destruct (ranged_create_app env c cache app cache' Hcache Happ)
      as (Hr & Hm & _ & _ & _ & Hw & _).
    rewrite Hw. now split_and!.
  - intros retention_seconds max_items. unfold Ranged.new_InMemoryStore.
    rewrite ranged_timedelta_seconds. now destruct (_ && _).
  - intros w op. apply ranged_apply_insert_returns.
  - intros w since. split_and!; try reflexivity; [eexists; reflexivity|].
    intros [Hc Hp Hr Hix].
    pose proof (clock_within_range_readings _ _ Hc) as Hreads. split.
    + destruct (ranged_snapshot_entries_agrees w Hreads Hp Hr) as [_ ->].
      destruct (snapshot_returns w) as (messages & w' & ->). now exists messages.
    + rewrite (ranged_recent_stations_agrees since w Hreads Hix).
      unfold recent_stations, bind, gets, timed. cbn [self clk].
      destruct (stations_since since _ (clk w)) as [d k]. now exists d.
Qed.

Lemma configuration_rejected_by_settings_witness :
  let env := {| Config.env_history_retention_seconds := Some 0;
                Config.env_max_history_items := Some 0;
                Config.env_sse_heartbeat_interval := None;
                Config.env_stats_include_history := None |} in
  let w := {| self := {| _packets := []; _rssi := []; _last_seen_by_station := [];
                         _retention := seconds 60; _max_items := 1 |};
              clk := settling (seconds 1000) |} in
  let op := InsertPacket (packet_at "N0CALL-1" (seconds 990)) in
  Ranged.create_app env (settling (seconds 1000)) None = (Raised ValidationError, None) /\
  0 <= _max_items (self w) /\
  Ranged.within_range w /\
  Ranged.representable_op op /\
  exists w', Ranged.apply_insert op w = (Returned tt, w').
Proof.
  intros env w op.
  destruct configuration_rejected_by_settings as (Hrejects & _ & _ & Hinserts & _).
  assert (Hbad : (exists r, Config.env_history_retention_seconds env = Some r /\ r < 60) \/
                 (exists m, Config.env_max_history_items env = Some m /\ m < 1)).
  { left. exists 0. split; [reflexivity|lia]. }
  assert (Hmax : 0 <= _max_items (self w)) by (cbn; lia).
  assert (Hw : Ranged.within_range w).
  { split; [|constructor..]. apply settling_within_range; vm_compute; discriminate. }
  assert (Hop : Ranged.representable_op op) by exact I.
  split; [exact (proj2 (proj2 (Hrejects env (settling (seconds 1000)) Hbad)))|].
  split; [exact Hmax|]. split; [exact Hw|]. split; [exact Hop|].
  destruct (Hinserts w op Hmax Hw Hop) as (w' & Hrun & _). now exists w'.
Defined.

(** C8, as stated, fails on the constructor of the store: it returns a store
    for a retention of 0 s and a capacity of 0, and for a retention of -60 s
    and a capacity of -1; on the latter store [add_packet] raises
    [IndexError], the capacity loop popping from the emptied deque. *)
Lemma store_constructor_accepts_nonpositive :
  (exists store, Ranged.new_InMemoryStore 0 0 = Returned store /\
                 _retention store = 0 /\ _max_items store = 0) /\
  (exists store,
     Ranged.new_InMemoryStore (-60) (-1) = Returned store /\
     fst (Ranged.add_packet (packet_at "N0CALL-1" (seconds 990))
            {| self := store; clk := settling (seconds 1000) |}) = Raised IndexError) /\
  ~ (forall retention_seconds max_items : Z,
       retention_seconds <= 0 \/ max_items <= 0 ->
       exists e, Ranged.new_InMemoryStore retention_seconds max_items = Raised e).
Proof.
  split_and!.
  - eexists. split; [reflexivity|]. now split.
  - eexists. split; [reflexivity|]. vm_compute. reflexivity.
  - intros Hclaim. destruct (Hclaim 0 0) as (e & He); [lia|]. discriminate He.
Qed.

(** ** The start of a stream session (C3) *)

Lemma ranged_snapshot_perm w messages w' :
  Ranged.snapshot_stream_events w = (Returned messages, w') ->
  self w' = self w /\
  messages ≡ₚ map packet_message (_packets (self w)) ++ map rssi_message (_rssi (self w)).
Proof.
  intros Hrun. unfold Ranged.snapshot_stream_events, bind, ret in Hrun.
  pose proof (ranged_snapshot_entries_frame w) as Hframe.
  destruct (Ranged.snapshot_entries w) as [[entries|e] w1] eqn:Hentries; [|discriminate].
  injection Hrun as <- <-. cbn [snd] in Hframe. split; [exact Hframe|].
  unfold Ranged.snapshot_entries, bind, gets, Ranged.in_clock, ret in Hentries.
  cbn [self clk] in Hentries.
  destruct (Ranged.make_entries packet_message _ (clk w)) as [[e1|e] c1] eqn:E1;
    cbn [self clk] in Hentries; [|discriminate].
  destruct (Ranged.make_entries rssi_message _ c1) as [[e2|e] c2] eqn:E2;
    cbn [self clk] in Hentries; [|discriminate].
  injection Hentries as <- <-.
  destruct (ranged_make_entries_returned _ _ _ _ _ E1) as [_ Hm1].
  destruct (ranged_make_entries_returned _ _ _ _ _ E2) as [_ Hm2].
  rewrite <- Hm1, <- Hm2, <- map_app.
  apply Permutation_map, sort_by_key_perm.
Qed.

Lemma stream_start_raises app e w1 :
  Ranged.snapshot_stream_events (world app) = (Raised e, w1) ->
  Ranged.stream_updates_start app = (Raised e, with_world w1 app).
Proof.
  intros Hsnap. unfold Ranged.stream_updates_start, bind, in_store. now rewrite Hsnap.
Qed.

(** C3, as amended.  [stream_updates] takes the snapshot first and subscribes
    second, and nothing else is served between the two steps.  When the
    snapshot returns, the replay is a permutation of the messages of the
    events the store retains at that moment; the queue of the session is
    allocated next, registered beside the listeners there were, and empty:
    nothing of the replay is pending in it.  A message published once the
    session has started is pending in the queue.  When the snapshot raises,
    the start raises the same exception and the hub is as it was: no
    subscription has been made. *)
Theorem stream_start_snapshot_then_subscribe (app : App) :
  let queue := next_handle (broadcast app) in
  (forall initial_messages w1,
     Ranged.snapshot_stream_events (world app) = (Returned initial_messages, w1) ->
     exists app',
       Ranged.stream_updates_start app = (Returned (initial_messages, queue), app') /\
       world app' = w1 /\
       self w1 = self (world app) /\
       initial_messages ≡ₚ map packet_message (_packets (self (world app))) ++
                           map rssi_message (_rssi (self (world app))) /\
       _listeners (broadcast app') =
         <[queue := new_Queue 512]> (_listeners (broadcast app)) /\
       pending queue app' = [] /\
       forall message,
         pending queue (snd (in_hub (publish message) app')) = [message]) /\
  (forall e w1,
     Ranged.snapshot_stream_events (world app) = (Raised e, w1) ->
     exists app',
       Ranged.stream_updates_start app = (Raised e, app') /\
       world app' = w1 /\
       broadcast app' = broadcast app).
Proof.
  cbv zeta. split.
  - intros messages w1 Hsnap.
    destruct (ranged_snapshot_perm _ _ _ Hsnap) as [Hself Hperm].
    eexists. split.
    { unfold Ranged.stream_updates_start, bind, in_store, in_hub, subscribe, ret.
      rewrite Hsnap. reflexivity. }
    cbn [world broadcast _listeners settings].
    split; [reflexivity|]. split; [exact Hself|]. split; [exact Hperm|].
    split; [reflexivity|]. split.
    + unfold pending. cbn [broadcast _listeners]. now rewrite lookup_insert_eq.
    + intros message. unfold in_hub. cbn [broadcast]. rewrite publish_eq.
      unfold pending. cbn [snd broadcast _listeners].
      rewrite lookup_fmap, lookup_insert_eq. reflexivity.
  - intros e w1 Hsnap. exists (with_world w1 app).
    split; [now apply stream_start_raises|]. now split.
Qed.

(** On the application built from the default settings, after a request has
    posted a packet stamped 990 s: the session starts with that packet as its
    replay and with queue 0, which is empty; a sample published next is
    pending in it. *)
Lemma stream_start_snapshot_then_subscribe_witness :
  let packet := packet_at "N0CALL-1" (seconds 990) in
  let app := snd (Ranged.ingest_packets [packet] (default_app (settling (seconds 1000)))) in
  let later := rssi_message (sample_at (seconds 1001)) in
  exists w1 app',
    Ranged.snapshot_stream_events (world app) = (Returned [packet_message packet], w1) /\
    Ranged.stream_updates_start app = (Returned ([packet_message packet], 0%nat), app') /\
    pending 0 app' = [] /\
    pending 0 (snd (in_hub (publish later) app')) = [later].
Proof.
  intros packet app later.
  destruct (Ranged.snapshot_stream_events (world app)) as [r w1] eqn:Hrun.
  assert (Hr : r = Returned [packet_message packet]).
  { apply (f_equal fst) in Hrun. cbn [fst] in Hrun. rewrite <- Hrun.
    vm_compute. reflexivity. }
  subst r.
  destruct (stream_start_snapshot_then_subscribe app) as [Hstart _].
  destruct (Hstart _ _ Hrun) as (app' & Hrun' & _ & _ & _ & _ & Hempty & Hlater).
  exists w1, app'. split; [reflexivity|]. split; [exact Hrun'|].
  split; [exact Hempty|exact (Hlater later)].
Defined.

(** C3, as stated, fails: the session does not subscribe before the
    snapshot.  On the application built from the default settings, a request
    posts a packet whose epoch is past the year 9999: the insert raises and
    the packet stays in the history.  The session that starts next raises in
    the snapshot, and the hub has no listener and has allocated no queue: had
    the subscription come first, its queue would be registered. *)
Lemma failed_snapshot_subscribes_nothing :
  let c := settling (seconds 1000) in
  let bad := packet_epoch "N0CALL-1" year_10000 in
  let app := snd (Ranged.ingest_packets [bad] (default_app c)) in
  let started := Ranged.stream_updates_start app in
  fst (Ranged.create_app default_environment c None) = Returned (default_app c) /\
  fst (Ranged.ingest_packets [bad] (default_app c)) = Raised ValueError /\
  _packets (self (world app)) = [bad] /\
  fst started = Raised ValueError /\
  broadcast (snd started) = new_BroadcastHub /\
  _listeners (snd (subscribe (broadcast app))) !! 0%nat = Some (new_Queue 512).
Proof.
  cbv zeta.
  assert (Hsnap : fst (Ranged.snapshot_stream_events
                         (world (snd (Ranged.ingest_packets
                                        [packet_epoch "N0CALL-1" year_10000]
                                        (default_app (settling (seconds 1000)))))))
                  = Raised ValueError) by (vm_compute; reflexivity).
  destruct (Ranged.snapshot_stream_events _) as [r w1] eqn:Hrun in Hsnap.
  cbn [fst] in Hsnap. subst r.
  rewrite (stream_start_raises _ _ _ Hrun).
  split_and!; try reflexivity; vm_compute; reflexivity.
Qed.

(** * Further properties, within the datetime range *)

(** ** Ingestion within the range *)

Lemma ranged_ingest_packets_from packets : forall accepted app,
  Ranged.within_range (world app) -> Forall Ranged.representable packets ->
  Ranged.ingest_packets_from accepted packets app = ingest_packets_from accepted packets app.
Proof.
  induction packets as [|p rest IH]; intros accepted app Hw Hps; [reflexivity|].
  apply Forall_cons in Hps as [Hp Hrest].
  cbn [Ranged.ingest_packets_from ingest_packets_from]. unfold bind, in_store.
  rewrite (ranged_add_packet p (world app) Hw Hp).
  pose proof (apply_insert_within_range (InsertPacket p) (world app) Hw Hp) as Hw'.
  cbn [apply_insert] in Hw'.
  destruct (add_packet p (world app)) as [[[]|e] w']; [|reflexivity].
  cbn [snd] in Hw'. unfold in_hub. cbn [broadcast settings world].
  destruct (publish (packet_message p) (broadcast app)) as [[[]|e] h]; [|reflexivity].
  apply IH; [exact Hw'|exact Hrest].
Qed.

Lemma ranged_ingest_rssi_from samples : forall accepted app,
  Ranged.within_range (world app) -> Forall Ranged.representable samples ->
  Ranged.ingest_rssi_from accepted samples app = ingest_rssi_from accepted samples app.
Proof.
  induction samples as [|s rest IH]; intros accepted app Hw Hss; [reflexivity|].
  apply Forall_cons in Hss as [Hs Hrest].
  cbn [Ranged.ingest_rssi_from ingest_rssi_from]. unfold bind, in_store.
  rewrite (ranged_add_rssi s (world app) Hw Hs).
  pose proof (apply_insert_within_range (InsertRssi s) (world app) Hw Hs) as Hw'.
  cbn [apply_insert] in Hw'.
  destruct (add_rssi s (world app)) as [[[]|e] w']; [|reflexivity].
  cbn [snd] in Hw'. unfold in_hub. cbn [broadcast settings world].
  destruct (publish (rssi_message s) (broadcast app)) as [[[]|e] h]; [|reflexivity].
  apply IH; [exact Hw'|exact Hrest].
Qed.

Lemma representable_packets_ops packets :
  Forall Ranged.representable packets ->
  Forall Ranged.representable_op (map InsertPacket packets).
Proof. induction 1; cbn [map]; constructor; auto. Qed.

Lemma representable_samples_ops samples :
  Forall Ranged.representable samples ->
  Forall Ranged.representable_op (map InsertRssi samples).
Proof. induction 1; cbn [map]; constructor; auto. Qed.

(** X7.  On a store whose capacity is not negative and whose datetimes are
    within the range, a request of [n] packets (of [n] samples) with
    timestamps within the range returns [n] accepted; the store is left as
    by the [n] inserts in the order of the request, and the hub as by the
    [n] publications of the corresponding messages in the same order. *)
Theorem ingest_stores_and_publishes_in_order
    (app : App) (packets : list PacketEvent) (samples : list RssiSample) :
  0 <= _max_items (self (world app)) ->
  Ranged.within_range (world app) ->
  (Forall Ranged.representable packets ->
   Ranged.ingest_packets packets app =
     (Returned (length packets),
      {| settings := settings app;
         world := Ranged.run_inserts (map InsertPacket packets) (world app);
         broadcast := run_hub (map HubPublish (map packet_message packets))
                        (broadcast app) |})) /\
  (Forall Ranged.representable samples ->
   Ranged.ingest_rssi samples app =
     (Returned (length samples),
      {| settings := settings app;
         world := Ranged.run_inserts (map InsertRssi samples) (world app);
         broadcast := run_hub (map HubPublish (map rssi_message samples))
                        (broadcast app) |})).
Proof.
  intros Hmax Hw.
  destruct (storage_ingest_in_order app packets samples Hmax) as [Hp Hs].
  split.
  - intros Hps. unfold Ranged.ingest_packets.
    rewrite (ranged_ingest_packets_from packets 0 app Hw Hps).
    destruct (ranged_run_inserts (map InsertPacket packets) (world app) Hw
                (representable_packets_ops packets Hps)) as [-> _].
    exact Hp.
  - intros Hss. unfold Ranged.ingest_rssi.
    rewrite (ranged_ingest_rssi_from samples 0 app Hw Hss).
    destruct (ranged_run_inserts (map InsertRssi samples) (world app) Hw
                (representable_samples_ops samples Hss)) as [-> _].
    exact Hs.
Qed.

Lemma default_app_within_range start :
  Ranged.datetime_min <= start - seconds 3600 ->
  start + 1000000 <= Ranged.datetime_max ->
  Ranged.within_range (world (default_app (settling start))).
Proof.
  intros Hlo Hhi. split; cbn; [|constructor..].
  apply settling_within_range; unfold timedelta_seconds, seconds in *; lia.
Qed.

Lemma ingest_stores_and_publishes_in_order_witness :
  let p1 := packet_at "N0CALL-1" (seconds 995) in
  let p2 := packet_at "N0CALL-2" (seconds 996) in
  let app := snd (in_hub subscribe (default_app (settling (seconds 1000)))) in
  0 <= _max_items (self (world app)) /\
  Ranged.within_range (world app) /\
  Forall Ranged.representable [p1; p2] /\
  fst (Ranged.ingest_packets [p1; p2] app) = Returned 2%nat /\
  pending 0%nat (snd (Ranged.ingest_packets [p1; p2] app)) =
    [packet_message p1; packet_message p2].
Proof.
  intros p1 p2 app.
  assert (Hmax : 0 <= _max_items (self (world app))) by (cbn; lia).
  assert (Hw : Ranged.within_range (world app)).
  { apply default_app_within_range; vm_compute; discriminate. }
  assert (Hps : Forall Ranged.representable [p1; p2]) by (repeat constructor).
  split; [exact Hmax|]. split; [exact Hw|]. split; [exact Hps|].
  rewrite (proj1 (ingest_stores_and_publishes_in_order app [p1; p2] [] Hmax Hw) Hps).
  split; [reflexivity|]. vm_compute. reflexivity.
Defined.

(** ** The stats endpoint within the range *)

Lemma ranged_handle r app :
  0 <= _max_items (self (world app)) ->
  Ranged.within_range (world app) -> Ranged.representable_request r ->
  Ranged.handle r app = handle r app /\
  Ranged.within_range (world (snd (handle r app))) /\
  0 <= _max_items (self (world (snd (handle r app)))).
Proof.
  intros Hmax Hw Hr. destruct r as [packets|samples];
    cbn [Ranged.handle handle Ranged.representable_request] in *.
  - unfold Ranged.ingest_packets, ingest_packets.
    rewrite (ranged_ingest_packets_from packets 0 app Hw Hr).
    rewrite ingest_packets_from_eq by exact Hmax. cbn [snd world].
    split; [reflexivity|]. split.
    + apply ranged_run_inserts; [exact Hw|now apply representable_packets_ops].
    + now rewrite run_inserts_max_items.
  - unfold Ranged.ingest_rssi, ingest_rssi.
    rewrite (ranged_ingest_rssi_from samples 0 app Hw Hr).
    rewrite ingest_rssi_from_eq by exact Hmax. cbn [snd world].
    split; [reflexivity|]. split.
    + apply ranged_run_inserts; [exact Hw|now apply representable_samples_ops].
    + now rewrite run_inserts_max_items.
Qed.

Lemma ranged_serve requests : forall app,
  0 <= _max_items (self (world app)) ->
  Ranged.within_range (world app) ->
  Forall Ranged.representable_request requests ->
  Ranged.serve requests app = interleave requests app.
Proof.
  induction requests as [|r rest IH]; intros app Hmax Hw Hrs; [reflexivity|].
  apply Forall_cons in Hrs as [Hr Hrest].
  destruct (ranged_handle r app Hmax Hw Hr) as (Heq & Hw' & Hmax').
  unfold Ranged.serve, interleave in *. cbn [fold_left]. rewrite Heq.
  now apply IH.
Qed.

(** X9.  On an application that [create_app] has built, whatever the cache of
    [get_settings] held, after any requests posting packets and samples whose
    timestamps, like the readings of the clock and the cutoffs, are within
    the range of [datetime]: [/stats] returns without changing anything, and
    reports a number of packets and a number of samples that do not exceed
    the [max_history_items] it reports, which is at least 1, next to a
    retention of at least 60 s. *)
Theorem stats_within_capacity
    (env : Config.environment) (c : clock) (cache cache' : option Config.AppSettings)
    (app : App) (requests : list request) :
  filled_by_get_settings cache ->
  Ranged.create_app env c cache = (Returned app, cache') ->
  Ranged.clock_within_range c (_retention (self (world app))) ->
  Forall Ranged.representable_request requests ->
  let app' := Ranged.serve requests app in
  exists st,
    Status.stats app' = (Returned st, app') /\
    Z.of_nat (Status.packets st) <= Status.max_history_items st /\
    Z.of_nat (Status.rssi_samples st) <= Status.max_history_items st /\
    1 <= Status.max_history_items st /\
    60 <= Status.retention_seconds st /\
    Status.stations_tracked st = length (_last_seen_by_station (self (world app'))).
Proof.
  intros Hcache Happ Hclock Hrs app'.
  destruct (ranged_create_app env c cache app cache' Hcache Happ)
    as (Hret & Hmax & _ & _ & _ & Hworld & _).
  assert (Hmax0 : 0 <= _max_items (self (world app))) by (rewrite Hworld; cbn; lia).
  assert (Hw : Ranged.within_range (world app)).
  { rewrite Hworld in Hclock |- *. now apply fresh_world_within_range. }
  assert (Hserve : app' = interleave requests app) by now apply ranged_serve.
  destruct (interleave_world requests app Hmax0) as [Hs Hwd]. rewrite <- Hserve in Hs, Hwd.
  rewrite Hworld in Hwd.
  destruct (run_inserts_sizes (Config.history_retention_seconds (settings app))
              (Config.max_history_items (settings app)) c
              (concat (map inserts_of requests))) as [Hp Hr]; [lia|].
  rewrite <- Hwd in Hp, Hr.
  exists {| Status.packets := length (_packets (self (world app')));
            Status.rssi_samples := length (_rssi (self (world app')));
            Status.stations_tracked :=
              length (_last_seen_by_station (self (world app')));
            Status.retention_seconds :=
              Config.history_retention_seconds (settings app');
            Status.max_history_items := Config.max_history_items (settings app') |}.
  split.
  { unfold Status.stats, bind, in_store, Storage.stats, gets, ret.
    cbn. destruct app'; reflexivity. }
  cbn. rewrite Hs. auto 10.
Qed.

Lemma stats_within_capacity_witness :
  let c := settling (seconds 1000) in
  let requests := [PostPackets [packet_at "N0CALL-1" (seconds 995)];
                   PostRssi [sample_at (seconds 996); sample_at (seconds 997)]] in
  filled_by_get_settings None /\
  Ranged.create_app default_environment c None =
    (Returned (default_app c), Some (settings (default_app c))) /\
  Ranged.clock_within_range c (_retention (self (world (default_app c)))) /\
  Forall Ranged.representable_request requests /\
  exists st,
    fst (Status.stats (Ranged.serve requests (default_app c))) = Returned st /\
    Z.of_nat (Status.packets st) <= Status.max_history_items st /\
    Z.of_nat (Status.rssi_samples st) <= Status.max_history_items st.
Proof.
  intros c requests.
  assert (Hcache : filled_by_get_settings None) by exact I.
  assert (Happ : Ranged.create_app default_environment c None =
                 (Returned (default_app c), Some (settings (default_app c))))
    by reflexivity.
  assert (Hclock : Ranged.clock_within_range c (_retention (self (world (default_app c))))).
  { apply settling_within_range; vm_compute; discriminate. }
  assert (Hrs : Forall Ranged.representable_request requests).
  { repeat constructor. }
  split; [exact Hcache|]. split; [exact Happ|]. split; [exact Hclock|].
  split; [exact Hrs|].
  destruct (stats_within_capacity default_environment c None _ (default_app c) requests
              Hcache Happ Hclock Hrs)
    as (st & Hst & Hp & Hr & _).
  exists st. rewrite Hst. now split_and!.
Defined.

(** ** Inserts within the range *)

(** A fresh store and the inserts made into it, all within the range. *)
Lemma ranged_run_from_fresh retention_seconds max_items store c ops :
  Ranged.new_InMemoryStore retention_seconds max_items = Returned store ->
  Ranged.clock_within_range c (_retention store) ->
  Forall Ranged.representable_op ops ->
  Ranged.run_inserts ops {| self := store; clk := c |} =
  run_inserts ops (fresh_world retention_seconds max_items c) /\
  Ranged.within_range (run_inserts ops (fresh_world retention_seconds max_items c)).
Proof.
  intros Hnew Hclock Hops.
  pose proof (ranged_new_InMemoryStore _ _ _ c Hnew) as Hfresh.
  rewrite Hfresh. apply ranged_run_inserts; [|exact Hops].
  apply fresh_world_within_range.
  apply (f_equal (fun w => _retention (self w))) in Hfresh. cbn in Hfresh.
  now rewrite <- Hfresh.
Qed.

(** X4.  Insert, then look up, the datetimes involved being within the range
    of [datetime].  After any sequence of inserts into a fresh store of
    capacity at least one, [add_packet] of a packet whose timestamp is not
    below the cutoff [now - retention] returns; the packet is then the newest
    of the packet history, it is what the index holds under its source
    callsign when that is not empty, and its message is part of
    [snapshot_stream_events], which returns. *)
Theorem inserted_packet_is_retained
    (retention_seconds max_items : Z) (store : InMemoryStore) (c : clock)
    (ops : list insert_op) (packet : PacketEvent) (ts : Z) :
  Ranged.new_InMemoryStore retention_seconds max_items = Returned store ->
  1 <= max_items ->
  Ranged.clock_within_range c (_retention store) ->
  Forall Ranged.representable_op ops ->
  let w := Ranged.run_inserts ops {| self := store; clk := c |} in
  Ranged.stored_datetime packet = Some (Returned ts) ->
  wall (clk w) (reads (clk w)) - _retention (self w) <= ts ->
  exists w',
    Ranged.add_packet packet w = (Returned tt, w') /\
    last (_packets (self w')) = Some packet /\
    (forall callsign,
       source_callsign packet = Some callsign -> callsign <> EmptyString ->
       dict_get callsign (_last_seen_by_station (self w')) = Some packet) /\
    exists messages,
      fst (Ranged.snapshot_stream_events w') = Returned messages /\
      packet_message packet ∈ messages.
Proof.
  intros Hnew Hmax Hclock Hops w Hts Hcut.
  destruct (ranged_run_from_fresh _ _ _ _ _ Hnew Hclock Hops) as [Hrun Hw].
  fold w in Hrun. rewrite <- Hrun in Hw.
  assert (Hp : Ranged.representable packet).
  { unfold Ranged.representable. now rewrite Hts. }
  pose proof (ranged_stored_returned packet ts Hts) as Hts'.
  rewrite Hrun in Hcut.
  destruct (storage_inserted_packet_is_retained retention_seconds max_items c ops packet ts
              Hmax Hts' Hcut) as (w' & Hins & Hlast & Hidx & messages & Hsnap & Hin).
  rewrite <- Hrun in Hins.
  exists w'. rewrite (ranged_add_packet packet w Hw Hp).
  split; [exact Hins|]. split; [exact Hlast|]. split; [exact Hidx|].
  exists messages. split; [|exact Hin].
  pose proof (apply_insert_within_range (InsertPacket packet) w Hw Hp) as Hw'.
  cbn [apply_insert] in Hw'. rewrite Hins in Hw'. cbn [snd] in Hw'.
  destruct Hw' as [Hc' Hp' Hr' _].
  destruct (ranged_snapshot_entries_agrees w'
              (clock_within_range_readings _ _ Hc') Hp' Hr') as [_ ->].
  exact Hsnap.
Qed.

Lemma inserted_packet_is_retained_witness :
  let ops := [InsertPacket (packet_at "N0CALL-1" (seconds 990));
              InsertPacket (packet_at "N0CALL-2" (seconds 991))] in
  let packet := packet_at "N0CALL-1" (seconds 995) in
  let store := {| _packets := []; _rssi := []; _last_seen_by_station := [];
                  _retention := seconds 60; _max_items := 2 |} in
  let c := settling (seconds 1000) in
  let w := Ranged.run_inserts ops {| self := store; clk := c |} in
  Ranged.new_InMemoryStore 60 2 = Returned store /\
  1 <= 2 /\
  Ranged.clock_within_range c (_retention store) /\
  Forall Ranged.representable_op ops /\
  Ranged.stored_datetime packet = Some (Returned (seconds 995)) /\
  wall (clk w) (reads (clk w)) - _retention (self w) <= seconds 995 /\
  exists w',
    Ranged.add_packet packet w = (Returned tt, w') /\
    last (_packets (self w')) = Some packet /\
    dict_get "N0CALL-1" (_last_seen_by_station (self w')) = Some packet.
Proof.
  intros ops packet store c w.
  assert (Hnew : Ranged.new_InMemoryStore 60 2 = Returned store) by reflexivity.
  assert (Hmax : 1 <= 2) by lia.
  assert (Hclock : Ranged.clock_within_range c (_retention store)).
  { apply settling_within_range; vm_compute; discriminate. }
  assert (Hops : Forall Ranged.representable_op ops) by (repeat constructor).
  assert (Hts : Ranged.stored_datetime packet = Some (Returned (seconds 995)))
    by reflexivity.
  assert (Hfresh : wall (clk w) (reads (clk w)) - _retention (self w) <= seconds 995)
    by (vm_compute; discriminate).
  split; [exact Hnew|]. split; [exact Hmax|]. split; [exact Hclock|].
  split; [exact Hops|]. split; [exact Hts|]. split; [exact Hfresh|].
  destruct (inserted_packet_is_retained 60 2 store c ops packet (seconds 995)
              Hnew Hmax Hclock Hops Hts Hfresh) as (w' & Hrun & Hlast & Hidx & _).
  exists w'. split; [exact Hrun|]. split; [exact Hlast|].
  apply Hidx; [reflexivity|discriminate].
Defined.

(** X5.  With a capacity of zero or less, and the datetimes involved within
    the range of [datetime], the history an insert appends to is empty
    afterwards.  At zero the insert returns; below zero the capacity loop
    pops from the emptied deque and the insert raises [IndexError], after the
    index has been assigned the packet and before it is pruned. *)
Theorem nonpositive_capacity_empties_history
    (w : World) (packet : PacketEvent) (sample : RssiSample) :
  _max_items (self w) <= 0 ->
  Ranged.within_range w ->
  Ranged.representable packet ->
  Ranged.representable sample ->
  let expected : outcome unit :=
    if _max_items (self w) <? 0 then Raised IndexError else Returned tt in
  fst (Ranged.add_packet packet w) = expected /\
  _packets (self (snd (Ranged.add_packet packet w))) = [] /\
  _rssi (self (snd (Ranged.add_packet packet w))) = _rssi (self w) /\
  (_max_items (self w) < 0 ->
   _last_seen_by_station (self (snd (Ranged.add_packet packet w))) =
   indexed packet (_last_seen_by_station (self w))) /\
  fst (Ranged.add_rssi sample w) = expected /\
  _rssi (self (snd (Ranged.add_rssi sample w))) = [] /\
  _packets (self (snd (Ranged.add_rssi sample w))) = _packets (self w) /\
  _last_seen_by_station (self (snd (Ranged.add_rssi sample w))) =
  _last_seen_by_station (self w).
Proof.
  intros Hmax Hw Hp Hs. cbv zeta.
  rewrite (ranged_add_packet packet w Hw Hp), (ranged_add_rssi sample w Hw Hs).
  exact (storage_nonpositive_capacity w packet sample Hmax).
Qed.

Lemma nonpositive_capacity_empties_history_witness :
  let w := {| self := {| _packets := []; _rssi := []; _last_seen_by_station := [];
                         _retention := seconds 60; _max_items := -1 |};
              clk := settling (seconds 1000) |} in
  let packet := packet_at "N0CALL-1" (seconds 995) in
  let sample := sample_at (seconds 995) in
  _max_items (self w) <= 0 /\
  Ranged.within_range w /\
  Ranged.representable packet /\
  Ranged.representable sample /\
  fst (Ranged.add_packet packet w) = Raised IndexError /\
  _packets (self (snd (Ranged.add_packet packet w))) = [] /\
  _last_seen_by_station (self (snd (Ranged.add_packet packet w))) =
    [("N0CALL-1", packet)].
Proof.
  intros w packet sample.
  assert (Hmax : _max_items (self w) <= 0) by (cbn; lia).
  assert (Hw : Ranged.within_range w).
  { split; [|constructor..]. apply settling_within_range; vm_compute; discriminate. }
  assert (Hp : Ranged.representable packet) by exact I.
  assert (Hs : Ranged.representable sample) by exact I.
  split; [exact Hmax|]. split; [exact Hw|]. split; [exact Hp|]. split; [exact Hs|].
  destruct (nonpositive_capacity_empties_history w packet sample Hmax Hw Hp Hs)
    as (Hr & Hpk & _ & Hidx & _).
  split; [exact Hr|]. split; [exact Hpk|]. apply Hidx. cbn. lia.
Defined.

(** ** The stations endpoint within the range *)

Lemma ranged_list_recent_stations_agrees within_seconds w :
  readings_in_range (clk w) ->
  Forall Ranged.representable (map snd (_last_seen_by_station (self w))) ->
  -86399999913600 <= within_seconds <= 86399999999999 ->
  Ranged.in_range (wall (clk w) (reads (clk w)) - timedelta_seconds within_seconds) = true ->
  Ranged.list_recent_stations within_seconds w = list_recent_stations within_seconds w.
Proof.
  intros Hc Hix Hbounds Hcut.
  unfold Ranged.list_recent_stations, list_recent_stations, bind, Ranged.lift,
    Ranged.in_clock, timed.
  rewrite (ranged_datetime_now _ Hc). unfold returned, datetime_now. cbn [fst snd].
  rewrite ranged_timedelta_seconds.
  destruct (Z.leb_spec (-86399999913600) within_seconds); [|lia].
  destruct (Z.leb_spec within_seconds 86399999999999); [|lia].
  cbn [andb]. unfold Ranged.datetime_sub. rewrite Hcut.
  rewrite ranged_recent_stations_agrees; [reflexivity| |exact Hix].
  intros n. apply Hc.
Qed.

(** X6.  [list_recent_stations] after any sequence of inserts into a fresh
    store, with [within_seconds] in the bounds that the framework checks and
    the datetimes involved within the range of [datetime]: it returns,
    leaves the store as it is, and answers with packets of pairwise distinct,
    non-empty source callsigns, each the last packet inserted for its
    callsign and none with a timestamp below [now - within_seconds]; a packet
    the index holds with a timestamp at or above that cutoff is part of the
    answer. *)
Theorem recent_stations_are_latest_and_unique
    (retention_seconds max_items : Z) (store : InMemoryStore) (c : clock)
    (ops : list insert_op) (within_seconds : Z) :
  Ranged.new_InMemoryStore retention_seconds max_items = Returned store ->
  Ranged.clock_within_range c (_retention store) ->
  Forall Ranged.representable_op ops ->
  60 <= within_seconds <= 86400 ->
  let w := Ranged.run_inserts ops {| self := store; clk := c |} in
  let cutoff := wall (clk w) (reads (clk w)) - within_seconds * 1000000 in
  Ranged.in_range cutoff = true ->
  exists stations w',
    Ranged.list_recent_stations within_seconds w = (Returned stations, w') /\
    self w' = self w /\
    NoDup (map source_callsign stations) /\
    (forall packet, packet ∈ stations ->
       exists callsign,
         source_callsign packet = Some callsign /\ callsign <> EmptyString /\
         latest_from callsign (packets_of ops) = Some packet /\
         forall ts, Ranged.stored_datetime packet = Some (Returned ts) -> cutoff <= ts) /\
    (forall callsign packet ts,
       dict_get callsign (_last_seen_by_station (self w)) = Some packet ->
       Ranged.stored_datetime packet = Some (Returned ts) -> cutoff <= ts ->
       packet ∈ stations).
Proof.
  intros Hnew Hclock Hops Hbounds w cutoff Hcut.
  destruct (ranged_run_from_fresh _ _ _ _ _ Hnew Hclock Hops) as [Hrun Hw].
  fold w in Hrun. rewrite <- Hrun in Hw.
  destruct (storage_recent_stations retention_seconds max_items c ops within_seconds)
    as (stations & w' & Hlist & Hself & Hnodup & Hsound & Hcomplete).
  cbv zeta in Hlist, Hself, Hsound, Hcomplete. rewrite <- Hrun in *.
  exists stations, w'.
  destruct Hw as [Hc _ _ Hix].
  rewrite ranged_list_recent_stations_agrees;
    [|exact (clock_within_range_readings _ _ Hc)|exact Hix|lia|exact Hcut].
  split; [exact Hlist|]. split; [exact Hself|]. split; [exact Hnodup|]. split.
  - intros packet Hin. destruct (Hsound packet Hin) as (callsign & Hk & Hne & Hlatest & Hts).
    exists callsign. split_and!; try assumption.
    intros ts Hstored. apply Hts. now apply ranged_stored_returned.
  - intros callsign packet ts Hget Hstored Hle.
    apply (Hcomplete callsign packet ts Hget); [|exact Hle].
    now apply ranged_stored_returned.
Qed.

Lemma recent_stations_are_latest_and_unique_witness :
  let ops := [InsertPacket (packet_at "N0CALL-1" (seconds 400));
              InsertPacket (packet_at "N0CALL-2" (seconds 990));
              InsertPacket (packet_at "N0CALL-2" (seconds 995))] in
  let store := {| _packets := []; _rssi := []; _last_seen_by_station := [];
                  _retention := seconds 3600; _max_items := 10 |} in
  let c := settling (seconds 1000) in
  let w := Ranged.run_inserts ops {| self := store; clk := c |} in
  Ranged.new_InMemoryStore 3600 10 = Returned store /\
  Ranged.clock_within_range c (_retention store) /\
  Forall Ranged.representable_op ops /\
  60 <= 60 <= 86400 /\
  Ranged.in_range (wall (clk w) (reads (clk w)) - 60 * 1000000) = true /\
  exists stations w',
    Ranged.list_recent_stations 60 w = (Returned stations, w') /\
    NoDup (map source_callsign stations) /\
    packet_at "N0CALL-2" (seconds 995) ∈ stations.
Proof.
  intros ops store c w.
  assert (Hnew : Ranged.new_InMemoryStore 3600 10 = Returned store) by reflexivity.
  assert (Hclock : Ranged.clock_within_range c (_retention store)).
  { apply settling_within_range; vm_compute; discriminate. }
  assert (Hops : Forall Ranged.representable_op ops) by (repeat constructor).
  assert (Hbounds : 60 <= 60 <= 86400) by lia.
  assert (Hcut : Ranged.in_range (wall (clk w) (reads (clk w)) - 60 * 1000000) = true)
    by (vm_compute; reflexivity).
  split; [exact Hnew|]. split; [exact Hclock|]. split; [exact Hops|].
  split; [exact Hbounds|]. split; [exact Hcut|].
  destruct (recent_stations_are_latest_and_unique 3600 10 store c ops 60
              Hnew Hclock Hops Hbounds Hcut)
    as (stations & w' & Hlist & _ & Hnodup & _ & Hcomplete).
  exists stations, w'. split; [exact Hlist|]. split; [exact Hnodup|].
  apply (Hcomplete "N0CALL-2" (packet_at "N0CALL-2" (seconds 995)) (seconds 995)).
  - vm_compute. reflexivity.
  - reflexivity.
  - vm_compute. discriminate.
Defined.
